(** * Spatial Hawk-Dove game on a toroidal lattice

    A shallow embedding of the notebook [Térbeli_játékelmélet.ipynb]:
    the two neighbourhood functions, [generate_table], [iterate], the
    sweep cells and the occupation-fraction cells, followed by the
    properties of the specification that were checked against them.

    Conventions of the embedding.
    - numpy integer arrays hold [Z]; float64 arrays hold the primitive
      binary64 [float] of the standard library, so sums, [np.max] and
      [np.isclose] are computed exactly as IEEE 754 does.
    - a two-dimensional array is its shape together with its row-major
      buffer, which is what [reshape] and [flatten] act on.
    - a Python exception is the [Raise] branch of [result].
    - [np.random] is the global generator: its state is threaded
      explicitly, and the generator itself (Mersenne Twister in numpy) is
      an interface, [NumpyRandom], of which only the fact that
      [permutation n] is a permutation of [0 .. n-1] is used. *)

From Stdlib Require Import ZArith Lia Floats.
From stdpp Require Import base tactics option list numbers sorting.

#[local] Set Warnings "-inexact-float".

(** ** Exceptions *)

Inductive exn : Type :=
| IndexError
| ValueError.

Inductive result (A : Type) : Type :=
| Ok (a : A)
| Raise (e : exn).
Arguments Ok {A} a.
Arguments Raise {A} e.

#[export] Instance exn_eq_dec : EqDecision exn.
Proof. solve_decision. Defined.

#[export] Instance result_eq_dec {A} `{EqDecision A} : EqDecision (result A).
Proof. solve_decision. Defined.

#[export] Instance result_ret : MRet result := λ A a, Ok a.
#[export] Instance result_bind : MBind result := λ A B k r,
  match r with
  | Ok a => k a
  | Raise e => Raise e
  end.

(** [[f x for x in l]] where [f] may raise: the first failure wins. *)
Fixpoint rmapM {A B} (f : A → result B) (l : list A) : result (list B) :=
  match l with
  | [] => Ok []
  | x :: l' => y ← f x; ys ← rmapM f l'; Ok (y :: ys)
  end.

(** ** Coordinates and the two neighbourhoods *)

Definition coord : Type := Z * Z.

(** numpy's integer [%]: floored, and [0] (with a warning) for a zero
    divisor. *)
Definition np_mod (a n : Z) : Z :=
  if decide (n = 0%Z) then 0%Z else (a mod n)%Z.

(** [neigh_idxs[:,0] %= size_x; neigh_idxs[:,1] %= size_y] *)
Definition wrap (size_x size_y : Z) (c : coord) : coord :=
  (np_mod c.1 size_x, np_mod c.2 size_y).

(** The pair [(current, neigh_idxs)] returned by both functions: [current]
    is the array [[[x, y]]] of one row. The source holds the coordinates in
    [int64] arrays; they are integers here, which is the same as long as
    [x ± 1] and [y ± 1] fit in 64 bits, as they do at every cell of a
    grid. *)
Definition neighbourhood : Type := list coord * list coord.
Definition neighbourhood_func : Type := Z → Z → Z → Z → neighbourhood.

Definition moore_neighbourhood : neighbourhood_func := λ x y size_x size_y,
  let current := [ (x, y) ] in
  let neigh_idxs :=
    [ (x-1, y+1); (x, y+1); (x+1, y+1);
      (x-1, y);             (x+1, y);
      (x-1, y-1); (x, y-1); (x+1, y-1) ]%Z in
  (current, wrap size_x size_y <$> neigh_idxs).

Definition von_neumann_neighbourhood : neighbourhood_func := λ x y size_x size_y,
  let current := [ (x, y) ] in
  let neigh_idxs :=
    [             (x, y+1);
      (x-1, y);             (x+1, y);
                  (x, y-1) ]%Z in
  (current, wrap size_x size_y <$> neigh_idxs).

(** A coordinate of the [X] by [Y] torus. *)
Definition in_grid (X Y : Z) (c : coord) : Prop :=
  (0 ≤ c.1 < X)%Z ∧ (0 ≤ c.2 < Y)%Z.

(** ** Arrays *)

(** A two-dimensional numpy array: [shape] and row-major buffer. *)
Record ndarray (A : Type) : Type := NdArray {
  shape0 : nat;
  shape1 : nat;
  buffer : list A;
}.
Arguments NdArray {A} shape0 shape1 buffer.
Arguments shape0 {A} n.
Arguments shape1 {A} n.
Arguments buffer {A} n.

(** The buffer holds exactly [shape0 * shape1] entries. *)
Definition well_formed {A} (a : ndarray A) : Prop :=
  length (buffer a) = shape0 a * shape1 a.

(** [np.zeros(shape)] *)
Definition np_zeros {A} (zero : A) (n m : nat) : ndarray A :=
  NdArray n m (replicate (n * m) zero).

(** Index normalisation along an axis of length [n]: a negative index counts
    from the end, anything outside [-n .. n-1] is an [IndexError]. *)
Definition np_index (n : nat) (i : Z) : result nat :=
  if decide (0 ≤ i < Z.of_nat n)%Z then Ok (Z.to_nat i)
  else if decide (- Z.of_nat n ≤ i < 0)%Z then Ok (Z.to_nat (i + Z.of_nat n))
  else Raise IndexError.

(** [l[i]] on a one-dimensional array or a Python list. *)
Definition getitem1 {A} (l : list A) (i : Z) : result A :=
  k ← np_index (length l) i;
  match l !! k with
  | Some v => Ok v
  | None => Raise IndexError
  end.

(** [a[c[0], c[1]]] *)
Definition getitem {A} (a : ndarray A) (c : coord) : result A :=
  r ← np_index (shape0 a) c.1;
  k ← np_index (shape1 a) c.2;
  match buffer a !! (r * shape1 a + k) with
  | Some v => Ok v
  | None => Raise IndexError
  end.

(** [a[c[0], c[1]] = v] *)
Definition setitem {A} (a : ndarray A) (c : coord) (v : A) : result (ndarray A) :=
  r ← np_index (shape0 a) c.1;
  k ← np_index (shape1 a) c.2;
  if decide (r * shape1 a + k < length (buffer a))
  then Ok (NdArray (shape0 a) (shape1 a) (<[r * shape1 a + k := v]> (buffer a)))
  else Raise IndexError.

(** [a[idxs[:,0], idxs[:,1]]]: one read per row of [idxs]. *)
Definition take_coords {A} (a : ndarray A) (idxs : list coord) : result (list A) :=
  rmapM (getitem a) idxs.

(** [l[start::step]] for a non-negative start and a positive step: the
    entries at positions [start], [start + step], [start + 2 step], ... *)
Definition slice_step {A} (start step : nat) (l : list A) : list A :=
  (filter (λ p, start ≤ p.1 ∧ (p.1 - start) `mod` step = 0) (imap pair l)).*2.

(** [table[idxs] = v] on a one-dimensional array, one store per index; an
    index outside the array is an [IndexError]. *)
Fixpoint put1 {A} (table : list A) (idxs : list nat) (v : A) : result (list A) :=
  match idxs with
  | [] => Ok table
  | k :: idxs' =>
      if decide (k < length table) then put1 (<[k := v]> table) idxs' v
      else Raise IndexError
  end.

(** [table[idxs]] on a one-dimensional array. *)
Definition take1 {A} (table : list A) (idxs : list nat) : result (list A) :=
  rmapM (λ k, getitem1 table (Z.of_nat k)) idxs.

(** [np.zeros(n)] for one dimension; numpy rejects a negative size. *)
Definition np_zeros1 {A} (zero : A) (n : Z) : result (list A) :=
  if decide (n < 0)%Z then Raise ValueError
  else Ok (replicate (Z.to_nat n) zero).

(** [l.reshape(d0, d1)]: a negative entry stands for the one dimension numpy
    infers; two of them, or sizes that do not multiply to [len(l)], are a
    [ValueError]. *)
Definition np_reshape {A} (l : list A) (d0 d1 : Z) : result (ndarray A) :=
  let n := Z.of_nat (length l) in
  if decide (d0 < 0 ∧ d1 < 0)%Z then Raise ValueError
  else if decide (d0 < 0)%Z then
    if decide (d1 ≠ 0 ∧ n `mod` d1 = 0)%Z
    then Ok (NdArray (Z.to_nat (n `div` d1)) (Z.to_nat d1) l)
    else Raise ValueError
  else if decide (d1 < 0)%Z then
    if decide (d0 ≠ 0 ∧ n `mod` d0 = 0)%Z
    then Ok (NdArray (Z.to_nat d0) (Z.to_nat (n `div` d0)) l)
    else Raise ValueError
  else if decide (d0 * d1 = n)%Z
    then Ok (NdArray (Z.to_nat d0) (Z.to_nat d1) l)
    else Raise ValueError.

(** [range(n)] for a Python integer: empty when [n ≤ 0]. *)
Definition range (n : Z) : list nat := seq 0 (Z.to_nat n).

(** ** The global random generator *)

(** [np.random]: [seed n] is the state after [np.random.seed(n)], which
    forgets the earlier state; [permutation n] is
    [np.random.permutation(n)], a shuffle of [arange(n)] that advances the
    state. *)
Class NumpyRandom : Type := {
  rng : Type;
  seed : Z → rng;
  permutation : nat → rng → list nat * rng;
  permutation_perm n g : (permutation n g).1 ≡ₚ seq 0 n;
}.

(** ** Floating point helpers *)

(** [np.maximum(a, b)]: [a] when [a >= b] or [a] is NaN, otherwise [b], so a
    NaN on either side propagates. *)
Definition np_maximum (a b : float) : float :=
  if (PrimFloat.leb b a || PrimFloat.is_nan a)%bool then a else b.

(** [np.max(l)] is [np.maximum.reduce(l)]; an empty array is a
    [ValueError]. *)
Definition np_max (l : list float) : result float :=
  match l with
  | [] => Raise ValueError
  | x :: l' => Ok (foldl np_maximum x l')
  end.

(** Defaults of [np.isclose]. *)
Definition rtol : float := 1e-5%float.
Definition atol : float := 1e-8%float.

(** [np.isclose(x, y)] with the default [rtol], [atol] and
    [equal_nan=False]:
    [(abs(x - y) <= atol + rtol * abs(y)) & isfinite(y) | (x == y)]. *)
Definition isclose (x y : float) : bool :=
  (PrimFloat.leb (PrimFloat.abs (x - y)) (atol + rtol * PrimFloat.abs y)
     && PrimFloat.is_finite y
   || PrimFloat.eqb x y)%bool.

(** [np.argwhere(mask).flatten()] on a one-dimensional mask. *)
Definition argwhere (mask : list bool) : list nat :=
  (filter (λ p, p.2 = true) (imap pair mask)).*1.

(** A non-negative numpy integer converted to float64 for true division. *)
Definition float_of_nat (n : nat) : float :=
  PrimFloat.of_uint63 (Uint63.of_Z (Z.of_nat n)).

(** [for x in l: a = f(a, x)] where [f] may raise. *)
Fixpoint rfoldl {A B} (f : A → B → result A) (a : A) (l : list B) : result A :=
  match l with
  | [] => Ok a
  | x :: l' => a' ← f a x; rfoldl f a' l'
  end.

Section Engine.
Context `{NumpyRandom}.

(** ** [generate_table] *)

(** The argument [g] is the state of the global generator on entry; the
    function reseeds it before drawing. *)
Definition generate_table (size_x size_y num_strats : Z) (g : rng)
  : result (ndarray Z * rng) :=
  table ← np_zeros1 0%Z (size_x * size_y);
  let g := seed 0 in
  let '(rnd_idxs, g) := permutation (Z.to_nat (size_x * size_y)) g in
  table ← rfoldl (λ table i,
             put1 table (slice_step i (Z.to_nat num_strats) rnd_idxs) (Z.of_nat i))
           table (range num_strats);
  a ← np_reshape table size_x size_y;
  Ok (a, g).

(** ** [iterate] *)

(** The objects [iterate] touches: its argument [table], which is the
    caller's array, its two local arrays, and the global generator. *)
Record store : Type := Store {
  st_table : ndarray Z;
  st_table_s : ndarray float;
  st_table_new : ndarray Z;
  st_random : rng;
}.

Definition M (A : Type) : Type := store → result (A * store).

#[global] Instance M_ret : MRet M := λ A a st, Ok (a, st).
#[global] Instance M_bind : MBind M := λ A B k m st,
  '(a, st') ← m st; k a st'.

Definition lift {A} (r : result A) : M A := λ st,
  a ← r; Ok (a, st).

(** [table[c]] *)
Definition load_table (c : coord) : M Z := λ st,
  v ← getitem (st_table st) c; Ok (v, st).

(** [table_s[c] += v] *)
Definition iadd_s (c : coord) (v : float) : M unit := λ st,
  old ← getitem (st_table_s st) c;
  a ← setitem (st_table_s st) c (old + v)%float;
  Ok (tt, Store (st_table st) a (st_table_new st) (st_random st)).

(** [table_new[c] = v] *)
Definition store_new (c : coord) (v : Z) : M unit := λ st,
  a ← setitem (st_table_new st) c v;
  Ok (tt, Store (st_table st) (st_table_s st) a (st_random st)).

(** [np.random.permutation(n)] *)
Definition rand_permutation (n : nat) : M (list nat) := λ st,
  let '(p, g) := permutation n (st_random st) in
  Ok (p, Store (st_table st) (st_table_s st) (st_table_new st) g).

(** [table[idxs[:,0], idxs[:,1]]] and the same read of [table_s] *)
Definition take_table (idxs : list coord) : M (list Z) := λ st,
  vs ← take_coords (st_table st) idxs; Ok (vs, st).

Definition take_s (idxs : list coord) : M (list float) := λ st,
  vs ← take_coords (st_table_s st) idxs; Ok (vs, st).

(** [for x in l: body(x)] *)
Fixpoint for_each {A} (l : list A) (body : A → M unit) : M unit :=
  match l with
  | [] => mret tt
  | x :: l' => _ ← body x; for_each l' body
  end.

(** [for i in range(n): body(i)] *)
Definition for_range (n : nat) (body : nat → M unit) : M unit :=
  for_each (seq 0 n) body.

(** Body of the first pair of loops: the payoffs of cell [(i, j)] against
    its neighbours are added, one by one, to [table_s[i, j]]. *)
Definition fitness_cell (payoff_mat : ndarray float) (nf : neighbourhood_func)
    (X Y i j : nat) : M unit :=
  let '(current, neighs) :=
    nf (Z.of_nat i) (Z.of_nat j) (Z.of_nat X) (Z.of_nat Y) in
  c ← lift (getitem1 current 0);
  current_strat ← load_table c;
  neighs_strat ← take_table neighs;
  for_each neighs_strat (λ neigh_strat,
    p ← lift (getitem payoff_mat (current_strat, neigh_strat));
    iadd_s (Z.of_nat i, Z.of_nat j) p).

(** Body of the second pair of loops: cell [(i, j)] takes the strategy of a
    position of largest fitness among itself and its neighbours, ties broken
    by the head of a random permutation. *)
Definition update_cell (nf : neighbourhood_func) (X Y i j : nat) : M unit :=
  let '(current, neighs) :=
    nf (Z.of_nat i) (Z.of_nat j) (Z.of_nat X) (Z.of_nat Y) in
  let all_neighs := current ++ neighs in
  neighs_s ← take_s all_neighs;
  max_val ← lift (np_max neighs_s);
  let max_idx := argwhere ((λ s, isclose s max_val) <$> neighs_s) in
  perm ← rand_permutation (length max_idx);
  rnd_idx ← lift (getitem1 perm 0);
  max_idx_chosen ← lift (getitem1 max_idx (Z.of_nat rnd_idx));
  local_max_s_coords ← lift (getitem1 all_neighs (Z.of_nat max_idx_chosen));
  v ← load_table local_max_s_coords;
  store_new (Z.of_nat i, Z.of_nat j) v.

Definition fitness_pass (payoff_mat : ndarray float) (nf : neighbourhood_func)
    (X Y : nat) : M unit :=
  for_range X (λ i, for_range Y (λ j, fitness_cell payoff_mat nf X Y i j)).

Definition update_pass (nf : neighbourhood_func) (X Y : nat) : M unit :=
  for_range X (λ i, for_range Y (λ j, update_cell nf X Y i j)).

(** [m] never changes the component [proj] of the store. *)
Definition preserves {A B} (proj : store → B) (m : M A) : Prop :=
  ∀ st a st', m st = Ok (a, st') → proj st' = proj st.

(** The store on entry to [iterate]: the caller's [table] and generator, and
    the two freshly allocated arrays of zeros. *)
Definition enter (table : ndarray Z) (g : rng) : store :=
  Store table
    (np_zeros 0%float (shape0 table) (shape1 table))
    (np_zeros 0%Z (shape0 table) (shape1 table))
    g.

(** The two passes of [iterate], run on the store. *)
Definition iterate_body (payoff_mat : ndarray float) (nf : neighbourhood_func) : M unit := λ st,
  let X := shape0 (st_table st) in
  let Y := shape1 (st_table st) in
  (_ ← fitness_pass payoff_mat nf X Y; update_pass nf X Y) st.

(** [iterate(table, payoff_mat, neighbourhood_func)]: returns [table_new]
    and leaves the generator advanced. *)
Definition iterate (table : ndarray Z) (payoff_mat : ndarray float)
    (nf : neighbourhood_func) (g : rng) : result (ndarray Z * rng) :=
  '(_, st) ← iterate_body payoff_mat nf (enter table g);
  Ok (st_table_new st, st_random st).

(** ** The sweep cells *)

(** [np.array([[1-beta, 2], [0, 1]])] *)
Definition payoff_hawk_dove (beta : float) : ndarray float :=
  NdArray 2 2 [ (1 - beta)%float; 2%float;
                0%float;          1%float ].

(** The three-strategy matrix of the Hawk-Dove-Retaliator cells. *)
Definition payoff_retaliator (beta eps : float) : ndarray float :=
  NdArray 3 3 [ (1 - beta)%float;       2%float;         (1 - beta + eps)%float;
                0%float;                1%float;         (1 - eps)%float;
                (1 - beta - eps)%float; (1 + eps)%float; 1%float ].

(** The shuffle of the mixed runs, in generation [n]:
    [np.random.seed(n)] and a permutation of the flattened table. *)
Definition shuffle (table : ndarray Z) (n : nat) : result (ndarray Z * rng) :=
  let g := seed (Z.of_nat n) in
  let '(shuffle_idx, g) := permutation (length (buffer table)) g in
  flat ← take1 (buffer table) shuffle_idx;
  a ← np_reshape flat (Z.of_nat (shape0 table)) (Z.of_nat (shape1 table));
  Ok (a, g).

(** One generation of the inner loop: [iterate], then the shuffle when the
    run is a mixed one. *)
Definition generation (payoff : ndarray float) (nf : neighbourhood_func)
    (mixed : bool) (n : nat) (table : ndarray Z) (g : rng)
  : result (ndarray Z * rng) :=
  '(table, g) ← iterate table payoff nf g;
  if mixed then shuffle table n else Ok (table, g).

(** The inner loop [for n in range(G)], appending each table to
    [table_all]. *)
Fixpoint generations (payoff : ndarray float) (nf : neighbourhood_func)
    (mixed : bool) (ns : list nat) (table : ndarray Z) (g : rng)
    (table_all : list (ndarray Z)) : result (list (ndarray Z) * rng) :=
  match ns with
  | [] => Ok (table_all, g)
  | n :: ns' =>
      '(table, g) ← generation payoff nf mixed n table g;
      generations payoff nf mixed ns' table g (table_all ++ [table])
  end.

(** The body of the loop over [beta_list]: one run, whose history starts
    with the initial table. *)
Definition run (payoff : ndarray float) (size_x size_y num_strats G : Z)
    (nf : neighbourhood_func) (mixed : bool) (g : rng)
  : result (list (ndarray Z) * rng) :=
  '(table, g) ← generate_table size_x size_y num_strats g;
  generations payoff nf mixed (range G) table g [table].

(** The loop over [beta_list], building [table_m]. *)
Fixpoint sweep (payoff_of : float → ndarray float) (beta_list : list float)
    (size_x size_y num_strats G : Z) (nf : neighbourhood_func) (mixed : bool)
    (g : rng) : result (list (list (ndarray Z)) * rng) :=
  match beta_list with
  | [] => Ok ([], g)
  | beta :: betas =>
      '(table_all, g) ← run (payoff_of beta) size_x size_y num_strats G nf mixed g;
      '(table_m, g) ← sweep payoff_of betas size_x size_y num_strats G nf mixed g;
      Ok (table_all :: table_m, g)
  end.

End Engine.

(** ** The generation step as a function of the snapshot

    What the two passes compute, written without a store: the fitness of a
    cell and the choice made for a cell read [table] (and the finished
    fitness field) only. The theorems below show that [iterate] computes
    exactly these. *)

(** [[f(x, s) for x in l]] threading a state [s]. *)
Fixpoint rmapS {S A B} (f : A → S → result (B * S)) (l : list A) (s : S)
  : result (list B * S) :=
  match l with
  | [] => Ok ([], s)
  | x :: l' =>
      '(y, s) ← f x s;
      '(ys, s) ← rmapS f l' s;
      Ok (y :: ys, s)
  end.

(** Left-to-right float sum starting from [z]. *)
Definition sum_from (z : float) (ps : list float) : float :=
  foldl PrimFloat.add z ps.

Section Snapshot.
Context `{NumpyRandom}.

(** Payoffs of the cell holding [current_strat] against the strategies
    [neighs_strat], in order. *)
Definition payoffs (payoff_mat : ndarray float) (current_strat : Z)
    (neighs_strat : list Z) : result (list float) :=
  rmapM (λ s, getitem payoff_mat (current_strat, s)) neighs_strat.

Definition cell_fitness (table : ndarray Z) (payoff_mat : ndarray float)
    (nf : neighbourhood_func) (i j : nat) : result float :=
  let '(current, neighs) :=
    nf (Z.of_nat i) (Z.of_nat j) (Z.of_nat (shape0 table)) (Z.of_nat (shape1 table)) in
  c ← getitem1 current 0;
  current_strat ← getitem table c;
  neighs_strat ← take_coords table neighs;
  ps ← payoffs payoff_mat current_strat neighs_strat;
  Ok (sum_from 0%float ps).

Definition fitness_field (table : ndarray Z) (payoff_mat : ndarray float)
    (nf : neighbourhood_func) : result (ndarray float) :=
  rows ← rmapM (λ i, rmapM (λ j, cell_fitness table payoff_mat nf i j)
                       (seq 0 (shape1 table)))
          (seq 0 (shape0 table));
  Ok (NdArray (shape0 table) (shape1 table) (mjoin rows)).

(** The positions of [neighs_s] tied for the maximum. *)
Definition tie_set (neighs_s : list float) (max_val : float) : list nat :=
  argwhere ((λ s, isclose s max_val) <$> neighs_s).

(** [max_idx[perm[0]]]: the entry of [max_idx] the tie-break selects when
    [np.random.permutation] returns [perm]. *)
Definition chosen (max_idx perm : list nat) : result nat :=
  rnd_idx ← getitem1 perm 0;
  getitem1 max_idx (Z.of_nat rnd_idx).

(** The tie-break: the entry of [max_idx] selected by the head of a random
    permutation of its positions. *)
Definition pick (max_idx : list nat) (g : rng) : result (nat * rng) :=
  let '(perm, g) := permutation (length max_idx) g in
  rnd_idx ← getitem1 perm 0;
  max_idx_chosen ← getitem1 max_idx (Z.of_nat rnd_idx);
  Ok (max_idx_chosen, g).

Definition cell_choice (table : ndarray Z) (fitness : ndarray float)
    (nf : neighbourhood_func) (i j : nat) (g : rng) : result (Z * rng) :=
  let '(current, neighs) :=
    nf (Z.of_nat i) (Z.of_nat j) (Z.of_nat (shape0 table)) (Z.of_nat (shape1 table)) in
  let all_neighs := current ++ neighs in
  neighs_s ← take_coords fitness all_neighs;
  max_val ← np_max neighs_s;
  '(max_idx_chosen, g) ← pick (tie_set neighs_s max_val) g;
  local_max_s_coords ← getitem1 all_neighs (Z.of_nat max_idx_chosen);
  v ← getitem table local_max_s_coords;
  Ok (v, g).

Definition update_rule (table : ndarray Z) (fitness : ndarray float)
    (nf : neighbourhood_func) (g : rng) : result (ndarray Z * rng) :=
  '(rows, g) ← rmapS (λ i, rmapS (λ j, cell_choice table fitness nf i j)
                             (seq 0 (shape1 table)))
                (seq 0 (shape0 table)) g;
  Ok (NdArray (shape0 table) (shape1 table) (mjoin rows), g).

End Snapshot.

(** ** The occupation-fraction cells *)

(** Number of entries of [l] equal to [v]: [(l == v).sum()]. *)
Definition count_eq (v : Z) (l : list Z) : nat :=
  length (filter (λ x, x = v) l).

(** [np.unique(l, return_counts=True)]: the sorted distinct values and how
    often each occurs. *)
Definition np_unique (l : list Z) : list Z * list nat :=
  let uniq := remove_dups (merge_sort Z.le l) in
  (uniq, (λ u, count_eq u l) <$> uniq).

(** The cells after the two-strategy sweeps. *)
Module TwoStrategy.

(** The inner loop [for l in range(1, lastnum+1)] for one run [table_m[k]]
    (the source fixes [lastnum] to 25). *)
Definition hawk_fractions_row (table_all : list (ndarray Z)) (lastnum : nat)
  : result (list float) :=
  rmapM (λ l,
    t ← getitem1 table_all (- Z.of_nat l);
    let '(uniq, counts) := np_unique (buffer t) in
    c ← getitem1 counts 0;
    Ok (float_of_nat c / float_of_nat (sum_list counts))%float)
  (seq 1 lastnum).

Definition hawk_fractions (table_m : list (list (ndarray Z))) (lastnum : nat)
  : result (list (list float)) :=
  rmapM (λ table_all, hawk_fractions_row table_all lastnum) table_m.

End TwoStrategy.

(** The cells after the three-strategy sweeps. *)
Module ThreeStrategy.

(** [(table_m[k,l] == s).sum() / (table_m.shape[-2]*table_m.shape[-1])] for
    [l] in [range(1, lastnum+1)]. *)
Definition fractions_row (s : Z) (table_all : list (ndarray Z)) (lastnum : nat)
  : result (list float) :=
  rmapM (λ l,
    t ← getitem1 table_all (Z.of_nat l);
    Ok (float_of_nat (count_eq s (buffer t))
        / float_of_nat (shape0 t * shape1 t))%float)
  (seq 1 lastnum).

Definition hawk_fractions (table_m : list (list (ndarray Z))) (lastnum : nat)
  : result (list (list float)) :=
  rmapM (λ table_all, fractions_row 0 table_all lastnum) table_m.

Definition dove_fractions (table_m : list (list (ndarray Z))) (lastnum : nat)
  : result (list (list float)) :=
  rmapM (λ table_all, fractions_row 1 table_all lastnum) table_m.

Definition revenge_fractions (table_m : list (list (ndarray Z))) (lastnum : nat)
  : result (list (list float)) :=
  rmapM (λ table_all, fractions_row 2 table_all lastnum) table_m.

End ThreeStrategy.

(** What the specification asks of the aggregation: for each of the last
    [L] generations of a run, most recent first, the number of cells holding
    [s] over the number of cells. *)
Definition fraction_of (s : Z) (t : ndarray Z) : float :=
  (float_of_nat (count_eq s (buffer t)) / float_of_nat (shape0 t * shape1 t))%float.

Definition last_fractions (s : Z) (table_all : list (ndarray Z)) (L : nat)
  : list float :=
  fraction_of s <$> take L (reverse table_all).

(** ** A small generator for running the model

    A stand-in for the Mersenne Twister: the state is a counter, a
    permutation is the identity rotated by the counter. *)
Definition rotation (n g : nat) : list nat * nat := (rotate g (seq 0 n), S g).

Definition counter_random : NumpyRandom.
Proof.
  refine {| rng := nat; seed := Z.to_nat; permutation := rotation |}.
  intros n g. unfold rotation, rotate. simpl.
  rewrite Permutation_app_comm. by rewrite take_drop.
Defined.

(** A second stand-in, which draws every permutation equally often: the
    state is a counter and the permutation drawn is the one at that place,
    cyclically, in the list of all permutations. *)
Definition listed (n g : nat) : list nat * nat :=
  (default (seq 0 n) (permutations (seq 0 n) !! (g `mod` fact n)), S g).

Definition listed_random : NumpyRandom.
Proof.
  refine {| rng := nat; seed := Z.to_nat; permutation := listed |}.
  intros n g. unfold listed. cbn [fst].
  destruct (permutations (seq 0 n) !! (g `mod` fact n)) as [p|] eqn:Hp; [|done].
  symmetry. apply permutations_Permutation. by eapply list_elem_of_lookup_2.
Defined.

(** ** Sample tables *)

(** A three by three table with five hawks, used to run the model. *)
Definition sample_table : ndarray Z :=
  NdArray 3 3 [ 0; 1; 0;
                1; 1; 0;
                0; 0; 1 ]%Z.

(** The table of nine hawks: every cell has the same fitness. *)
Definition all_hawks : ndarray Z := NdArray 3 3 (replicate 9 0%Z).

(** The table of nine doves: strategy 0 is absent. *)
Definition all_doves : ndarray Z := NdArray 3 3 (replicate 9 1%Z).

(** ** Auxiliary notions of the proofs *)

(** The labels [0 mod num, 1 mod num, ..., (n-1) mod num] handed out along the
    permutation. *)
Definition labels (n num : nat) : list Z :=
  (λ k, Z.of_nat (k `mod` num)) <$> seq 0 n.

(** The state of the assignment loop of [generate_table] after the
    strategies below [j] have been assigned: the cell at the [k]-th index of
    the permutation [rnd_idxs] holds [k mod num] if that is below [j],
    and still holds the initial zero otherwise. *)
Definition assigned (n num : nat) (rnd_idxs : list nat) (j : nat)
    (table : list Z) : Prop :=
  length table = n ∧
  ∀ k p, rnd_idxs !! k = Some p →
    table !! p = Some (if decide (k `mod` num < j)
                       then Z.of_nat (k `mod` num) else 0%Z).

(** Sign class of a result that cannot be negative or NaN. *)
Definition SFnonneg (x : spec_float) : Prop :=
  match x with
  | S754_zero _ => True
  | S754_infinity s | S754_finite s _ _ => s = false
  | S754_nan => False
  end.

(** Place of a float that is not NaN on the line: its class (minus
    infinity, negative, zero, positive, plus infinity), then exponent and
    mantissa, compared in that order. *)
Definition SFrank (x : spec_float) : Z * Z * Z :=
  match x with
  | S754_zero _ => (0, 0, 0)
  | S754_infinity true => (-2, 0, 0)
  | S754_infinity false => (2, 0, 0)
  | S754_nan => (0, 0, 0)
  | S754_finite true m e => (-1, - e, - Z.pos m)
  | S754_finite false m e => (1, e, Z.pos m)
  end%Z.

Definition lex_le (a b : Z * Z * Z) : Prop :=
  (a.1.1 < b.1.1 ∨
   (a.1.1 = b.1.1 ∧ (a.1.2 < b.1.2 ∨ (a.1.2 = b.1.2 ∧ a.2 ≤ b.2))))%Z.

(** * Properties *)

(** ** The neighbourhoods *)

Lemma np_mod_range a X : (1 ≤ X)%Z → (0 ≤ np_mod a X < X)%Z.
Proof.
  intros HX. unfold np_mod. case_decide; [lia|].
  apply Z.mod_pos_bound. lia.
Qed.

Lemma wrap_in_grid X Y c : (1 ≤ X)%Z → (1 ≤ Y)%Z → in_grid X Y (wrap X Y c).
Proof. intros. split; apply np_mod_range; done. Qed.

(** Two integers less than [X] apart land on different residues. *)
Lemma np_mod_apart a b X :
  (0 < b - a < X)%Z → np_mod a X ≠ np_mod b X.
Proof.
  intros Hab. unfold np_mod. case_decide; [lia|].
  intros Heq.
  assert (Hd : ((b - a) mod X = 0)%Z).
  { rewrite Zminus_mod, Heq, Z.sub_diag. apply Z.mod_0_l. lia. }
  rewrite Z.mod_small in Hd by lia. lia.
Qed.

(** The wrapped left and right neighbours coincide on a ring of one or
    two. *)
Lemma np_mod_pred_succ a X :
  (1 ≤ X ≤ 2)%Z → np_mod (a - 1) X = np_mod (a + 1) X.
Proof.
  intros HX. unfold np_mod. case_decide; [done|].
  assert (X = 1 ∨ X = 2)%Z as [-> | ->] by lia.
  - by rewrite !Z.mod_1_r.
  - replace (a + 1)%Z with (a - 1 + 1 * 2)%Z by lia.
    by rewrite Z.mod_add.
Qed.

Lemma residues_distinct a X :
  (3 ≤ X)%Z →
  np_mod (a - 1) X ≠ np_mod a X ∧
  np_mod a X ≠ np_mod (a + 1) X ∧
  np_mod (a - 1) X ≠ np_mod (a + 1) X.
Proof. intros. repeat split; apply np_mod_apart; lia. Qed.

Lemma moore_in_grid x y X Y :
  (1 ≤ X)%Z → (1 ≤ Y)%Z → Forall (in_grid X Y) (moore_neighbourhood x y X Y).2.
Proof.
  intros. unfold moore_neighbourhood. cbn [snd fmap list_fmap].
  repeat constructor; by apply wrap_in_grid || by apply np_mod_range.
Qed.

Lemma von_neumann_in_grid x y X Y :
  (1 ≤ X)%Z → (1 ≤ Y)%Z →
  Forall (in_grid X Y) (von_neumann_neighbourhood x y X Y).2.
Proof.
  intros. unfold von_neumann_neighbourhood. cbn [snd fmap list_fmap].
  repeat constructor; by apply wrap_in_grid || by apply np_mod_range.
Qed.

Ltac pairs_differ :=
  repeat (apply NoDup_cons; split;
          [rewrite ?elem_of_cons, elem_of_nil; unfold wrap; cbn [fst snd];
           intuition congruence|]);
  apply NoDup_nil_2.

Lemma moore_distinct x y X Y :
  (1 ≤ X)%Z → (1 ≤ Y)%Z →
  NoDup (moore_neighbourhood x y X Y).2 ↔ (3 ≤ X)%Z ∧ (3 ≤ Y)%Z.
Proof.
  intros HX HY. unfold moore_neighbourhood. cbn [snd fmap list_fmap]. split.
  - intros Hnd.
    destruct (decide (3 ≤ X)%Z) as [?|HX3]; [destruct (decide (3 ≤ Y)%Z) as [?|HY3]|];
      [done| |]; exfalso.
    + apply NoDup_cons in Hnd as [_ Hnd]. apply NoDup_cons in Hnd as [Hin _].
      apply Hin. unfold wrap. cbn [fst snd].
      rewrite (np_mod_pred_succ y Y) by lia. rewrite !elem_of_cons; eauto 10.
    + do 3 apply NoDup_cons in Hnd as [_ Hnd]. apply NoDup_cons in Hnd as [Hin _].
      apply Hin. unfold wrap. cbn [fst snd].
      rewrite (np_mod_pred_succ x X) by lia. rewrite !elem_of_cons; eauto 10.
  - intros [HX3 HY3].
    destruct (residues_distinct x X HX3) as (? & ? & ?).
    destruct (residues_distinct y Y HY3) as (? & ? & ?).
    pairs_differ.
Qed.

Lemma von_neumann_distinct x y X Y :
  (1 ≤ X)%Z → (1 ≤ Y)%Z →
  NoDup (von_neumann_neighbourhood x y X Y).2 ↔ (3 ≤ X)%Z ∧ (3 ≤ Y)%Z.
Proof.
  intros HX HY. unfold von_neumann_neighbourhood. cbn [snd fmap list_fmap]. split.
  - intros Hnd.
    destruct (decide (3 ≤ X)%Z) as [?|HX3]; [destruct (decide (3 ≤ Y)%Z) as [?|HY3]|];
      [done| |]; exfalso.
    + apply NoDup_cons in Hnd as [Hin _].
      apply Hin. unfold wrap. cbn [fst snd].
      rewrite <-(np_mod_pred_succ y Y) by lia. rewrite !elem_of_cons; eauto 10.
    + apply NoDup_cons in Hnd as [_ Hnd]. apply NoDup_cons in Hnd as [Hin _].
      apply Hin. unfold wrap. cbn [fst snd].
      rewrite (np_mod_pred_succ x X) by lia. rewrite !elem_of_cons; eauto 10.
  - intros [HX3 HY3].
    destruct (residues_distinct x X HX3) as (? & ? & ?).
    destruct (residues_distinct y Y HY3) as (? & ? & ?).
    pairs_differ.
Qed.

(** C5 (as amended): for every cell [(x, y)] of a grid, [0 ≤ x < X] and
    [0 ≤ y < Y] (so [X ≥ 1] and [Y ≥ 1]), the Moore neighbourhood has
    exactly 8 coordinates and the Von Neumann neighbourhood exactly 4, all
    of them inside [[0,X) × [0,Y)]; the coordinates are pairwise distinct
    exactly when [X ≥ 3] and [Y ≥ 3]. *)
Theorem neighbourhoods_wrap x y X Y :
  in_grid X Y (x, y) →
  let moore := (moore_neighbourhood x y X Y).2 in
  let von_neumann := (von_neumann_neighbourhood x y X Y).2 in
  length moore = 8 ∧ length von_neumann = 4 ∧
  Forall (in_grid X Y) moore ∧ Forall (in_grid X Y) von_neumann ∧
  (NoDup moore ↔ (3 ≤ X)%Z ∧ (3 ≤ Y)%Z) ∧
  (NoDup von_neumann ↔ (3 ≤ X)%Z ∧ (3 ≤ Y)%Z).
Proof.
  intros [Hx Hy]. cbn [fst snd] in Hx, Hy.
  assert (1 ≤ X)%Z as HX by lia. assert (1 ≤ Y)%Z as HY by lia.
  cbv zeta. split_and!.
  - done.
  - done.
  - by apply moore_in_grid.
  - by apply von_neumann_in_grid.
  - by apply moore_distinct.
  - by apply von_neumann_distinct.
Qed.

Lemma neighbourhoods_wrap_witness :
  length (moore_neighbourhood 9 9 10 10)%Z.2 = 8 ∧
  NoDup (von_neumann_neighbourhood 0 0 10 10)%Z.2.
Proof.
  assert (Hcorner : in_grid 10 10 (9, 9)%Z) by (split; cbn; lia).
  assert (Horigin : in_grid 10 10 (0, 0)%Z) by (split; cbn; lia).
  pose proof (neighbourhoods_wrap 9 9 10 10 Hcorner)%Z as (H8 & _).
  pose proof (neighbourhoods_wrap 0 0 10 10 Horigin)%Z
    as (_ & _ & _ & _ & _ & Hvn).
  split; [exact H8 | apply Hvn; lia].
Defined.

(** C5 (as stated) fails on a two by two torus: the left and right
    neighbours of the cell [(0, 0)] are the same cell, and so are the upper
    and lower ones. *)
Lemma neighbours_coincide :
  ¬ NoDup (moore_neighbourhood 0 0 2 2)%Z.2 ∧
  ¬ NoDup (von_neumann_neighbourhood 0 0 2 2)%Z.2.
Proof.
  split; intros Hnd.
  - do 3 apply NoDup_cons in Hnd as [_ Hnd]. apply NoDup_cons in Hnd as [Hin _].
    apply Hin. rewrite !elem_of_cons. vm_compute. eauto 10.
  - apply NoDup_cons in Hnd as [Hin _]. apply Hin. rewrite !elem_of_cons. vm_compute. eauto 10.
Qed.

(** ** Reading and writing cells *)

Lemma np_index_nat n i : i < n → np_index n (Z.of_nat i) = Ok i.
Proof.
  intros Hi. unfold np_index. rewrite decide_True by lia.
  by rewrite Nat2Z.id.
Qed.

Lemma getitem_nat {A} (a : ndarray A) i j :
  i < shape0 a → j < shape1 a →
  getitem a (Z.of_nat i, Z.of_nat j) =
    match buffer a !! (i * shape1 a + j) with
    | Some v => Ok v
    | None => Raise IndexError
    end.
Proof.
  intros Hi Hj. unfold getitem. cbn [fst snd].
  by rewrite !np_index_nat by done.
Qed.

Lemma getitem_middle {A} X Y (pre post : list A) z i j :
  i < X → j < Y → length pre = i * Y + j →
  getitem (NdArray X Y (pre ++ z :: post)) (Z.of_nat i, Z.of_nat j) = Ok z.
Proof.
  intros Hi Hj Hlen. rewrite getitem_nat by done. cbn [buffer shape1].
  by rewrite list_lookup_middle.
Qed.

Lemma setitem_middle {A} X Y (pre post : list A) z v i j :
  i < X → j < Y → length pre = i * Y + j →
  setitem (NdArray X Y (pre ++ z :: post)) (Z.of_nat i, Z.of_nat j) v
  = Ok (NdArray X Y (pre ++ v :: post)).
Proof.
  intros Hi Hj Hlen. unfold setitem. cbn [fst snd shape0 shape1 buffer].
  rewrite !np_index_nat by done. cbn.
  rewrite decide_True by (rewrite length_app; cbn; lia).
  do 2 f_equal. rewrite <-Hlen.
  rewrite insert_app_r_alt by lia. by rewrite Nat.sub_diag.
Qed.

Lemma sum_from_cons z p ps : sum_from z (p :: ps) = sum_from (z + p)%float ps.
Proof. done. Qed.

Section IterateProofs.
Context `{NumpyRandom}.

Lemma M_bind_run {A B} (m : M A) (k : A → M B) st :
  (m ≫= k) st = '(a, st') ← m st; k a st'.
Proof. done. Qed.

Lemma lift_run {A} (r : result A) st : lift r st = (a ← r; Ok (a, st)).
Proof. done. Qed.

Lemma iadd_s_run c v st :
  iadd_s c v st =
    (old ← getitem (st_table_s st) c;
     a ← setitem (st_table_s st) c (old + v)%float;
     Ok (tt, Store (st_table st) a (st_table_new st) (st_random st))).
Proof. done. Qed.

Ltac rsimpl := cbn [mbind result_bind mret result_ret].

(** The inner loop over the neighbours adds the payoffs to one entry of
    [table_s] and touches nothing else. *)
Lemma accumulate_run payoff_mat current_strat X Y i j ns :
  ∀ st z pre post,
    i < X → j < Y →
    st_table_s st = NdArray X Y (pre ++ z :: post) →
    length pre = i * Y + j →
    for_each ns (λ neigh_strat,
      p ← lift (getitem payoff_mat (current_strat, neigh_strat));
      iadd_s (Z.of_nat i, Z.of_nat j) p) st
    = ps ← payoffs payoff_mat current_strat ns;
      Ok (tt, Store (st_table st)
                (NdArray X Y (pre ++ sum_from z ps :: post))
                (st_table_new st) (st_random st)).
Proof.
  induction ns as [|s ns IH]; intros st z pre post Hi Hj Hs Hlen.
  - destruct st; cbn in *; by subst.
  - cbn [for_each]. rewrite !M_bind_run, lift_run.
    unfold payoffs. cbn [rmapM].
    destruct (getitem payoff_mat (current_strat, s)) as [p|e]; [|done].
    rsimpl. rewrite iadd_s_run, Hs.
    rewrite getitem_middle by done. rsimpl.
    rewrite setitem_middle by done. rsimpl.
    erewrite IH; [|done|done|reflexivity|done].
    fold (payoffs payoff_mat current_strat ns).
    destruct (payoffs payoff_mat current_strat ns); done.
Qed.

(** *** Filling an array cell by cell

    Both passes of [iterate] have the same shape: a double loop whose body
    at [(i, j)] overwrites entry [(i, j)] of one array of zeros, possibly
    advancing some state. [put a s] is the store holding [a] for that array
    and [s] for that state; everything else in it is fixed. *)

Lemma rmapS_length {S A B} (f : A → S → result (B * S)) l :
  ∀ s ys s', rmapS f l s = Ok (ys, s') → length ys = length l.
Proof.
  induction l as [|x l IH]; intros s ys s' Hrun; cbn in Hrun.
  - by inversion Hrun.
  - destruct (f x s) as [[y s1]|]; [|done]. cbn in Hrun.
    destruct (rmapS f l s1) as [[ys1 s2]|] eqn:Hl; [|done]. cbn in Hrun.
    inversion Hrun; subst. cbn. f_equal. by eapply IH.
Qed.

Lemma rmapS_ext {St A B} (f f' : A → St → result (B * St)) l s :
  (∀ x s, f x s = f' x s) → rmapS f l s = rmapS f' l s.
Proof.
  intros Hf. revert s. induction l as [|x l IH]; intros s; [done|].
  cbn [rmapS]. rewrite Hf. destruct (f' x s) as [[y s1]|]; [|done].
  rsimpl. by rewrite IH.
Qed.

Section Fill.
Context {V St : Type}.
Variables (zero : V) (put : ndarray V → St → store).
Variables (body : nat → nat → M unit) (F : nat → nat → St → result (V * St)).
Variables (X Y : nat).
Hypothesis body_run : ∀ i j pre post s,
  i < X → j < Y → length pre = i * Y + j →
  body i j (put (NdArray X Y (pre ++ zero :: post)) s)
  = '(v, s') ← F i j s; Ok (tt, put (NdArray X Y (pre ++ v :: post)) s').

Lemma fill_row i m :
  ∀ j0 pre post s,
    i < X → j0 + m ≤ Y → length pre = i * Y + j0 →
    for_each (seq j0 m) (body i)
      (put (NdArray X Y (pre ++ replicate m zero ++ post)) s)
    = '(vs, s') ← rmapS (F i) (seq j0 m) s;
      Ok (tt, put (NdArray X Y (pre ++ vs ++ post)) s').
Proof using body_run.
  induction m as [|m IH]; intros j0 pre post s Hi Hj Hlen; [done|].
  cbn [seq for_each rmapS replicate app]. rewrite M_bind_run.
  rewrite body_run by (done || lia).
  destruct (F i j0 s) as [[v s1]|]; [|done]. rsimpl.
  replace (pre ++ v :: replicate m zero ++ post)
    with ((pre ++ [v]) ++ replicate m zero ++ post) by by rewrite <-app_assoc.
  rewrite IH by (rewrite ?length_app; cbn; lia).
  destruct (rmapS (F i) (seq (S j0) m) s1) as [[vs s2]|]; [|done]. rsimpl.
  by rewrite <-app_assoc.
Qed.

Lemma fill_rows n :
  ∀ i0 pre s,
    i0 + n ≤ X → length pre = i0 * Y →
    for_each (seq i0 n) (λ i, for_range Y (body i))
      (put (NdArray X Y (pre ++ replicate (n * Y) zero)) s)
    = '(rows, s') ← rmapS (λ i, rmapS (F i) (seq 0 Y)) (seq i0 n) s;
      Ok (tt, put (NdArray X Y (pre ++ mjoin rows)) s').
Proof using body_run.
  induction n as [|n IH]; intros i0 pre s Hi Hlen.
  - cbn. by rewrite app_nil_r.
  - cbn [seq for_each rmapS]. rewrite M_bind_run.
    change (for_range Y (body i0)) with (for_each (seq 0 Y) (body i0)).
    replace (S n * Y) with (Y + n * Y) by lia. rewrite replicate_add.
    rewrite fill_row by lia.
    destruct (rmapS (F i0) (seq 0 Y) s) as [[vs s1]|] eqn:Hrow; [|done]. rsimpl.
    apply rmapS_length in Hrow. rewrite length_seq in Hrow.
    rewrite app_assoc.
    rewrite IH by (rewrite ?length_app; lia).
    destruct (rmapS _ (seq (S i0) n) s1) as [[rows s2]|]; [|done]. rsimpl.
    cbn [mjoin list_join]. by rewrite <-app_assoc.
Qed.

Lemma fill_grid s :
  for_range X (λ i, for_range Y (body i)) (put (np_zeros zero X Y) s)
  = '(rows, s') ← rmapS (λ i, rmapS (F i) (seq 0 Y)) (seq 0 X) s;
    Ok (tt, put (NdArray X Y (mjoin rows)) s').
Proof using body_run.
  unfold for_range at 1, np_zeros.
  exact (fill_rows X 0 [] s ltac:(lia) ltac:(done)).
Qed.

End Fill.

Lemma rmapS_pure {A B St} (f : A → result B) l (s : St) :
  rmapS (λ x s, y ← f x; Ok (y, s)) l s = (ys ← rmapM f l; Ok (ys, s)).
Proof.
  induction l as [|x l IH]; [done|]. cbn [rmapS rmapM].
  destruct (f x) as [y|]; [|done]. rsimpl. rewrite IH.
  by destruct (rmapM f l).
Qed.

(** *** The first pass *)

Lemma fitness_cell_run table table_new g payoff_mat nf i j pre post :
  let X := shape0 table in
  let Y := shape1 table in
  i < X → j < Y → length pre = i * Y + j →
  fitness_cell payoff_mat nf X Y i j
    (Store table (NdArray X Y (pre ++ 0%float :: post)) table_new g)
  = v ← cell_fitness table payoff_mat nf i j;
    Ok (tt, Store table (NdArray X Y (pre ++ v :: post)) table_new g).
Proof.
  intros X Y Hi Hj Hlen. unfold fitness_cell, cell_fitness. fold X Y.
  destruct (nf _ _ _ _) as [current neighs].
  rewrite M_bind_run, lift_run.
  destruct (getitem1 current 0) as [c|]; [|done]. rsimpl.
  rewrite M_bind_run. unfold load_table at 1. cbn [st_table].
  destruct (getitem table c) as [current_strat|]; [|done]. rsimpl.
  rewrite M_bind_run. unfold take_table at 1. cbn [st_table].
  destruct (take_coords table neighs) as [neighs_strat|]; [|done]. rsimpl.
  erewrite accumulate_run; [|done|done|reflexivity|done].
  by destruct (payoffs payoff_mat current_strat neighs_strat).
Qed.

Lemma fitness_pass_run table g payoff_mat nf :
  fitness_pass payoff_mat nf (shape0 table) (shape1 table) (enter table g)
  = fit ← fitness_field table payoff_mat nf;
    Ok (tt, Store table fit (np_zeros 0%Z (shape0 table) (shape1 table)) g).
Proof.
  unfold fitness_pass, enter, fitness_field.
  set (X := shape0 table). set (Y := shape1 table).
  set (put := λ (a : ndarray float) (_ : unit), Store table a (np_zeros 0%Z X Y) g).
  change (Store table (np_zeros 0%float X Y) (np_zeros 0%Z X Y) g)
    with (put (np_zeros 0%float X Y) tt).
  rewrite (fill_grid 0%float put _
    (λ i j s, v ← cell_fitness table payoff_mat nf i j; Ok (v, s))).
  - rewrite (rmapS_ext _ (λ i s, ys ← rmapM (cell_fitness table payoff_mat nf i) (seq 0 Y); Ok (ys, s)))
      by (intros; apply rmapS_pure).
    rewrite rmapS_pure.
    by destruct (rmapM _ (seq 0 X)).
  - intros i j pre post [] Hi Hj Hlen. unfold put. subst X Y.
    rewrite fitness_cell_run by done.
    by destruct (cell_fitness table payoff_mat nf i j).
Qed.

(** *** The second pass *)

Lemma update_cell_run table fit g nf i j pre z post :
  let X := shape0 table in
  let Y := shape1 table in
  i < X → j < Y → length pre = i * Y + j →
  update_cell nf X Y i j (Store table fit (NdArray X Y (pre ++ z :: post)) g)
  = '(v, g') ← cell_choice table fit nf i j g;
    Ok (tt, Store table fit (NdArray X Y (pre ++ v :: post)) g').
Proof.
  intros X Y Hi Hj Hlen. unfold update_cell, cell_choice. fold X Y.
  destruct (nf _ _ _ _) as [current neighs]. cbv zeta.
  rewrite M_bind_run. unfold take_s at 1. cbn [st_table_s].
  destruct (take_coords fit (current ++ neighs)) as [neighs_s|]; [|done]. rsimpl.
  rewrite M_bind_run, lift_run.
  destruct (np_max neighs_s) as [max_val|]; [|done]. rsimpl.
  fold (tie_set neighs_s max_val).
  rewrite M_bind_run. unfold rand_permutation at 1, pick.
  cbn [st_table st_table_s st_table_new st_random].
  destruct (permutation _ g) as [perm g']. rsimpl.
  rewrite M_bind_run, lift_run.
  destruct (getitem1 perm 0) as [rnd_idx|]; [|done]. rsimpl.
  rewrite M_bind_run, lift_run.
  destruct (getitem1 (tie_set neighs_s max_val) _) as [max_idx_chosen|]; [|done].
  rsimpl. rewrite M_bind_run, lift_run.
  destruct (getitem1 (current ++ neighs) _) as [local_max_s_coords|]; [|done].
  rsimpl. rewrite M_bind_run. unfold load_table at 1. cbn [st_table].
  destruct (getitem table local_max_s_coords) as [v|]; [|done]. rsimpl.
  unfold store_new. cbn [st_table st_table_s st_table_new st_random].
  by rewrite setitem_middle by done.
Qed.

Lemma update_pass_run table fit g nf :
  update_pass nf (shape0 table) (shape1 table)
    (Store table fit (np_zeros 0%Z (shape0 table) (shape1 table)) g)
  = '(table_new, g') ← update_rule table fit nf g;
    Ok (tt, Store table fit table_new g').
Proof.
  unfold update_pass, update_rule.
  rewrite (fill_grid 0%Z (Store table fit) _ (cell_choice table fit nf)).
  - by destruct (rmapS _ (seq 0 (shape0 table)) g) as [[rows g']|].
  - intros i j pre post g' Hi Hj Hlen. by rewrite update_cell_run by done.
Qed.

(** The two passes, run from the entry store, end in the store that holds
    the untouched [table], the fitness field of [table], the table chosen
    from both, and the advanced generator. *)
Lemma iterate_body_run table payoff_mat nf g :
  iterate_body payoff_mat nf (enter table g)
  = fit ← fitness_field table payoff_mat nf;
    '(table_new, g') ← update_rule table fit nf g;
    Ok (tt, Store table fit table_new g').
Proof.
  unfold iterate_body. cbn [enter st_table]. rewrite M_bind_run.
  rewrite fitness_pass_run.
  destruct (fitness_field table payoff_mat nf) as [fit|]; [|done]. rsimpl.
  by rewrite update_pass_run.
Qed.

Lemma iterate_run table payoff_mat nf g :
  iterate table payoff_mat nf g
  = fit ← fitness_field table payoff_mat nf; update_rule table fit nf g.
Proof.
  unfold iterate. rewrite iterate_body_run.
  destruct (fitness_field table payoff_mat nf) as [fit|]; [|done]. rsimpl.
  by destruct (update_rule table fit nf g) as [[table_new g']|].
Qed.

(** *** Reading the result cell by cell *)

Lemma rmapM_Forall2 {A B} (f : A → result B) l ys :
  rmapM f l = Ok ys → Forall2 (λ x y, f x = Ok y) l ys.
Proof.
  revert ys. induction l as [|x l IH]; intros ys Hrun; cbn in Hrun.
  - inversion Hrun. constructor.
  - destruct (f x) as [y|] eqn:Hx; [|done]. cbn in Hrun.
    destruct (rmapM f l) as [ys'|]; [|done]. cbn in Hrun.
    inversion Hrun; subst. constructor; auto.
Qed.

Lemma rmapM_length {A B} (f : A → result B) l ys :
  rmapM f l = Ok ys → length ys = length l.
Proof. intros Hrun. symmetry. by eapply Forall2_length, rmapM_Forall2. Qed.

Lemma rmapS_Forall2 {St A B} (f : A → St → result (B * St)) l :
  ∀ s ys s', rmapS f l s = Ok (ys, s') →
    Forall2 (λ x y, ∃ s1 s2, f x s1 = Ok (y, s2)) l ys.
Proof.
  induction l as [|x l IH]; intros s ys s' Hrun; cbn in Hrun.
  - inversion Hrun. constructor.
  - destruct (f x s) as [[y s1]|] eqn:Hx; [|done]. cbn in Hrun.
    destruct (rmapS f l s1) as [[ys1 s2]|] eqn:Hl; [|done]. cbn in Hrun.
    inversion Hrun; subst. constructor; eauto.
Qed.

(** A grid built row by row: entry [i * Y + j] of the buffer is the value
    computed for cell [(i, j)], and there is nothing else in the buffer. *)
Lemma grid_rows {V} (P : nat → nat → V → Prop) X Y (rows : list (list V)) :
  Forall2 (λ i row, Forall2 (λ j v, P i j v) (seq 0 Y) row) (seq 0 X) rows →
  length (mjoin rows) = X * Y ∧
  (∀ i j, i < X → j < Y → ∃ v, mjoin rows !! (i * Y + j) = Some v ∧ P i j v) ∧
  (∀ v, v ∈ mjoin rows → ∃ i j, i < X ∧ j < Y ∧ P i j v).
Proof.
  intros Hrows.
  assert (Hlen : Forall (λ row, length row = Y) rows).
  { apply Forall_forall. intros row Hin.
    apply list_elem_of_lookup in Hin as [i Hi].
    destruct (Forall2_lookup_r _ _ _ _ _ Hrows Hi) as (i' & _ & Hrow).
    apply Forall2_length in Hrow. by rewrite length_seq in Hrow. }
  split_and!.
  - rewrite length_join, (sum_list_fmap_same Y) by done.
    apply Forall2_length in Hrows. rewrite length_seq in Hrows. by rewrite <-Hrows.
  - intros i j Hi Hj.
    destruct (Forall2_lookup_l _ _ _ i i Hrows) as (row & Hrow & Hcells).
    { by apply lookup_seq_lt. }
    destruct (Forall2_lookup_l _ _ _ j j Hcells) as (v & Hv & HP).
    { by apply lookup_seq_lt. }
    exists v. split; [|done].
    apply (join_lookup_Some_same_length' Y); eauto.
  - intros v Hin. apply list_elem_of_join in Hin as (row & Hv & Hrow).
    apply list_elem_of_lookup in Hrow as [i Hi], Hv as [j Hj].
    destruct (Forall2_lookup_r _ _ _ _ _ Hrows Hi) as (i' & Hi' & Hcells).
    destruct (Forall2_lookup_r _ _ _ _ _ Hcells Hj) as (j' & Hj' & HP).
    apply lookup_seq in Hi' as [-> ?], Hj' as [-> ?]. eauto.
Qed.

Lemma getitem1_elem_of {A} (l : list A) k x : getitem1 l k = Ok x → x ∈ l.
Proof.
  unfold getitem1. destruct (np_index _ _) as [n|]; [|done]. cbn.
  destruct (l !! n) eqn:Hn; [|done]. intros [= <-].
  by eapply list_elem_of_lookup_2.
Qed.

Lemma getitem_elem_of {A} (a : ndarray A) c x : getitem a c = Ok x → x ∈ buffer a.
Proof.
  unfold getitem. destruct (np_index _ c.1) as [r|]; [|done]. cbn.
  destruct (np_index _ c.2) as [k|]; [|done]. cbn.
  destruct (buffer a !! _) eqn:Hn; [|done]. intros [= <-].
  by eapply list_elem_of_lookup_2.
Qed.

Lemma getitem_grid {A} X Y (l : list A) i j v :
  i < X → j < Y → l !! (i * Y + j) = Some v →
  getitem (NdArray X Y l) (Z.of_nat i, Z.of_nat j) = Ok v.
Proof.
  intros Hi Hj Hv. rewrite getitem_nat by done. cbn [buffer shape1].
  by rewrite Hv.
Qed.

(** The strategy chosen for a cell is read from [table] at a coordinate of
    [current ++ neighs]. *)
Lemma cell_choice_source table fit nf i j g v g' :
  cell_choice table fit nf i j g = Ok (v, g') →
  ∃ c, c ∈ (nf (Z.of_nat i) (Z.of_nat j) (Z.of_nat (shape0 table))
                (Z.of_nat (shape1 table))).1
           ++ (nf (Z.of_nat i) (Z.of_nat j) (Z.of_nat (shape0 table))
                 (Z.of_nat (shape1 table))).2
       ∧ getitem table c = Ok v.
Proof.
  unfold cell_choice. destruct (nf _ _ _ _) as [current neighs]. cbv zeta.
  destruct (take_coords fit _) as [neighs_s|]; [|done]. rsimpl.
  destruct (np_max neighs_s) as [max_val|]; [|done]. rsimpl.
  destruct (pick _ g) as [[k g1]|]; [|done]. rsimpl.
  destruct (getitem1 (current ++ neighs) _) as [c|] eqn:Hc; [|done]. rsimpl.
  destruct (getitem table c) as [v'|] eqn:Hv; [|done]. rsimpl.
  intros [= <- <-]. exists c. split; [|done].
  by eapply getitem1_elem_of.
Qed.

(** The table returned by [update_rule], cell by cell. *)
Lemma update_rule_cells table fit nf g table_new g' :
  update_rule table fit nf g = Ok (table_new, g') →
  shape0 table_new = shape0 table ∧ shape1 table_new = shape1 table ∧
  well_formed table_new ∧
  (∀ i j, i < shape0 table → j < shape1 table →
     ∃ v g1 g2, getitem table_new (Z.of_nat i, Z.of_nat j) = Ok v ∧
                cell_choice table fit nf i j g1 = Ok (v, g2)) ∧
  (∀ v, v ∈ buffer table_new →
     ∃ i j g1 g2, i < shape0 table ∧ j < shape1 table ∧
                  cell_choice table fit nf i j g1 = Ok (v, g2)).
Proof.
  unfold update_rule.
  destruct (rmapS _ _ g) as [[rows g1]|] eqn:Hrows; [|done]. rsimpl.
  intros [= <- <-]. cbn [shape0 shape1 buffer]. unfold well_formed.
  cbn [shape0 shape1 buffer].
  apply rmapS_Forall2 in Hrows.
  assert (Hgrid : Forall2 (λ i row, Forall2 (λ j v,
            ∃ g1 g2, cell_choice table fit nf i j g1 = Ok (v, g2))
            (seq 0 (shape1 table)) row) (seq 0 (shape0 table)) rows).
  { eapply Forall2_impl; [exact Hrows|]. intros i row (s1 & s2 & Hrow).
    by apply rmapS_Forall2 in Hrow. }
  apply grid_rows in Hgrid as (Hlen & Hcell & Hall).
  split_and!; [done|done|done| |].
  - intros i j Hi Hj. destruct (Hcell i j Hi Hj) as (v & Hv & g1' & g2 & Hc).
    exists v, g1', g2. split; [|done]. by apply getitem_grid.
  - intros v Hin. destruct (Hall v Hin) as (i & j & ? & ? & g1' & g2 & ?).
    by exists i, j, g1', g2.
Qed.

(** The fitness field, cell by cell. *)
Lemma fitness_field_cells table payoff_mat nf fit :
  fitness_field table payoff_mat nf = Ok fit →
  shape0 fit = shape0 table ∧ shape1 fit = shape1 table ∧ well_formed fit ∧
  (∀ i j, i < shape0 table → j < shape1 table →
     ∃ v, getitem fit (Z.of_nat i, Z.of_nat j) = Ok v ∧
          cell_fitness table payoff_mat nf i j = Ok v).
Proof.
  unfold fitness_field.
  destruct (rmapM _ _) as [rows|] eqn:Hrows; [|done]. rsimpl.
  intros [= <-]. cbn [shape0 shape1 buffer]. unfold well_formed.
  cbn [shape0 shape1 buffer].
  apply rmapM_Forall2 in Hrows.
  assert (Hgrid : Forall2 (λ i row, Forall2 (λ j v,
            cell_fitness table payoff_mat nf i j = Ok v)
            (seq 0 (shape1 table)) row) (seq 0 (shape0 table)) rows).
  { eapply Forall2_impl; [exact Hrows|]. intros i row Hrow.
    by apply rmapM_Forall2 in Hrow. }
  apply grid_rows in Hgrid as (Hlen & Hcell & _).
  split_and!; [done|done|done|].
  intros i j Hi Hj. destruct (Hcell i j Hi Hj) as (v & Hv & Hc).
  exists v. split; [|done]. by apply getitem_grid.
Qed.

Lemma np_mod_small a X : (0 ≤ a < X)%Z → np_mod a X = a.
Proof.
  intros Ha. unfold np_mod. case_decide; [lia|]. by apply Z.mod_small.
Qed.

(** On a torus with both sides at least two, no wrapped neighbour of a cell
    of the grid is the cell itself. *)
Lemma self_not_neighbour nf x y X Y :
  nf = moore_neighbourhood ∨ nf = von_neumann_neighbourhood →
  (2 ≤ X)%Z → (2 ≤ Y)%Z → (0 ≤ x < X)%Z → (0 ≤ y < Y)%Z →
  (x, y) ∉ (nf x y X Y).2.
Proof.
  intros Hnf HX HY Hx Hy.
  assert (np_mod (x - 1) X ≠ x ∧ np_mod (x + 1) X ≠ x) as [Hx1 Hx2].
  { rewrite <-(np_mod_small x X) at 2 4 by done.
    split; [|apply not_eq_sym]; apply np_mod_apart; lia. }
  assert (np_mod (y - 1) Y ≠ y ∧ np_mod (y + 1) Y ≠ y) as [Hy1 Hy2].
  { rewrite <-(np_mod_small y Y) at 2 4 by done.
    split; [|apply not_eq_sym]; apply np_mod_apart; lia. }
  destruct Hnf as [-> | ->];
    unfold moore_neighbourhood, von_neumann_neighbourhood, wrap;
    cbn [snd fst fmap list_fmap];
    rewrite ?not_elem_of_cons; split_and!;
    try apply not_elem_of_nil; congruence.
Qed.

End IterateProofs.

(** ** What a pass leaves alone *)

Section Frame.
Context `{NumpyRandom}.

Lemma preserves_ret {A B} (proj : store → B) (a : A) : preserves proj (mret a).
Proof. by intros st a' st' [= <- <-]. Qed.

Lemma preserves_bind {A A' B} (proj : store → B) (m : M A) (k : A → M A') :
  preserves proj m → (∀ a, preserves proj (k a)) → preserves proj (m ≫= k).
Proof.
  intros Hm Hk st a' st' Hrun. rewrite M_bind_run in Hrun.
  destruct (m st) as [[a st1]|] eqn:Hst; [|done].
  cbn [mbind result_bind] in Hrun.
  rewrite (Hk a st1 a' st' Hrun). by eapply Hm.
Qed.

Lemma preserves_lift {A B} (proj : store → B) (r : result A) :
  preserves proj (lift r).
Proof. intros st a st'. unfold lift. destruct r; [|done]. by intros [= <- <-]. Qed.

Lemma preserves_for_each {A B} (proj : store → B) (l : list A) body :
  (∀ x, preserves proj (body x)) → preserves proj (for_each l body).
Proof.
  intros Hbody. induction l as [|x l IH]; cbn [for_each].
  - apply preserves_ret.
  - apply preserves_bind; [apply Hbody|]. by intros _.
Qed.

Lemma preserves_load_table {B} (proj : store → B) c :
  preserves proj (load_table c).
Proof.
  intros st a st'. unfold load_table.
  destruct (getitem _ c); [|done]. by intros [= <- <-].
Qed.

Lemma preserves_take_table {B} (proj : store → B) idxs :
  preserves proj (take_table idxs).
Proof.
  intros st a st'. unfold take_table.
  destruct (take_coords _ idxs); [|done]. by intros [= <- <-].
Qed.

Lemma preserves_take_s {B} (proj : store → B) idxs :
  preserves proj (take_s idxs).
Proof.
  intros st a st'. unfold take_s.
  destruct (take_coords _ idxs); [|done]. by intros [= <- <-].
Qed.

Lemma iadd_s_table c v : preserves st_table (iadd_s c v).
Proof.
  intros st a st'. rewrite iadd_s_run.
  destruct (getitem _ c); [|done]. cbn [mbind result_bind].
  destruct (setitem _ c _); [|done]. by intros [= <- <-].
Qed.

Lemma store_new_table c v : preserves st_table (store_new c v).
Proof.
  intros st a st'. unfold store_new.
  destruct (setitem _ c v); [|done]. by intros [= <- <-].
Qed.

Lemma store_new_table_s c v : preserves st_table_s (store_new c v).
Proof.
  intros st a st'. unfold store_new.
  destruct (setitem _ c v); [|done]. by intros [= <- <-].
Qed.

Lemma rand_permutation_frame {B} (proj : store → B) n :
  (∀ t s new g g', proj (Store t s new g) = proj (Store t s new g')) →
  preserves proj (rand_permutation n).
Proof.
  intros Hproj st a st'. unfold rand_permutation.
  destruct (permutation n (st_random st)) as [p g]. intros [= <- <-].
  destruct st. apply Hproj.
Qed.

(** The first pass writes [table_s] only. *)
Lemma fitness_pass_table payoff_mat nf X Y :
  preserves st_table (fitness_pass payoff_mat nf X Y).
Proof.
  apply preserves_for_each. intros i. apply preserves_for_each. intros j.
  unfold fitness_cell. destruct (nf _ _ _ _) as [current neighs].
  apply preserves_bind; [apply preserves_lift|]. intros c.
  apply preserves_bind; [apply preserves_load_table|]. intros current_strat.
  apply preserves_bind; [apply preserves_take_table|]. intros neighs_strat.
  apply preserves_for_each. intros s.
  apply preserves_bind; [apply preserves_lift|]. intros p.
  apply iadd_s_table.
Qed.

(** The second pass writes [table_new] and draws from the generator; it
    changes neither [table] nor [table_s]. *)
Lemma update_pass_frame {B} (proj : store → B) nf X Y :
  (∀ c v, preserves proj (store_new c v)) →
  (∀ t s new g g', proj (Store t s new g) = proj (Store t s new g')) →
  preserves proj (update_pass nf X Y).
Proof.
  intros Hnew Hproj.
  apply preserves_for_each. intros i. apply preserves_for_each. intros j.
  unfold update_cell. destruct (nf _ _ _ _) as [current neighs]. cbv zeta.
  apply preserves_bind; [apply preserves_take_s|]. intros neighs_s.
  apply preserves_bind; [apply preserves_lift|]. intros max_val.
  apply preserves_bind; [by apply rand_permutation_frame|]. intros perm.
  apply preserves_bind; [apply preserves_lift|]. intros rnd_idx.
  apply preserves_bind; [apply preserves_lift|]. intros max_idx_chosen.
  apply preserves_bind; [apply preserves_lift|]. intros local_max_s_coords.
  apply preserves_bind; [apply preserves_load_table|]. intros v.
  apply Hnew.
Qed.

Lemma iterate_body_table payoff_mat nf :
  preserves st_table (iterate_body payoff_mat nf).
Proof.
  intros st a st'. unfold iterate_body.
  apply preserves_bind; [apply fitness_pass_table|].
  intros _. apply update_pass_frame; [apply store_new_table|done].
Qed.

End Frame.

(** ** The generation step *)

(** C1: for every grid, payoff matrix and neighbourhood function, the two
    passes of [iterate], started on the caller's [table] and two fresh arrays
    of zeros, end with [table] as it was, with [table_s] equal to the
    fitness field computed from [table] alone, and with [table_new] equal to
    the table chosen from [table] and that finished fitness field; the
    value returned is this [table_new], and every failure of the step is a
    failure of these two functions of the snapshot. Whatever the store they
    start from, the two passes never write [table], and the second pass
    never writes [table_s]. *)
Theorem iterate_snapshot `{NumpyRandom} table payoff_mat nf g :
  iterate_body payoff_mat nf (enter table g)
  = (fit ← fitness_field table payoff_mat nf;
     '(table_new, g') ← update_rule table fit nf g;
     Ok (tt, Store table fit table_new g'))
  ∧ iterate table payoff_mat nf g
    = (fit ← fitness_field table payoff_mat nf; update_rule table fit nf g)
  ∧ preserves st_table (iterate_body payoff_mat nf)
  ∧ (∀ X Y, preserves st_table_s (update_pass nf X Y)).
Proof.
  split_and!.
  - apply iterate_body_run.
  - apply iterate_run.
  - apply iterate_body_table.
  - intros X Y. apply update_pass_frame; [apply store_new_table_s|done].
Qed.

(** C7: when [iterate] returns [table_new], every cell [(i, j)] of it holds
    the strategy that [table] holds at some coordinate of the cell's
    neighbourhood-plus-self list; hence [table_new] has the shape of
    [table], every label of [table_new] occurs in [table], and labels that
    were within [[0, S)] stay within [[0, S)]. *)
Theorem imitation_within_neighbourhood `{NumpyRandom}
    table payoff_mat nf g table_new g' :
  iterate table payoff_mat nf g = Ok (table_new, g') →
  (∀ i j, i < shape0 table → j < shape1 table →
     let n := nf (Z.of_nat i) (Z.of_nat j)
                (Z.of_nat (shape0 table)) (Z.of_nat (shape1 table)) in
     ∃ c v, c ∈ n.1 ++ n.2 ∧ getitem table c = Ok v ∧
            getitem table_new (Z.of_nat i, Z.of_nat j) = Ok v) ∧
  shape0 table_new = shape0 table ∧ shape1 table_new = shape1 table ∧
  well_formed table_new ∧
  (∀ v, v ∈ buffer table_new → v ∈ buffer table) ∧
  (∀ S, Forall (λ v, 0 ≤ v < S)%Z (buffer table) →
        Forall (λ v, 0 ≤ v < S)%Z (buffer table_new)).
Proof.
  rewrite iterate_run.
  destruct (fitness_field table payoff_mat nf) as [fit|]; [|done].
  cbn [mbind result_bind]. intros Hrule.
  apply update_rule_cells in Hrule as (HX & HY & Hwf & Hcell & Hall).
  assert (Hsub : ∀ v, v ∈ buffer table_new → v ∈ buffer table).
  { intros v Hin. destruct (Hall v Hin) as (i & j & g1 & g2 & _ & _ & Hc).
    apply cell_choice_source in Hc as (c & _ & Hget).
    by eapply getitem_elem_of. }
  split_and!; [|done|done|done|done|].
  - intros i j Hi Hj. destruct (Hcell i j Hi Hj) as (v & g1 & g2 & Hget & Hc).
    apply cell_choice_source in Hc as (c & Hin & Hsrc). by exists c, v.
  - intros S HS. apply Forall_forall. intros v Hin.
    rewrite Forall_forall in HS. auto.
Qed.

(** C8 (as amended): after the fitness pass, the entry of [table_s] at each
    cell [(i, j)] is the left-to-right sum, starting from zero, of
    [payoff_mat[current_strat, s]] over the strategies [s] that [table]
    holds at the coordinates of [neighs], one term per returned coordinate
    and none for [current], which only supplies [current_strat]. For the
    two neighbourhoods of the notebook [current] is the cell itself and the
    sum has 8 (Moore) or 4 (Von Neumann) terms; the cell's own position is
    not among the returned coordinates, so that its payoff against itself
    is not in the sum, when both sides of the grid are at least 2. *)
Theorem fitness_sums_neighbour_payoffs `{NumpyRandom} table payoff_mat nf g st :
  fitness_pass payoff_mat nf (shape0 table) (shape1 table) (enter table g)
    = Ok (tt, st) →
  ∀ i j, i < shape0 table → j < shape1 table →
    let X := Z.of_nat (shape0 table) in
    let Y := Z.of_nat (shape1 table) in
    ∃ current neighs c current_strat neighs_strat ps,
      nf (Z.of_nat i) (Z.of_nat j) X Y = (current, neighs) ∧
      getitem1 current 0 = Ok c ∧
      getitem table c = Ok current_strat ∧
      take_coords table neighs = Ok neighs_strat ∧
      payoffs payoff_mat current_strat neighs_strat = Ok ps ∧
      length ps = length neighs ∧
      getitem (st_table_s st) (Z.of_nat i, Z.of_nat j) = Ok (sum_from 0 ps) ∧
      (nf = moore_neighbourhood →
         c = (Z.of_nat i, Z.of_nat j) ∧ length ps = 8) ∧
      (nf = von_neumann_neighbourhood →
         c = (Z.of_nat i, Z.of_nat j) ∧ length ps = 4) ∧
      (nf = moore_neighbourhood ∨ nf = von_neumann_neighbourhood →
         (2 ≤ X)%Z → (2 ≤ Y)%Z → (Z.of_nat i, Z.of_nat j) ∉ neighs).
Proof.
  rewrite fitness_pass_run.
  destruct (fitness_field table payoff_mat nf) as [fit|] eqn:Hfit; [|done].
  cbn [mbind result_bind]. intros [= <-] i j Hi Hj. cbv zeta. cbn [st_table_s].
  set (X := Z.of_nat (shape0 table)). set (Y := Z.of_nat (shape1 table)).
  apply fitness_field_cells in Hfit as (_ & _ & _ & Hcell).
  destruct (Hcell i j Hi Hj) as (v & Hget & Hc).
  unfold cell_fitness in Hc. fold X Y in Hc.
  destruct (nf _ _ X Y) as [current neighs] eqn:Hnf.
  destruct (getitem1 current 0) as [c|] eqn:Hcur; [|done].
  cbn [mbind result_bind] in Hc.
  destruct (getitem table c) as [current_strat|] eqn:Hstrat; [|done].
  cbn [mbind result_bind] in Hc.
  destruct (take_coords table neighs) as [neighs_strat|] eqn:Hns; [|done].
  cbn [mbind result_bind] in Hc.
  destruct (payoffs payoff_mat current_strat neighs_strat) as [ps|] eqn:Hps; [|done].
  cbn [mbind result_bind] in Hc. injection Hc as <-.
  assert (Hlen : length ps = length neighs).
  { apply rmapM_length in Hps, Hns. congruence. }
  exists current, neighs, c, current_strat, neighs_strat, ps.
  split_and!; try done.
  - intros ->. injection Hnf as <- <-. by injection Hcur as <-.
  - intros ->. injection Hnf as <- <-. by injection Hcur as <-.
  - intros Hor HX HY.
    pose proof (self_not_neighbour nf (Z.of_nat i) (Z.of_nat j) X Y Hor HX HY) as Hself.
    rewrite Hnf in Hself. apply Hself; unfold X, Y; lia.
Qed.

Lemma imitation_within_neighbourhood_witness :
  @iterate counter_random sample_table (payoff_hawk_dove 1.5)
      moore_neighbourhood 0
    = Ok (NdArray 3 3 (replicate 9 0%Z), 9) ∧
  ∀ v, v ∈ replicate 9 0%Z → v ∈ buffer sample_table.
Proof.
  assert (Hrun : @iterate counter_random sample_table (payoff_hawk_dove 1.5)
                   moore_neighbourhood 0
                 = Ok (NdArray 3 3 (replicate 9 0%Z), 9))
    by (vm_compute; reflexivity).
  split; [exact Hrun|].
  pose proof (@imitation_within_neighbourhood counter_random _ _ _ _ _ _ Hrun)
    as (_ & _ & _ & _ & Hsub & _).
  exact Hsub.
Defined.

Lemma fitness_sums_neighbour_payoffs_witness :
  ∃ ps, length ps = 8 ∧
    getitem (NdArray 3 3 [6; 3; 6; 3; 3; 6; 6; 6; 3]%float) (0, 0)%Z
      = Ok (sum_from 0 ps).
Proof.
  assert (Hrun :
    @fitness_pass counter_random (payoff_hawk_dove 1.5) moore_neighbourhood
      (shape0 sample_table) (shape1 sample_table)
      (@enter counter_random sample_table 0)
    = Ok (tt, @Store counter_random sample_table
                (NdArray 3 3 [6; 3; 6; 3; 3; 6; 6; 6; 3]%float)
                (np_zeros 0%Z 3 3) 0))
    by (vm_compute; reflexivity).
  destruct (@fitness_sums_neighbour_payoffs counter_random _ _ _ _ _ Hrun 0 0
              ltac:(cbn; lia) ltac:(cbn; lia))
    as (current & neighs & c & cs & ns & ps & _ & _ & _ & _ & _ & _ & Hget & Hm & _).
  exists ps. split; [by apply Hm | exact Hget].
Defined.

(** C8 (as stated) fails on a one by one torus: the eight Moore neighbours
    of the only cell are all the cell itself, and its fitness is eight times
    its payoff against itself. *)
Lemma unit_torus_self_payoff :
  (moore_neighbourhood 0 0 1 1)%Z.2 = replicate 8 (0, 0)%Z ∧
  fitness_field (NdArray 1 1 [0%Z]) (payoff_hawk_dove 1.5) moore_neighbourhood
    = Ok (NdArray 1 1 [sum_from 0 (replicate 8 (1 - 1.5)%float)]).
Proof. split; vm_compute; reflexivity. Qed.

(** ** Comparisons of binary64 values *)

Lemma SFcompare_finite_refl s m e :
  SFcompare (S754_finite s m e) (S754_finite s m e) = Some Eq.
Proof.
  cbn. rewrite Z.compare_refl, Pos.compare_cont_refl. by destruct s.
Qed.

Lemma is_nan_SF x : PrimFloat.is_nan x = true ↔ Prim2SF x = S754_nan.
Proof.
  unfold PrimFloat.is_nan. rewrite FloatAxioms.eqb_spec. unfold SFeqb.
  destruct (Prim2SF x) as [[]|[]| |s m e]; try (cbn; split; done).
  rewrite SFcompare_finite_refl. cbn. split; done.
Qed.

Lemma eqb_not_nan x : PrimFloat.is_nan x = false → PrimFloat.eqb x x = true.
Proof. unfold PrimFloat.is_nan. by destruct (PrimFloat.eqb x x). Qed.

Lemma eqb_nan_r x y : PrimFloat.is_nan y = true → PrimFloat.eqb x y = false.
Proof.
  intros Hy%is_nan_SF. rewrite FloatAxioms.eqb_spec, Hy.
  by destruct (Prim2SF x) as [[]|[]| |[] ? ?].
Qed.

Lemma eqb_nan_l x y : PrimFloat.is_nan x = true → PrimFloat.eqb x y = false.
Proof. intros Hx%is_nan_SF. by rewrite FloatAxioms.eqb_spec, Hx. Qed.

Lemma leb_nan_r x y : PrimFloat.is_nan y = true → PrimFloat.leb x y = false.
Proof.
  intros Hy%is_nan_SF. rewrite FloatAxioms.leb_spec, Hy.
  by destruct (Prim2SF x) as [[]|[]| |[] ? ?].
Qed.

Lemma leb_nan_l x y : PrimFloat.is_nan x = true → PrimFloat.leb x y = false.
Proof. intros Hx%is_nan_SF. by rewrite FloatAxioms.leb_spec, Hx. Qed.

Lemma sub_nan_l x y : PrimFloat.is_nan x = true → PrimFloat.is_nan (x - y) = true.
Proof.
  intros Hx%is_nan_SF. apply is_nan_SF.
  by rewrite FloatAxioms.sub_spec, Hx.
Qed.

Lemma abs_nan x : PrimFloat.is_nan x = true → PrimFloat.is_nan (PrimFloat.abs x) = true.
Proof.
  intros Hx%is_nan_SF. apply is_nan_SF.
  by rewrite FloatAxioms.abs_spec, Hx.
Qed.

(** *** Sign of a rounded result

    Rounding a non-negative mantissa gives a zero, a positive number or
    plus infinity, never a NaN or a negative number. *)

Lemma shr_1_nonneg mrs : (0 ≤ shr_m mrs)%Z → (0 ≤ shr_m (shr_1 mrs))%Z.
Proof. destruct mrs as [[|[p|p|]|[p|p|]] r s]; cbn; lia. Qed.

Lemma iter_pos_shr_1_nonneg p :
  ∀ mrs, (0 ≤ shr_m mrs)%Z → (0 ≤ shr_m (SpecFloat.iter_pos shr_1 p mrs))%Z.
Proof.
  induction p as [p IH|p IH|]; intros mrs Hm; cbn [SpecFloat.iter_pos].
  - by apply IH, IH, shr_1_nonneg.
  - by apply IH, IH.
  - by apply shr_1_nonneg.
Qed.

Lemma shr_fexp_nonneg m e l :
  (0 ≤ m)%Z → (0 ≤ shr_m (shr_fexp prec emax m e l).1)%Z.
Proof.
  intros Hm. unfold shr_fexp, shr.
  assert (0 ≤ shr_m (shr_record_of_loc m l))%Z by by destruct l as [|[]].
  destruct (_ - e)%Z; cbn [fst]; [done| |done].
  by apply iter_pos_shr_1_nonneg.
Qed.

Lemma round_nearest_even_nonneg m l :
  (0 ≤ m)%Z → (0 ≤ round_nearest_even m l)%Z.
Proof.
  intros Hm. destruct l as [|[]]; cbn; [done| |done|lia].
  destruct (Z.even m); lia.
Qed.

Lemma binary_round_aux_nonneg m e l :
  (0 ≤ m)%Z → SFnonneg (binary_round_aux prec emax false m e l).
Proof.
  intros Hm. unfold binary_round_aux.
  pose proof (shr_fexp_nonneg m e l Hm) as H1.
  destruct (shr_fexp prec emax m e l) as [mrs' e']. cbn [fst] in H1.
  pose proof (shr_fexp_nonneg _ e' loc_Exact
    (round_nearest_even_nonneg _ (loc_of_shr_record mrs') H1)) as H2.
  destruct (shr_fexp prec emax _ e' loc_Exact) as [mrs'' e'']. cbn [fst] in H2.
  destruct (shr_m mrs'') as [|p|p]; cbn; [done| |lia].
  by destruct (_ <=? _)%Z.
Qed.

(** *** The tolerance of [np.isclose] is never negative *)

Lemma tolerances_SF :
  (∃ m e, Prim2SF atol = S754_finite false m e) ∧
  (∃ m e, Prim2SF rtol = S754_finite false m e).
Proof. split; vm_compute; eauto. Qed.

Lemma is_finite_SF b :
  PrimFloat.is_finite b = true →
  (∃ s, Prim2SF b = S754_zero s) ∨ (∃ s m e, Prim2SF b = S754_finite s m e).
Proof.
  unfold PrimFloat.is_finite, PrimFloat.is_infinity.
  rewrite negb_true_iff, orb_false_iff. intros [Hnan Hinf].
  rewrite FloatAxioms.eqb_spec, FloatAxioms.abs_spec in Hinf.
  change (Prim2SF infinity) with (S754_infinity false) in Hinf.
  destruct (Prim2SF b) as [s|s| |s m e] eqn:Hb; eauto.
  - by destruct s.
  - apply is_nan_SF in Hb. congruence.
Qed.

Lemma SFeqb_zero_r x s :
  SFeqb x (S754_zero s) = true → ∃ s', x = S754_zero s'.
Proof. destruct x as [s'|[]| |[] m e]; cbn; try done. eauto. Qed.

Lemma SFeqb_finite_r x s m e :
  SFeqb x (S754_finite s m e) = true → x = S754_finite s m e.
Proof.
  destruct x as [s'|[]| |s' m' e']; try (by destruct s).
  unfold SFeqb, SFcompare.
  destruct s', s; try done;
    destruct (e' ?= e)%Z eqn:He; try done;
    destruct (Pos.compare_cont Eq m' m) eqn:Hm; try done;
    apply Z.compare_eq in He; apply Pos.compare_eq in Hm; by subst.
Qed.

Lemma SFsub_diag s m e :
  SF64sub (S754_finite s m e) (S754_finite s m e) = S754_zero false.
Proof. unfold SF64sub, SFsub. cbv zeta. by rewrite Z.sub_diag. Qed.

Lemma SFleb_zero_nonneg s t : SFnonneg t → SFleb (S754_zero s) t = true.
Proof. destruct t as [?|?| |? ? ?]; cbn; try done; by intros ->. Qed.

Lemma SFmul_nonneg mr er y :
  (∃ s, y = S754_zero s) ∨ (∃ s m e, y = S754_finite s m e) →
  SFnonneg (SF64mul (S754_finite false mr er) (SFabs y)).
Proof.
  intros [[s ->]|(s & m & e & ->)]; cbn; [done|].
  by apply binary_round_aux_nonneg.
Qed.

Lemma SFadd_nonneg ma ea y :
  SFnonneg y → SFnonneg (SF64add (S754_finite false ma ea) y).
Proof.
  destruct y as [s|s| |s m e]; cbn; try done.
  intros ->. unfold SF64add, SFadd. cbv zeta. cbn [cond_Zopp].
  generalize (shl_align ma ea (ea `min` e)%Z).1 as p1.
  generalize (shl_align m e (ea `min` e)%Z).1 as p2. intros p2 p1.
  change (Z.pos p1 + Z.pos p2)%Z with (Z.pos (p1 + p2)).
  unfold binary_normalize, binary_round.
  destruct (shl_align (p1 + p2) _ _) as [mz ez].
  by apply binary_round_aux_nonneg.
Qed.

(** Values that compare equal are within the tolerance of each other. *)
Lemma tolerance_covers_equal a b :
  PrimFloat.is_finite b = true → PrimFloat.eqb a b = true →
  PrimFloat.leb (PrimFloat.abs (a - b)) (atol + rtol * PrimFloat.abs b) = true.
Proof.
  intros Hfin Heq. rewrite FloatAxioms.eqb_spec in Heq.
  rewrite FloatAxioms.leb_spec, FloatAxioms.abs_spec, FloatAxioms.sub_spec,
    FloatAxioms.add_spec, FloatAxioms.mul_spec, FloatAxioms.abs_spec.
  destruct tolerances_SF as [(ma & ea & ->) (mr & er & ->)].
  pose proof (is_finite_SF b Hfin) as Hb.
  assert (SFabs (SF64sub (Prim2SF a) (Prim2SF b)) = S754_zero false) as ->.
  { destruct Hb as [[s Hb]|(s & m & e & Hb)]; rewrite Hb in Heq |- *.
    - apply SFeqb_zero_r in Heq as [s' ->]. by destruct s', s.
    - apply SFeqb_finite_r in Heq as ->. by rewrite SFsub_diag. }
  by apply SFleb_zero_nonneg, SFadd_nonneg, SFmul_nonneg.
Qed.

(** ** The tie criterion *)

Lemma isclose_refl x : PrimFloat.is_nan x = false → isclose x x = true.
Proof.
  intros Hx. unfold isclose. rewrite (eqb_not_nan x Hx). apply orb_true_r.
Qed.

Lemma isclose_nan_r x y : PrimFloat.is_nan y = true → isclose x y = false.
Proof.
  intros Hy. unfold isclose, PrimFloat.is_finite.
  rewrite Hy, (eqb_nan_r x y Hy). cbn. by rewrite andb_false_r.
Qed.

Lemma isclose_nan_l x y : PrimFloat.is_nan x = true → isclose x y = false.
Proof.
  intros Hx. unfold isclose.
  rewrite (eqb_nan_l x y Hx), leb_nan_l; [done|].
  by apply abs_nan, sub_nan_l.
Qed.

Lemma isclose_infinite x y :
  PrimFloat.is_finite y = false → isclose x y = PrimFloat.eqb x y.
Proof. intros Hy. unfold isclose. rewrite Hy. by rewrite andb_false_r. Qed.

Lemma isclose_finite x y :
  PrimFloat.is_finite y = true →
  isclose x y = PrimFloat.leb (PrimFloat.abs (x - y)) (atol + rtol * PrimFloat.abs y).
Proof.
  intros Hy. unfold isclose. rewrite Hy, andb_true_r.
  destruct (PrimFloat.eqb x y) eqn:Heq; [|apply orb_false_r].
  by rewrite (tolerance_covers_equal x y Hy Heq).
Qed.

(** C4 (as amended): a fitness value [a] is tied with the maximum [b]
    exactly when [|a - b| <= atol + rtol * |b|] in float64 arithmetic, with
    [atol = 1e-8] and [rtol = 1e-5], for a finite [b]: the tolerance has an
    absolute part and a part that grows with the magnitude of [b]. Against
    an infinite [b] only [a == b] is a tie, and a NaN is tied with
    nothing. *)
Theorem tie_criterion a b :
  (PrimFloat.is_finite b = true →
     isclose a b
     = PrimFloat.leb (PrimFloat.abs (a - b)) (atol + rtol * PrimFloat.abs b)) ∧
  (PrimFloat.is_finite b = false → isclose a b = PrimFloat.eqb a b) ∧
  (PrimFloat.is_nan a = true ∨ PrimFloat.is_nan b = true → isclose a b = false).
Proof.
  split_and!.
  - apply isclose_finite.
  - apply isclose_infinite.
  - intros [Ha|Hb]; [by apply isclose_nan_l | by apply isclose_nan_r].
Qed.

Lemma tie_criterion_witness :
  isclose 5.99996 6
  = PrimFloat.leb (PrimFloat.abs (5.99996 - 6)) (atol + rtol * PrimFloat.abs 6).
Proof. exact (proj1 (tie_criterion 5.99996 6) eq_refl). Defined.

(** C4 (as stated) fails: at [beta = 1.50001] a hawk with four hawks and
    four doves around it and a dove with two hawks and six doves around it
    have fitness values that differ by about [4e-5], far more than [1e-8],
    and [np.isclose] reports them tied. *)
Lemma relative_tolerance_ties :
  let a := sum_from 0 (replicate 4 (1 - 1.50001)%float ++ replicate 4 2%float) in
  let b := sum_from 0 (replicate 2 0%float ++ replicate 6 1%float) in
  PrimFloat.ltb atol (PrimFloat.abs (a - b)) = true ∧ isclose a b = true.
Proof. split; vm_compute; reflexivity. Qed.

(** ** The maximum and the tie set *)

Lemma np_maximum_cases a b : np_maximum a b = a ∨ np_maximum a b = b.
Proof. unfold np_maximum. destruct (_ || _)%bool; auto. Qed.

Lemma np_maximum_nan a b :
  PrimFloat.is_nan a = true ∨ PrimFloat.is_nan b = true →
  PrimFloat.is_nan (np_maximum a b) = true.
Proof.
  unfold np_maximum. destruct (PrimFloat.is_nan a) eqn:Ha.
  - intros _. by rewrite orb_true_r.
  - intros [?|Hb]; [done|]. by rewrite (leb_nan_l b a Hb).
Qed.

Lemma foldl_np_maximum_elem l : ∀ x, foldl np_maximum x l ∈ x :: l.
Proof.
  induction l as [|y l IH]; intros x; cbn [foldl]; [apply list_elem_of_here|].
  specialize (IH (np_maximum x y)).
  apply elem_of_cons in IH as [->|IH].
  - destruct (np_maximum_cases x y) as [-> | ->];
      rewrite !elem_of_cons; auto.
  - rewrite !elem_of_cons; auto.
Qed.

Lemma foldl_np_maximum_nan l :
  ∀ x, Exists (λ s, PrimFloat.is_nan s = true) (x :: l) →
       PrimFloat.is_nan (foldl np_maximum x l) = true.
Proof.
  induction l as [|y l IH]; intros x Hex; cbn [foldl].
  - apply Exists_cons in Hex as [?|Hex]; [done|]. by apply Exists_nil in Hex.
  - apply IH. apply Exists_cons in Hex as [Hx|Hex].
    + apply Exists_cons_hd, np_maximum_nan; auto.
    + apply Exists_cons in Hex as [Hy|Hex].
      * apply Exists_cons_hd, np_maximum_nan; auto.
      * by apply Exists_cons_tl.
Qed.

Lemma np_max_elem l m : np_max l = Ok m → m ∈ l.
Proof.
  destruct l as [|x l]; [done|]. intros [= <-]. apply foldl_np_maximum_elem.
Qed.

Lemma np_max_nan l m :
  np_max l = Ok m → Exists (λ s, PrimFloat.is_nan s = true) l →
  PrimFloat.is_nan m = true.
Proof.
  destruct l as [|x l]; [done|]. intros [= <-]. apply foldl_np_maximum_nan.
Qed.

Lemma np_max_nonempty l : l ≠ [] → ∃ m, np_max l = Ok m.
Proof. destruct l; [done|]. cbn. eauto. Qed.

(** *** The maximum bounds the values

    On floats that are not NaN, [<=] is a total preorder, so the value
    [np.max] folds to is an upper bound of the array. *)

Lemma SFleb_rank x y :
  x ≠ S754_nan → y ≠ S754_nan →
  SFleb x y = true ↔ lex_le (SFrank x) (SFrank y).
Proof.
  intros Hx Hy. unfold SFleb, SFcompare, lex_le.
  destruct x as [[]|[]| |[] m1 e1], y as [[]|[]| |[] m2 e2]; try done;
    cbn [SFrank fst snd]; try (split; [intros _; lia | done]);
    try (split; [done | lia]).
  - destruct (Z.compare_spec e1 e2) as [->|?|?].
    + change (Pos.compare_cont Eq m1 m2) with (Pos.compare m1 m2).
      destruct (Pos.compare_spec m1 m2) as [->|?|?]; cbn; split; (done || lia).
    + cbn; split; (done || lia).
    + cbn; split; (done || lia).
  - destruct (Z.compare_spec e1 e2) as [->|?|?].
    + change (Pos.compare_cont Eq m1 m2) with (Pos.compare m1 m2).
      destruct (Pos.compare_spec m1 m2) as [->|?|?]; cbn; split; (done || lia).
    + cbn; split; (done || lia).
    + cbn; split; (done || lia).
Qed.

Lemma not_nan_SF x : PrimFloat.is_nan x = false ↔ Prim2SF x ≠ S754_nan.
Proof.
  rewrite <-is_nan_SF. destruct (PrimFloat.is_nan x); split; congruence.
Qed.

Lemma leb_rank x y :
  PrimFloat.is_nan x = false → PrimFloat.is_nan y = false →
  PrimFloat.leb x y = true ↔ lex_le (SFrank (Prim2SF x)) (SFrank (Prim2SF y)).
Proof.
  intros Hx%not_nan_SF Hy%not_nan_SF. rewrite FloatAxioms.leb_spec.
  by apply SFleb_rank.
Qed.

Lemma leb_refl x : PrimFloat.is_nan x = false → PrimFloat.leb x x = true.
Proof. intros Hx. apply leb_rank; [done|done|]. unfold lex_le. lia. Qed.

Lemma leb_total x y :
  PrimFloat.is_nan x = false → PrimFloat.is_nan y = false →
  PrimFloat.leb y x = false → PrimFloat.leb x y = true.
Proof.
  intros Hx Hy Hyx. apply leb_rank; [done|done|].
  assert (¬ lex_le (SFrank (Prim2SF y)) (SFrank (Prim2SF x))) as Hn.
  { intros Hle%leb_rank; [congruence|done|done]. }
  unfold lex_le in *. lia.
Qed.

Lemma leb_trans x y z :
  PrimFloat.is_nan x = false → PrimFloat.is_nan y = false →
  PrimFloat.is_nan z = false →
  PrimFloat.leb x y = true → PrimFloat.leb y z = true →
  PrimFloat.leb x z = true.
Proof.
  intros Hx Hy Hz Hxy%leb_rank Hyz%leb_rank; try done.
  apply leb_rank; [done|done|]. unfold lex_le in *. lia.
Qed.

Lemma np_maximum_upper a b :
  PrimFloat.is_nan a = false → PrimFloat.is_nan b = false →
  PrimFloat.is_nan (np_maximum a b) = false ∧
  PrimFloat.leb a (np_maximum a b) = true ∧
  PrimFloat.leb b (np_maximum a b) = true.
Proof.
  intros Ha Hb. unfold np_maximum. rewrite Ha, orb_false_r.
  destruct (PrimFloat.leb b a) eqn:Hba.
  - split_and!; [done|by apply leb_refl|done].
  - split_and!; [done|by apply leb_total|by apply leb_refl].
Qed.

Lemma foldl_np_maximum_upper l :
  ∀ x, PrimFloat.is_nan x = false →
       Forall (λ s, PrimFloat.is_nan s = false) l →
       PrimFloat.is_nan (foldl np_maximum x l) = false ∧
       Forall (λ s, PrimFloat.leb s (foldl np_maximum x l) = true) (x :: l).
Proof.
  induction l as [|y l IH]; intros x Hx Hl; cbn [foldl].
  - split; [done|]. constructor; [by apply leb_refl|constructor].
  - apply Forall_cons in Hl as [Hy Hl].
    destruct (np_maximum_upper x y Hx Hy) as (Hm & Hxm & Hym).
    destruct (IH _ Hm Hl) as [Hfin Hall].
    apply Forall_cons in Hall as [Hmf Hall].
    split; [done|].
    constructor; [by eapply (leb_trans x (np_maximum x y))|].
    constructor; [by eapply (leb_trans y (np_maximum x y))|done].
Qed.

(** A maximum that is not NaN comes from an array without NaN and no
    value of the array exceeds it. *)
Lemma np_max_upper l m :
  np_max l = Ok m → PrimFloat.is_nan m = false →
  Forall (λ s, PrimFloat.is_nan s = false ∧ PrimFloat.leb s m = true) l.
Proof.
  intros Hmax Hm.
  assert (Hl : Forall (λ s, PrimFloat.is_nan s = false) l).
  { apply Forall_forall. intros s Hs.
    destruct (PrimFloat.is_nan s) eqn:Hnan; [|done].
    rewrite (np_max_nan l m Hmax) in Hm; [done|].
    apply Exists_exists. eauto. }
  destruct l as [|x l]; [done|]. injection Hmax as <-.
  pose proof Hl as Hl'. apply Forall_cons in Hl' as [Hx Hl'].
  destruct (foldl_np_maximum_upper l x Hx Hl') as [_ Hall].
  rewrite Forall_forall in Hl. rewrite Forall_forall in Hall.
  apply Forall_forall. intros s Hs. split; auto.
Qed.

Lemma argwhere_cons b mask :
  argwhere (b :: mask) = (if b then [0] else []) ++ (S <$> argwhere mask).
Proof.
  unfold argwhere. rewrite imap_cons, filter_cons. cbn [snd].
  assert (Hshift : ∀ (g : nat → nat) l,
    (filter (λ p : nat * bool, p.2 = true) (imap (λ i x, (g i, x)) l)).*1
    = g <$> (filter (λ p : nat * bool, p.2 = true) (imap pair l)).*1).
  { intros g l. revert g. induction l as [|c l IH]; intros g; [done|].
    rewrite !imap_cons, !filter_cons. cbn [snd].
    specialize (IH (g ∘ S)) as IHg. cbn [compose] in IHg.
    change (imap ((λ i x, (g i, x)) ∘ S) l) with (imap (λ i x, (g (S i), x)) l).
    change (imap (pair ∘ S) l) with (imap (λ i (x : bool), (S i, x)) l).
    destruct (decide (c = true)); cbn [fmap list_fmap fst];
      rewrite IHg, (IH S), list_fmap_compose; done. }
  change (imap (pair ∘ S) mask) with (imap (λ i (x : bool), (S i, x)) mask).
  destruct b; [rewrite decide_True by done|rewrite decide_False by done];
    cbn [fmap list_fmap fst app]; by rewrite Hshift.
Qed.

Lemma elem_of_argwhere mask : ∀ k, k ∈ argwhere mask ↔ mask !! k = Some true.
Proof.
  induction mask as [|b mask IH]; intros k.
  - cbn. rewrite elem_of_nil. split; [done|]. by rewrite lookup_nil.
  - rewrite argwhere_cons, elem_of_app, list_elem_of_fmap.
    destruct k as [|k]; cbn [lookup list_lookup].
    + split.
      * intros [Hin|(k' & ? & _)]; [|done]. destruct b; [done|].
        by apply elem_of_nil in Hin.
      * intros [= ->]. left. apply list_elem_of_here.
    + rewrite <-IH. split.
      * intros [Hin|(k' & [= ->] & ?)]; [|done].
        destruct b; [apply list_elem_of_singleton in Hin | apply elem_of_nil in Hin]; done.
      * intros Hin. right. eauto.
Qed.

Lemma argwhere_all n : argwhere (replicate n true) = seq 0 n.
Proof.
  induction n as [|n IH]; [done|].
  cbn [replicate]. rewrite argwhere_cons, IH, fmap_S_seq. done.
Qed.

Lemma argwhere_none n : argwhere (replicate n false) = [].
Proof.
  induction n as [|n IH]; [done|].
  cbn [replicate]. by rewrite argwhere_cons, IH.
Qed.

Lemma elem_of_tie_set neighs_s max_val k :
  k ∈ tie_set neighs_s max_val ↔
  ∃ s, neighs_s !! k = Some s ∧ isclose s max_val = true.
Proof.
  unfold tie_set. rewrite elem_of_argwhere, list_lookup_fmap.
  destruct (neighs_s !! k) as [s|]; cbn.
  - split; [intros [= ?]; eauto | intros (? & [= <-] & ->); done].
  - split; [done | intros (? & ? & _); done].
Qed.

Lemma tie_set_all neighs_s max_val :
  (∀ s, s ∈ neighs_s → isclose s max_val = true) →
  tie_set neighs_s max_val = seq 0 (length neighs_s).
Proof.
  intros Hall. unfold tie_set.
  replace ((λ s, isclose s max_val) <$> neighs_s)
    with (replicate (length neighs_s) true); [apply argwhere_all|].
  apply replicate_as_Forall. rewrite length_fmap. split; [done|].
  apply Forall_fmap, Forall_forall. intros s Hs. cbn. symmetry. auto.
Qed.

Lemma tie_set_nan neighs_s max_val :
  PrimFloat.is_nan max_val = true → tie_set neighs_s max_val = [].
Proof.
  intros Hnan. unfold tie_set.
  replace ((λ s, isclose s max_val) <$> neighs_s)
    with (replicate (length neighs_s) false); [apply argwhere_none|].
  apply replicate_as_Forall. rewrite length_fmap. split; [done|].
  apply Forall_fmap, Forall_forall. intros s Hs. cbn. symmetry.
  by apply isclose_nan_r.
Qed.

(** ** Counting draws

    Sums over lists, used to count the generator states and the
    permutations that lead to an outcome. *)

Lemma length_filter_sum {A} (P : A → Prop) `{∀ x, Decision (P x)} (l : list A) :
  length (filter P l) = sum_list_with (λ x, if decide (P x) then 1 else 0) l.
Proof.
  induction l as [|x l IH]; [done|].
  rewrite filter_cons. cbn [sum_list_with]. case_decide; cbn; lia.
Qed.

Lemma sum_list_with_ext {A} (f g : A → nat) l :
  (∀ x, x ∈ l → f x = g x) → sum_list_with f l = sum_list_with g l.
Proof.
  induction l as [|x l IH]; intros Hfg; [done|]. cbn.
  rewrite Hfg by apply list_elem_of_here. rewrite IH; [done|].
  intros y Hy. apply Hfg. by apply list_elem_of_further.
Qed.

Lemma sum_list_with_const {A} (c : nat) (l : list A) :
  sum_list_with (λ _, c) l = c * length l.
Proof. induction l as [|x l IH]; cbn; lia. Qed.

Lemma sum_list_with_add {A} (f g : A → nat) l :
  sum_list_with (λ x, f x + g x) l = sum_list_with f l + sum_list_with g l.
Proof. induction l as [|x l IH]; cbn; lia. Qed.

Lemma sum_list_with_mul {A} (c : nat) (f : A → nat) l :
  sum_list_with (λ x, c * f x) l = c * sum_list_with f l.
Proof. induction l as [|x l IH]; cbn; lia. Qed.

Lemma sum_list_with_fmap {A B} (g : A → B) (f : B → nat) l :
  sum_list_with f (g <$> l) = sum_list_with (λ x, f (g x)) l.
Proof. induction l as [|x l IH]; cbn; [done|]. by rewrite IH. Qed.

Lemma sum_list_with_bind {A B} (g : A → list B) (f : B → nat) l :
  sum_list_with f (l ≫= g) = sum_list_with (λ x, sum_list_with f (g x)) l.
Proof.
  induction l as [|x l IH]; [done|]. cbn.
  by rewrite sum_list_with_app, IH.
Qed.

(** Exactly one element of a duplicate-free list is a given member. *)
Lemma sum_list_with_single {A} `{EqDecision A} (F : A → nat) (a : A) us :
  NoDup us → a ∈ us →
  sum_list_with (λ u, (if decide (a = u) then 1 else 0) * F u) us = F a.
Proof.
  induction 1 as [|u us Hnin Hnd IH]; [by intros ?%elem_of_nil|].
  intros Hin. cbn. apply elem_of_cons in Hin as [->|Hin].
  - rewrite decide_True by done.
    rewrite (sum_list_with_ext _ (λ _, 0) us).
    + rewrite sum_list_with_const. lia.
    + intros u' Hu'. rewrite decide_False; [done|]. by intros ->.
  - rewrite decide_False by (intros ->; done). rewrite IH by done. lia.
Qed.

(** Summing over a population by the value of [f]. *)
Lemma sum_list_with_classes {G A} `{EqDecision A} (f : G → A) (F : A → nat)
    (Ω : list G) (us : list A) :
  NoDup us → (∀ g, g ∈ Ω → f g ∈ us) →
  sum_list_with (λ g, F (f g)) Ω
  = sum_list_with (λ u, length (filter (λ g, f g = u) Ω) * F u) us.
Proof.
  intros Hnd. induction Ω as [|g Ω IH]; intros Hcover.
  - cbn [sum_list_with]. symmetry.
    etrans; [apply (sum_list_with_ext _ (λ _, 0)); done|].
    rewrite sum_list_with_const. lia.
  - cbn [sum_list_with]. rewrite IH
      by (intros g' Hg'; apply Hcover; by apply list_elem_of_further).
    pose proof (sum_list_with_single F (f g) us Hnd
                  (Hcover g (list_elem_of_here _ _))) as Hone.
    rewrite <-Hone at 1.
    rewrite <-sum_list_with_add. apply sum_list_with_ext. intros u _.
    rewrite filter_cons. case_decide; cbn [length]; lia.
Qed.

(** *** Counting permutations *)

Lemma length_interleave {A} (x : A) l : length (interleave x l) = S (length l).
Proof.
  induction l as [|y l IH]; [done|]. cbn. by rewrite length_fmap, IH.
Qed.

Lemma length_permutations_elem {A} (l p : list A) :
  p ∈ permutations l → length p = length l.
Proof. intros Hp%permutations_Permutation. by rewrite Hp. Qed.

Lemma length_permutations {A} (l : list A) :
  length (permutations l) = fact (length l).
Proof.
  induction l as [|x l IH]; [done|].
  cbn [permutations length fact].
  rewrite <-(Nat.mul_1_l (length (_ ≫= _))), <-sum_list_with_const at 1.
  rewrite sum_list_with_bind.
  rewrite (sum_list_with_ext _ (λ _, S (length l))).
  - rewrite sum_list_with_const, IH. lia.
  - intros p Hp. rewrite sum_list_with_const, length_interleave.
    rewrite (length_permutations_elem l p Hp). lia.
Qed.

Lemma NoDup_interleave {A} (x : A) l : x ∉ l → NoDup (interleave x l).
Proof.
  induction l as [|y l IH]; intros Hx.
  - apply NoDup_singleton.
  - cbn [interleave]. apply NoDup_cons_2.
    + intros (p & Hp & _)%list_elem_of_fmap. injection Hp as -> _.
      apply Hx, list_elem_of_here.
    + apply NoDup_fmap_2; [apply _|]. apply IH. intros Hin.
      apply Hx. by apply list_elem_of_further.
Qed.

Lemma filter_all {A} (P : A → Prop) `{∀ x, Decision (P x)} (l : list A) :
  Forall P l → filter P l = l.
Proof.
  induction 1 as [|x l Hx _ IH]; [done|].
  by rewrite filter_cons_True, IH.
Qed.

Lemma interleave_remove {A} `{EqDecision A} (x : A) p q :
  x ∉ p → q ∈ interleave x p → filter (λ y, y ≠ x) q = p.
Proof.
  intros Hx (l1 & l2 & -> & ->)%elem_of_interleave.
  rewrite filter_app, filter_cons_False by (intros ?; done).
  rewrite <-filter_app. apply filter_all, Forall_forall.
  intros y Hy ->. done.
Qed.

Lemma NoDup_permutations {A} `{EqDecision A} (l : list A) :
  NoDup l → NoDup (permutations l).
Proof.
  induction 1 as [|x l Hx Hnd IH]; [apply NoDup_singleton|].
  cbn [permutations].
  assert (Hnin : ∀ p, p ∈ permutations l → x ∉ p).
  { intros p Hp%permutations_Permutation. by rewrite <-Hp. }
  apply NoDup_bind; [|intros p Hp; apply NoDup_interleave; auto|done].
  intros p1 p2 q Hp1 Hp2 Hq1 Hq2.
  rewrite <-(interleave_remove x p1 q), <-(interleave_remove x p2 q); auto.
Qed.

(** Among the permutations of a duplicate-free list, each element is the
    head of as many as there are permutations of the other elements. *)
Lemma head_interleave {A} `{EqDecision A} (x r : A) p :
  sum_list_with (λ q, if decide (head q = Some r) then 1 else 0) (interleave x p)
  = (if decide (x = r) then 1 else 0)
    + (if decide (head p = Some r) then length p else 0).
Proof.
  destruct p as [|y l]; cbn [interleave sum_list_with head].
  - repeat case_decide; naive_solver lia.
  - rewrite sum_list_with_fmap. cbn [head].
    rewrite sum_list_with_const, length_interleave. cbn [length].
    repeat case_decide; naive_solver lia.
Qed.

Lemma head_permutations {A} `{EqDecision A} (l : list A) (r : A) :
  NoDup l →
  sum_list_with (λ q, if decide (head q = Some r) then 1 else 0) (permutations l)
  = if decide (r ∈ l) then fact (length l - 1) else 0.
Proof.
  induction 1 as [|x l Hx Hnd IH].
  - cbn. destruct (decide (r ∈ [])) as [Hin|_]; [by apply elem_of_nil in Hin|].
    by rewrite decide_False.
  - cbn [permutations]. rewrite sum_list_with_bind.
    rewrite (sum_list_with_ext _
      (λ p, (if decide (x = r) then 1 else 0)
            + length l * (if decide (head p = Some r) then 1 else 0))).
    2:{ intros p Hp. rewrite head_interleave.
        rewrite (length_permutations_elem l p Hp). repeat case_decide; lia. }
    rewrite sum_list_with_add, sum_list_with_const, sum_list_with_mul, IH.
    rewrite length_permutations. cbn [length].
    replace (S (length l) - 1) with (length l) by lia.
    destruct (decide (x = r)) as [->|Hxr].
    + rewrite (decide_False (P := r ∈ l)) by done.
      rewrite decide_True by apply list_elem_of_here. lia.
    + destruct (decide (r ∈ l)) as [Hin|Hnin].
      * rewrite decide_True by by apply list_elem_of_further.
        destruct l as [|y l']; [by apply elem_of_nil in Hin|].
        cbn [length]. replace (S (length l') - 1) with (length l') by lia.
        cbn [fact]. lia.
      * rewrite decide_False; [lia|].
        intros [?|?]%elem_of_cons; congruence.
Qed.

Lemma NoDup_argwhere mask : NoDup (argwhere mask).
Proof.
  induction mask as [|b mask IH]; [apply NoDup_nil_2|].
  rewrite argwhere_cons. apply NoDup_app. split_and!.
  - destruct b; [apply NoDup_singleton|apply NoDup_nil_2].
  - intros k Hk (k' & -> & _)%list_elem_of_fmap.
    destruct b; [by apply list_elem_of_singleton in Hk|by apply elem_of_nil in Hk].
  - apply NoDup_fmap_2; [apply _|done].
Qed.

(** ** The tie-break *)

Section TieBreak.
Context `{NumpyRandom}.

Lemma getitem1_nat {A} (l : list A) k x :
  l !! k = Some x → getitem1 l (Z.of_nat k) = Ok x.
Proof.
  intros Hk. unfold getitem1.
  rewrite np_index_nat by by eapply lookup_lt_Some.
  cbn. by rewrite Hk.
Qed.

(** On a non-empty tie set the draw succeeds and lands in the set. *)
Lemma pick_nonempty max_idx g :
  max_idx ≠ [] → ∃ k g', pick max_idx g = Ok (k, g') ∧ k ∈ max_idx.
Proof.
  intros Hne. unfold pick.
  pose proof (permutation_perm (length max_idx) g) as Hperm.
  destruct (permutation (length max_idx) g) as [perm g']. cbn [fst] in Hperm.
  destruct perm as [|r perm].
  { apply Permutation_nil_l in Hperm. destruct max_idx; done. }
  assert (Hr : r < length max_idx).
  { assert (r ∈ seq 0 (length max_idx)) as Hin
      by (rewrite <-Hperm; apply list_elem_of_here).
    apply elem_of_seq in Hin. lia. }
  apply lookup_lt_is_Some_2 in Hr as [k Hk].
  exists k, g'. split; [|by eapply list_elem_of_lookup_2].
  pose proof (getitem1_nat (r :: perm) 0 r eq_refl) as Hhead.
  change (Z.of_nat 0) with 0%Z in Hhead. rewrite Hhead. cbn [mbind result_bind].
  by rewrite (getitem1_nat max_idx r k).
Qed.

(** On an empty tie set the permutation is empty and taking its head is an
    [IndexError]. *)
Lemma pick_empty g : pick [] g = Raise IndexError.
Proof.
  unfold pick. pose proof (permutation_perm 0 g) as Hperm. cbn [length].
  destruct (permutation 0 g) as [perm g']. cbn [fst] in Hperm.
  apply Permutation_nil_r in Hperm as ->. done.
Qed.

Lemma rmapM_lookup {A B} (f : A → result B) l ys k x :
  rmapM f l = Ok ys → l !! k = Some x → ∃ y, ys !! k = Some y ∧ f x = Ok y.
Proof.
  intros Hrun%rmapM_Forall2 Hk.
  destruct (Forall2_lookup_l _ _ _ _ _ Hrun Hk) as (y & ? & ?). eauto.
Qed.

Lemma pick_chosen max_idx g :
  pick max_idx g
  = k ← chosen max_idx (permutation (length max_idx) g).1;
    Ok (k, (permutation (length max_idx) g).2).
Proof.
  unfold pick, chosen.
  destruct (permutation (length max_idx) g) as [perm g']. cbn [fst snd].
  destruct (getitem1 perm 0) as [rnd_idx|]; cbn [mbind result_bind]; [|done].
  by destruct (getitem1 max_idx (Z.of_nat rnd_idx)).
Qed.

(** With distinct entries, the permutation selects the entry at position
    [r] exactly when it starts with [r]. *)
Lemma chosen_head max_idx perm r k :
  NoDup max_idx → perm ≡ₚ seq 0 (length max_idx) → max_idx !! r = Some k →
  chosen max_idx perm = Ok k ↔ head perm = Some r.
Proof.
  intros Hnd Hperm Hr. destruct perm as [|r0 perm].
  { symmetry in Hperm. apply Permutation_nil_r in Hperm.
    destruct max_idx; [by rewrite lookup_nil in Hr|done]. }
  assert (Hr0 : r0 < length max_idx).
  { assert (r0 ∈ seq 0 (length max_idx)) as Hin
      by (rewrite <-Hperm; apply list_elem_of_here).
    apply elem_of_seq in Hin. lia. }
  apply lookup_lt_is_Some_2 in Hr0 as [k0 Hk0].
  unfold chosen.
  pose proof (getitem1_nat (r0 :: perm) 0 r0 eq_refl) as Hhead.
  change (Z.of_nat 0) with 0%Z in Hhead. rewrite Hhead. cbn [mbind result_bind].
  rewrite (getitem1_nat max_idx r0 k0 Hk0). cbn [head]. split.
  - intros [= ->]. f_equal. by eapply (NoDup_lookup max_idx).
  - intros [= ->]. congruence.
Qed.

(** Over a population of generator states in which every permutation of
    the positions is drawn equally often, every entry is selected equally
    often: by one state in [length max_idx]. *)
Lemma pick_uniform max_idx (Ω : list rng) c k :
  NoDup max_idx → k ∈ max_idx →
  (∀ p, p ≡ₚ seq 0 (length max_idx) →
     length (filter (λ g, (permutation (length max_idx) g).1 = p) Ω) = c) →
  length max_idx
  * length (filter (λ g, chosen max_idx (permutation (length max_idx) g).1 = Ok k) Ω)
  = length Ω.
Proof.
  intros Hnd Hk Hunif. set (n := length max_idx) in *.
  set (f := λ g : rng, (permutation n g).1).
  assert (Hcover : ∀ g, g ∈ Ω → f g ∈ permutations (seq 0 n)).
  { intros g _. apply permutations_Permutation. symmetry.
    apply permutation_perm. }
  assert (Hperms : NoDup (permutations (seq 0 n)))
    by apply NoDup_permutations, NoDup_seq.
  assert (Hclass : ∀ F : list nat → nat,
            sum_list_with (λ g, F (f g)) Ω
            = c * sum_list_with F (permutations (seq 0 n))).
  { intros F. rewrite (sum_list_with_classes f F Ω _ Hperms Hcover).
    rewrite <-sum_list_with_mul. apply sum_list_with_ext.
    intros p Hp%permutations_Permutation. unfold f.
    by rewrite (Hunif p) by done. }
  apply list_elem_of_lookup in Hk as [r Hr].
  assert (r ∈ seq 0 n) as Hrn.
  { apply elem_of_seq. apply lookup_lt_Some in Hr. unfold n. lia. }
  assert (Hall : length Ω = c * fact n).
  { rewrite <-(Nat.mul_1_l (length Ω)), <-sum_list_with_const.
    rewrite (Hclass (λ _, 1)), sum_list_with_const, length_permutations.
    rewrite length_seq. lia. }
  assert (Hsel : length (filter (λ g, chosen max_idx (f g) = Ok k) Ω)
                 = c * fact (n - 1)).
  { rewrite length_filter_sum.
    change (sum_list_with
              (λ g, (λ p, if decide (chosen max_idx p = Ok k) then 1 else 0) (f g))
              Ω = c * fact (n - 1)).
    rewrite Hclass. f_equal.
    rewrite (sum_list_with_ext _
               (λ p, if decide (head p = Some r) then 1 else 0)).
    - rewrite head_permutations by apply NoDup_seq.
      rewrite decide_True by done. by rewrite length_seq.
    - intros p Hp%permutations_Permutation.
      pose proof (chosen_head max_idx p r k Hnd (symmetry Hp) Hr) as Hiff.
      repeat case_decide; try done; exfalso; tauto. }
  change (n * length (filter (λ g, chosen max_idx (f g) = Ok k) Ω) = length Ω).
  rewrite Hsel, Hall.
  destruct n as [|n']; [by apply elem_of_nil in Hrn|].
  replace (S n' - 1) with n' by lia. cbn [fact]. lia.
Qed.

(** C3 (as amended): at any cell, if the fitness values read at the
    neighbourhood-plus-self positions hold no NaN, then the maximum is one of
    them and bounds them all, the positions tied for it are distinct and at
    least one, and from every state of the generator the update returns the
    strategy found at the tied position [max_idx[perm[0]]], where [perm] is
    the permutation drawn; if moreover all the values are equal, every
    position is tied. The choice is uniform: over any population of
    generator states in which [np.random.permutation] draws every
    permutation of the tied positions equally often, each tied position is
    chosen by exactly one state in [n], [n] being the number of tied
    positions. If one of the values is NaN the maximum is NaN, the tie set
    is empty and the update raises [IndexError]. *)
Theorem tie_break_total table fit nf i j current neighs neighs_s strategies :
  nf (Z.of_nat i) (Z.of_nat j) (Z.of_nat (shape0 table)) (Z.of_nat (shape1 table))
    = (current, neighs) →
  take_coords fit (current ++ neighs) = Ok neighs_s →
  take_coords table (current ++ neighs) = Ok strategies →
  current ++ neighs ≠ [] →
  (Forall (λ s, PrimFloat.is_nan s = false) neighs_s →
     ∃ max_val,
       let max_idx := tie_set neighs_s max_val in
       let n := length max_idx in
       np_max neighs_s = Ok max_val ∧ max_val ∈ neighs_s ∧
       Forall (λ s, PrimFloat.leb s max_val = true) neighs_s ∧
       max_idx ≠ [] ∧ NoDup max_idx ∧
       ((∀ s, s ∈ neighs_s → s = max_val) →
          max_idx = seq 0 (length neighs_s)) ∧
       (∀ g, ∃ k v,
          chosen max_idx (permutation n g).1 = Ok k ∧
          k ∈ max_idx ∧ strategies !! k = Some v ∧
          cell_choice table fit nf i j g = Ok (v, (permutation n g).2)) ∧
       (∀ (Ω : list rng) (c : nat),
          (∀ p, p ≡ₚ seq 0 n →
             length (filter (λ g, (permutation n g).1 = p) Ω) = c) →
          ∀ k, k ∈ max_idx →
            n * length (filter (λ g, chosen max_idx (permutation n g).1 = Ok k) Ω)
            = length Ω)) ∧
  (Exists (λ s, PrimFloat.is_nan s = true) neighs_s →
     ∀ g, cell_choice table fit nf i j g = Raise IndexError).
Proof.
  intros Hnf Hfit Htable Hne.
  assert (Hlen_s : length neighs_s = length (current ++ neighs))
    by by eapply rmapM_length.
  assert (neighs_s ≠ []) as Hne_s
    by (destruct neighs_s, (current ++ neighs); done).
  destruct (np_max_nonempty neighs_s Hne_s) as [max_val Hmax].
  split.
  - intros Hnan. exists max_val. cbv zeta.
    pose proof (np_max_elem _ _ Hmax) as Hin.
    assert (Hmax_ok : PrimFloat.is_nan max_val = false)
      by by eapply (proj1 (Forall_forall _ _) Hnan).
    assert (Htie : tie_set neighs_s max_val ≠ []).
    { apply list_elem_of_lookup in Hin as [k0 Hk0].
      assert (k0 ∈ tie_set neighs_s max_val) as Hk0in.
      { apply elem_of_tie_set. exists max_val. split; [done|].
        by apply isclose_refl. }
      intros Hnil. rewrite Hnil in Hk0in. by apply elem_of_nil in Hk0in. }
    assert (Hnd : NoDup (tie_set neighs_s max_val)) by apply NoDup_argwhere.
    split_and!; [done|done| |done|done| | |].
    + eapply Forall_impl; [exact (np_max_upper _ _ Hmax Hmax_ok)|].
      by intros s [_ ?].
    + intros Hall. apply tie_set_all. intros s' Hs'.
      rewrite (Hall s' Hs'). by apply isclose_refl.
    + intros g.
      destruct (pick_nonempty _ g Htie) as (k & g' & Hpick & Hk).
      pose proof Hpick as Hsel. rewrite pick_chosen in Hsel.
      destruct (chosen _ _) as [k'|] eqn:Hchosen; [|done].
      cbn [mbind result_bind] in Hsel. injection Hsel as -> <-.
      pose proof Hk as Hk'. apply elem_of_tie_set in Hk' as (s & Hs & _).
      assert (is_Some ((current ++ neighs) !! k)) as [c Hc].
      { apply lookup_lt_is_Some. rewrite <-Hlen_s. by eapply lookup_lt_Some. }
      destruct (rmapM_lookup _ _ _ _ _ Htable Hc) as (v & Hv & Hget).
      exists k, v. split_and!; try done.
      unfold cell_choice. rewrite Hnf. cbv zeta.
      rewrite Hfit. cbn [mbind result_bind]. rewrite Hmax.
      cbn [mbind result_bind]. rewrite Hpick. cbn [mbind result_bind].
      rewrite (getitem1_nat _ k c Hc). cbn [mbind result_bind].
      by rewrite Hget.
    + intros Ω c Hunif k Hk. by apply (pick_uniform _ Ω c k).
  - intros Hex g. unfold cell_choice. rewrite Hnf. cbv zeta.
    rewrite Hfit. cbn [mbind result_bind]. rewrite Hmax. cbn [mbind result_bind].
    rewrite (tie_set_nan neighs_s max_val) by by eapply np_max_nan.
    by rewrite pick_empty.
Qed.

End TieBreak.

Lemma tie_break_total_witness :
  5 * length (filter (λ g, chosen [0; 1; 2; 3; 4]
                             (@permutation listed_random 5 g).1 = Ok 3)
                (seq 0 120))
  = 120.
Proof.
  pose proof (@tie_break_total listed_random all_hawks
    (NdArray 3 3 (replicate 9 (-4)%float)) von_neumann_neighbourhood 1 1
    [(1, 1)%Z] (von_neumann_neighbourhood 1 1 3 3)%Z.2
    (replicate 5 (-4)%float) (replicate 5 0%Z)
    eq_refl eq_refl eq_refl ltac:(done)) as [Hok _].
  destruct Hok as (max_val & Hmax & _ & _ & _ & _ & _ & _ & Hunif).
  { repeat constructor. }
  injection Hmax as <-.
  apply (Hunif (seq 0 120) 1).
  - intros p Hp. change (p ≡ₚ seq 0 5) in Hp.
    symmetry in Hp. apply permutations_Permutation in Hp.
    assert (Hall : Forall (λ p, length (filter (λ g, (listed 5 g).1 = p)
                                          (seq 0 120)) = 1)
                     (permutations (seq 0 5)))
      by (apply (bool_decide_unpack _); vm_compute; exact I).
    exact (proj1 (Forall_forall _ _) Hall p Hp).
  - change (3 ∈ [0; 1; 2; 3; 4]). rewrite !elem_of_cons. auto.
Defined.

(** C3 (as stated) fails when the values are NaN: with a NaN payoff the nine
    hawks all have fitness NaN, no position is close to the NaN maximum, and
    the step raises [IndexError]. *)
Lemma nan_neighbourhood_raises :
  @fitness_field all_hawks (payoff_hawk_dove nan) moore_neighbourhood
    = Ok (NdArray 3 3 (replicate 9 nan)) ∧
  @iterate counter_random all_hawks (payoff_hawk_dove nan) moore_neighbourhood 0
    = Raise IndexError.
Proof. split; vm_compute; reflexivity. Qed.

(** ** The initial table *)

(** *** Counting residues *)

Lemma count_eq_app v l1 l2 : count_eq v (l1 ++ l2) = count_eq v l1 + count_eq v l2.
Proof. unfold count_eq. by rewrite filter_app, length_app. Qed.

Lemma count_eq_singleton v x :
  count_eq v [x] = if decide (x = v) then 1 else 0.
Proof.
  unfold count_eq. rewrite filter_cons, filter_nil. by case_decide.
Qed.

Lemma count_eq_Permutation v l1 l2 : l1 ≡ₚ l2 → count_eq v l1 = count_eq v l2.
Proof. intros Hp. unfold count_eq. by rewrite Hp. Qed.

Lemma div_mod_succ n num :
  0 < num →
  (n `mod` num + 1 < num ∧ (n + 1) / num = n / num ∧ (n + 1) `mod` num = n `mod` num + 1) ∨
  (n `mod` num + 1 = num ∧ (n + 1) / num = n / num + 1 ∧ (n + 1) `mod` num = 0).
Proof.
  intros HS.
  pose proof (Nat.div_mod_eq n num) as Hn.
  pose proof (Nat.mod_upper_bound n num ltac:(lia)) as Hr.
  destruct (decide (n `mod` num + 1 < num)) as [Hlt|Hge]; [left|right]; split_and!.
  - done.
  - symmetry. apply (Nat.div_unique _ _ _ (n `mod` num + 1)); lia.
  - symmetry. apply (Nat.mod_unique _ _ (n / num)); lia.
  - lia.
  - symmetry. apply (Nat.div_unique _ _ _ 0); lia.
  - symmetry. apply (Nat.mod_unique _ _ (n / num + 1)); lia.
Qed.

(** Among [0 .. n-1], the residue [i] occurs [n / num] times, and once more
    when [i] is below [n mod num]. *)
Lemma labels_count n num i :
  0 < num → i < num →
  count_eq (Z.of_nat i) (labels n num)
  = n / num + (if decide (i < n `mod` num) then 1 else 0).
Proof.
  intros HS Hi. unfold labels. induction n as [|n IH].
  - cbn. rewrite Nat.Div0.div_0_l, Nat.Div0.mod_0_l.
    by rewrite decide_False by lia.
  - rewrite seq_S, fmap_app, count_eq_app, IH. cbn [fmap list_fmap Nat.add].
    rewrite count_eq_singleton. replace (S n) with (n + 1) by lia.
    destruct (div_mod_succ n num HS) as [(Hr & -> & ->)|(Hr & -> & ->)];
      repeat case_decide; lia.
Qed.

Lemma labels_range n num : 0 < num → Forall (λ v, 0 ≤ v < Z.of_nat num)%Z (labels n num).
Proof.
  intros HS. unfold labels. apply Forall_fmap, Forall_forall. intros k _. cbn.
  pose proof (Nat.mod_upper_bound k num ltac:(lia)). lia.
Qed.

Lemma sum_classes q r num :
  sum_list ((λ i, q + (if decide (i < r) then 1 else 0)) <$> seq 0 num)
  = num * q + r `min` num.
Proof.
  induction num as [|num IH]; [cbn; lia|].
  rewrite seq_S, fmap_app, sum_list_with_app, IH. cbn. case_decide; lia.
Qed.

Lemma labels_count_sum n num :
  0 < num →
  sum_list ((λ i, count_eq (Z.of_nat i) (labels n num)) <$> seq 0 num) = n.
Proof.
  intros HS.
  rewrite (list_fmap_ext _
    (λ i, n / num + (if decide (i < n `mod` num) then 1 else 0)) (seq 0 num)).
  - rewrite sum_classes.
    pose proof (Nat.div_mod_eq n num). pose proof (Nat.mod_upper_bound n num). lia.
  - intros k i Hk. apply lookup_seq in Hk as [-> ?].
    by apply labels_count.
Qed.

(** *** Strided slices and indexed stores *)

Lemma elem_of_slice_step {A} (start step : nat) (l : list A) x :
  x ∈ slice_step start step l ↔
  ∃ k, l !! k = Some x ∧ start ≤ k ∧ (k - start) `mod` step = 0.
Proof.
  unfold slice_step. rewrite list_elem_of_fmap. split.
  - intros ([k y] & -> & Hin). apply list_elem_of_filter in Hin as [[? ?] Hin].
    apply elem_of_lookup_imap in Hin as (k' & y' & [= -> ->] & Hk). eauto.
  - intros (k & Hk & ? & ?). exists (k, x). split; [done|].
    apply list_elem_of_filter. split; [done|].
    apply elem_of_lookup_imap. eauto.
Qed.

(** For a start below the step, the slice holds the positions congruent to
    the start. *)
Lemma slice_step_residue (i num k : nat) :
  i < num → (i ≤ k ∧ (k - i) `mod` num = 0) ↔ k `mod` num = i.
Proof.
  intros Hi. split.
  - intros [Hle Hmod].
    pose proof (Nat.div_mod_eq (k - i) num) as Hk. rewrite Hmod in Hk.
    symmetry. apply (Nat.mod_unique _ _ ((k - i) / num)); lia.
  - intros <-.
    pose proof (Nat.div_mod_eq k num) as Hk.
    pose proof (Nat.mod_upper_bound k num ltac:(lia)).
    split; [lia|].
    symmetry. apply (Nat.mod_unique _ _ (k / num)); lia.
Qed.

(** A store at in-range indices succeeds; afterwards the indexed positions
    hold [v] and the others are as before. *)
Lemma put1_spec {A} idxs (v : A) :
  ∀ t, Forall (λ k, k < length t) idxs →
    ∃ t', put1 t idxs v = Ok t' ∧ length t' = length t ∧
          ∀ p, t' !! p = if decide (p ∈ idxs) then Some v else t !! p.
Proof.
  induction idxs as [|k idxs IH]; intros t Hin.
  - exists t. split_and!; [done|done|]. intros p.
    rewrite decide_False; [done|apply not_elem_of_nil].
  - apply Forall_cons in Hin as [Hk Hin]. cbn [put1].
    rewrite decide_True by done.
    destruct (IH (<[k:=v]> t)) as (t' & Hput & Hlen & Hget).
    { by rewrite length_insert. }
    exists t'. rewrite length_insert in Hlen. split_and!; [done|done|].
    intros p. rewrite Hget.
    destruct (decide (p ∈ idxs)) as [Hp|Hp].
    + rewrite decide_True; [done|by apply list_elem_of_further].
    + destruct (decide (p = k)) as [->|Hne].
      * rewrite decide_True by apply list_elem_of_here.
        by apply list_lookup_insert_eq.
      * rewrite decide_False by (rewrite elem_of_cons; intros [?|?]; done).
        by apply list_lookup_insert_ne.
Qed.

(** *** The assignment loop of [generate_table] *)

Section Assignment.
Variables (n num : nat) (rnd_idxs : list nat).
Hypothesis rnd_idxs_perm : rnd_idxs ≡ₚ seq 0 n.
Hypothesis num_pos : 0 < num.

Lemma rnd_idxs_bound p : p ∈ rnd_idxs → p < n.
Proof.
  rewrite rnd_idxs_perm. intros Hp%elem_of_seq. lia.
Qed.

Lemma rnd_idxs_NoDup : NoDup rnd_idxs.
Proof. rewrite rnd_idxs_perm. apply NoDup_seq. Qed.

Lemma assigned_init : assigned n num rnd_idxs 0 (replicate n 0%Z).
Proof.
  split; [apply length_replicate|]. intros k p Hk.
  rewrite decide_False by lia. apply lookup_replicate_2.
  by eapply rnd_idxs_bound, list_elem_of_lookup_2.
Qed.

Lemma assigned_step j table :
  j < num → assigned n num rnd_idxs j table →
  ∃ table', put1 table (slice_step j num rnd_idxs) (Z.of_nat j) = Ok table' ∧
            assigned n num rnd_idxs (S j) table'.
Proof.
  intros Hj [Hlen Hget].
  destruct (put1_spec (slice_step j num rnd_idxs) (Z.of_nat j) table)
    as (table' & Hput & Hlen' & Hget').
  { apply Forall_forall. intros p (k & Hk & _)%elem_of_slice_step.
    rewrite Hlen. by eapply rnd_idxs_bound, list_elem_of_lookup_2. }
  exists table'. split; [done|]. split; [congruence|].
  intros k p Hk. rewrite Hget'.
  pose proof (Nat.mod_upper_bound k num ltac:(lia)) as Hr.
  destruct (decide (p ∈ slice_step j num rnd_idxs)) as [Hin|Hnin].
  - apply elem_of_slice_step in Hin as (k' & Hk' & Hres).
    apply slice_step_residue in Hres; [|done].
    assert (k' = k) as -> by by eapply NoDup_lookup, Hk; [apply rnd_idxs_NoDup|].
    rewrite Hres. by rewrite decide_True by lia.
  - rewrite (Hget k p Hk).
    assert (k `mod` num ≠ j) as Hne.
    { intros Hres. apply Hnin, elem_of_slice_step. exists k.
      split; [done|]. by apply slice_step_residue. }
    repeat case_decide; (done || lia).
Qed.

Lemma assigned_loop m :
  ∀ j table,
    j + m ≤ num → assigned n num rnd_idxs j table →
    ∃ table',
      rfoldl (λ table i, put1 table (slice_step i num rnd_idxs) (Z.of_nat i))
        table (seq j m) = Ok table' ∧
      assigned n num rnd_idxs (j + m) table'.
Proof.
  induction m as [|m IH]; intros j table Hjm Hinv.
  - exists table. rewrite Nat.add_0_r. done.
  - cbn [seq rfoldl].
    destruct (assigned_step j table ltac:(lia) Hinv) as (table1 & -> & Hinv1).
    cbn [mbind result_bind].
    destruct (IH (S j) table1 ltac:(lia) Hinv1) as (table' & Hrun & Hinv').
    exists table'. split; [done|]. by replace (j + S m) with (S j + m) by lia.
Qed.

(** Once every strategy has been assigned, the table is the list of labels
    rearranged by the permutation. *)
Lemma assigned_all table : assigned n num rnd_idxs num table → table ≡ₚ labels n num.
Proof.
  intros [Hlen Hget].
  assert (Hlabels : labels n num = (λ p, default 0%Z (table !! p)) <$> rnd_idxs).
  { apply list_eq. intros k. unfold labels. rewrite !list_lookup_fmap.
    destruct (rnd_idxs !! k) as [p|] eqn:Hk; cbn.
    - rewrite (Hget k p Hk), lookup_seq_lt.
      + cbn. rewrite decide_True; [done|]. apply Nat.mod_upper_bound. lia.
      + apply lookup_lt_Some in Hk.
        by rewrite rnd_idxs_perm, length_seq in Hk.
    - rewrite lookup_seq_ge; [done|]. apply lookup_ge_None in Hk.
      by rewrite rnd_idxs_perm, length_seq in Hk. }
  rewrite Hlabels, rnd_idxs_perm.
  replace ((λ p, default 0%Z (table !! p)) <$> seq 0 n) with table; [done|].
  apply list_eq. intros k. rewrite list_lookup_fmap.
  destruct (decide (k < n)) as [Hk|Hk].
  - rewrite lookup_seq_lt by done. cbn.
    destruct (lookup_lt_is_Some_2 table k ltac:(lia)) as [v ->]. done.
  - rewrite lookup_seq_ge by lia. cbn. apply lookup_ge_None. lia.
Qed.

End Assignment.

Lemma ceil_div n num :
  0 < num →
  (n + num - 1) / num = n / num + (if decide (n `mod` num = 0) then 0 else 1).
Proof.
  intros Hnum.
  pose proof (Nat.div_mod_eq n num) as Hn.
  pose proof (Nat.mod_upper_bound n num ltac:(lia)) as Hr.
  case_decide; symmetry.
  - apply (Nat.div_unique _ _ _ (num - 1)); lia.
  - apply (Nat.div_unique _ _ _ (n `mod` num - 1)); lia.
Qed.

Section GenerateTable.
Context `{NumpyRandom}.

(** For non-negative sizes and at least one strategy [generate_table]
    returns; the table is the list of labels rearranged, and the generator
    is left where the permutation drawn after [seed(0)] leaves it. *)
Lemma generate_table_run size_x size_y num_strats g :
  (0 ≤ size_x)%Z → (0 ≤ size_y)%Z → (1 ≤ num_strats)%Z →
  ∃ a,
    generate_table size_x size_y num_strats g
      = Ok (a, (permutation (Z.to_nat (size_x * size_y)) (seed 0)).2) ∧
    shape0 a = Z.to_nat size_x ∧ shape1 a = Z.to_nat size_y ∧
    buffer a ≡ₚ labels (Z.to_nat (size_x * size_y)) (Z.to_nat num_strats).
Proof.
  intros HX HY HS. unfold generate_table, np_zeros1, range.
  assert (0 ≤ size_x * size_y)%Z as Hn by lia.
  rewrite decide_False by lia. cbn [mbind result_bind].
  pose proof (permutation_perm (Z.to_nat (size_x * size_y)) (seed 0)) as Hperm.
  destruct (permutation _ (seed 0)) as [rnd_idxs g1]. cbn [fst snd] in *.
  assert (0 < Z.to_nat num_strats) as Hnum by lia.
  destruct (assigned_loop _ (Z.to_nat num_strats) rnd_idxs Hperm Hnum
              (Z.to_nat num_strats) 0
              (replicate (Z.to_nat (size_x * size_y)) 0%Z)) as (table & -> & Hall).
  { lia. }
  { by apply assigned_init. }
  cbn [mbind result_bind Nat.add] in *.
  pose proof (assigned_all _ _ _ Hperm Hnum table Hall) as Hlabels.
  destruct Hall as [Hlen _].
  unfold np_reshape. rewrite Hlen.
  rewrite decide_False by lia. rewrite decide_False by lia.
  rewrite decide_False by lia. rewrite decide_True by lia.
  cbn [mbind result_bind]. eauto.
Qed.

End GenerateTable.

(** C6: for every [X ≥ 1], [Y ≥ 1] and strategy count [S ≥ 1],
    [generate_table] returns an [X] by [Y] table whose labels lie in
    [[0, S)], whose per-strategy counts sum to [X·Y], and in which strategy
    [i] occupies [⌊X·Y/S⌋] cells, plus one when [i < (X·Y) mod S]; so every
    count is [⌊X·Y/S⌋] or [⌈X·Y/S⌉]. *)
Theorem generate_table_balanced `{NumpyRandom} (X Y S : Z) g :
  (1 ≤ X)%Z → (1 ≤ Y)%Z → (1 ≤ S)%Z →
  let n := Z.to_nat (X * Y) in
  let num := Z.to_nat S in
  ∃ a g',
    generate_table X Y S g = Ok (a, g') ∧
    shape0 a = Z.to_nat X ∧ shape1 a = Z.to_nat Y ∧ well_formed a ∧
    Forall (λ v, 0 ≤ v < S)%Z (buffer a) ∧
    sum_list ((λ i, count_eq (Z.of_nat i) (buffer a)) <$> seq 0 num) = n ∧
    ∀ i, i < num →
      count_eq (Z.of_nat i) (buffer a)
        = n / num + (if decide (i < n `mod` num) then 1 else 0) ∧
      (count_eq (Z.of_nat i) (buffer a) = n / num ∨
       count_eq (Z.of_nat i) (buffer a) = (n + num - 1) / num).
Proof.
  intros HX HY HS n num.
  destruct (generate_table_run X Y S g ltac:(lia) ltac:(lia) HS)
    as (a & Hrun & HX' & HY' & Hperm).
  fold n num in Hperm.
  exists a, (permutation n (seed 0)).2.
  assert (0 < num) as Hnum by (unfold num; lia).
  split_and!; try done.
  - unfold well_formed. rewrite Hperm, HX', HY'. unfold labels.
    rewrite length_fmap, length_seq. unfold n. lia.
  - rewrite Hperm. eapply Forall_impl; [by apply labels_range|].
    intros v Hv. cbn in Hv. unfold num in Hv. lia.
  - rewrite (list_fmap_ext _ (λ i, count_eq (Z.of_nat i) (labels n num)) (seq 0 num)).
    + by apply labels_count_sum.
    + intros k i _. by apply count_eq_Permutation.
  - intros i Hi. rewrite (count_eq_Permutation _ _ _ Hperm).
    rewrite labels_count by done. split; [done|].
    rewrite ceil_div by done.
    pose proof (Nat.mod_upper_bound n num ltac:(lia)).
    repeat case_decide; lia.
Qed.

Lemma generate_table_balanced_witness :
  ∃ a g', @generate_table counter_random 10 10 3 7 = Ok (a, g') ∧
          count_eq 0 (buffer a) = 34 ∧ count_eq 2 (buffer a) = 33.
Proof.
  destruct (@generate_table_balanced counter_random 10 10 3 7
              ltac:(lia) ltac:(lia) ltac:(lia))
    as (a & g' & Hrun & _ & _ & _ & _ & _ & Hcount).
  exists a, g'. split; [exact Hrun|].
  split; [exact (proj1 (Hcount 0 ltac:(cbn; lia))) | exact (proj1 (Hcount 2 ltac:(cbn; lia)))].
Defined.

(** ** The sweep *)

Section Sweep.
Context `{NumpyRandom}.

(** The inner loop only appends to the history. *)
Lemma generations_prefix payoff nf mixed ns :
  ∀ table g table_all history g',
    generations payoff nf mixed ns table g table_all = Ok (history, g') →
    ∃ rest, history = table_all ++ rest ∧ length rest = length ns.
Proof.
  induction ns as [|n ns IH]; intros table g table_all history g' Hrun;
    cbn [generations] in Hrun.
  - injection Hrun as <- <-. exists []. by rewrite app_nil_r.
  - destruct (generation payoff nf mixed n table g) as [[table1 g1]|]; [|done].
    cbn [mbind result_bind] in Hrun.
    apply IH in Hrun as (rest & -> & Hlen).
    exists (table1 :: rest). rewrite <-app_assoc. cbn. by rewrite Hlen.
Qed.

(** A run starts with the table of [generate_table] and holds one table per
    generation after it. *)
Lemma run_history payoff size_x size_y num_strats G nf mixed g history g' :
  run payoff size_x size_y num_strats G nf mixed g = Ok (history, g') →
  ∃ table g1 rest,
    generate_table size_x size_y num_strats g = Ok (table, g1) ∧
    history = table :: rest ∧ length rest = length (range G).
Proof.
  unfold run.
  destruct (generate_table size_x size_y num_strats g) as [[table g1]|]; [|done].
  cbn [mbind result_bind]. intros (rest & -> & Hlen)%generations_prefix.
  by exists table, g1, rest.
Qed.

Lemma generate_table_reseeds size_x size_y num_strats g1 g2 :
  generate_table size_x size_y num_strats g1
  = generate_table size_x size_y num_strats g2.
Proof. done. Qed.

Lemma sweep_initial payoff_of beta_list size_x size_y num_strats G nf mixed :
  ∀ g table_m g' g0 table0 g1,
    sweep payoff_of beta_list size_x size_y num_strats G nf mixed g
      = Ok (table_m, g') →
    generate_table size_x size_y num_strats g0 = Ok (table0, g1) →
    length table_m = length beta_list ∧
    Forall (λ table_all, head table_all = Some table0) table_m.
Proof.
  induction beta_list as [|beta betas IH];
    intros g table_m g' g0 table0 g1 Hsweep Hgen; cbn [sweep] in Hsweep.
  - injection Hsweep as <- <-. by split.
  - destruct (run _ _ _ _ _ _ _ g) as [[table_all g2]|] eqn:Hrun; [|done].
    cbn [mbind result_bind] in Hsweep.
    destruct (sweep _ betas _ _ _ _ _ _ g2) as [[table_m' g3]|] eqn:Hrest; [|done].
    cbn [mbind result_bind] in Hsweep. injection Hsweep as <- <-.
    destruct (IH _ _ _ _ _ _ Hrest Hgen) as [Hlen Hheads].
    split; [cbn; by rewrite Hlen|].
    constructor; [|done].
    apply run_history in Hrun as (table & g4 & rest & Hgen' & -> & _).
    rewrite (generate_table_reseeds _ _ _ g g0), Hgen in Hgen'.
    by injection Hgen' as <- <-.
Qed.

End Sweep.

(** C9: [generate_table] has no seed argument and reseeds the generator
    with [0] whatever its state is, so two invocations with the same
    [(X, Y, S)] return the same table (and leave the generator in the same
    state); consequently every run of every sweep, for every [beta], starts
    from that one table. *)
Theorem initial_grid_fixed `{NumpyRandom} (X Y S : Z) :
  (∀ g1 g2, generate_table X Y S g1 = generate_table X Y S g2) ∧
  (∀ payoff_of beta_list G nf mixed g table_m g' g0 table0 g1,
     sweep payoff_of beta_list X Y S G nf mixed g = Ok (table_m, g') →
     generate_table X Y S g0 = Ok (table0, g1) →
     Forall (λ table_all, head table_all = Some table0) table_m).
Proof.
  split.
  - apply generate_table_reseeds.
  - intros ??????????? Hsweep Hgen.
    by destruct (sweep_initial _ _ _ _ _ _ _ _ _ _ _ _ _ _ Hsweep Hgen).
Qed.

Lemma initial_grid_fixed_witness :
  @generate_table counter_random 3 3 2 5 = @generate_table counter_random 3 3 2 42.
Proof. exact (proj1 (@initial_grid_fixed counter_random 3 3 2) 5 42). Defined.

(** ** What the engine accepts *)

Section Configuration.
Context `{NumpyRandom}.

(** The assignment loop succeeds for every strategy count, positive or
    not. *)
Lemma assignment_total n num_strats rnd_idxs :
  rnd_idxs ≡ₚ seq 0 n →
  ∃ table,
    rfoldl (λ table i,
        put1 table (slice_step i (Z.to_nat num_strats) rnd_idxs) (Z.of_nat i))
      (replicate n 0%Z) (range num_strats) = Ok table ∧
    length table = n.
Proof.
  intros Hperm. unfold range.
  destruct (decide (1 ≤ num_strats)%Z) as [HS|HS].
  - assert (0 < Z.to_nat num_strats) as Hnum by lia.
    destruct (assigned_loop n (Z.to_nat num_strats) rnd_idxs Hperm Hnum
                (Z.to_nat num_strats) 0 (replicate n 0%Z))
      as (table & Hrun & Hlen & _).
    { lia. }
    { by apply assigned_init. }
    by exists table.
  - replace (Z.to_nat num_strats) with 0 by lia.
    exists (replicate n 0%Z). split; [done|apply length_replicate].
Qed.

Lemma generate_table_total size_x size_y num_strats g :
  (0 ≤ size_x)%Z → (0 ≤ size_y)%Z →
  ∃ a g', generate_table size_x size_y num_strats g = Ok (a, g') ∧
          shape0 a = Z.to_nat size_x ∧ shape1 a = Z.to_nat size_y ∧
          well_formed a.
Proof.
  intros HX HY. unfold generate_table, np_zeros1.
  assert (0 ≤ size_x * size_y)%Z as Hn by lia.
  rewrite decide_False by lia. cbn [mbind result_bind].
  pose proof (permutation_perm (Z.to_nat (size_x * size_y)) (seed 0)) as Hperm.
  destruct (permutation _ (seed 0)) as [rnd_idxs g1]. cbn [fst] in Hperm.
  destruct (assignment_total _ num_strats rnd_idxs Hperm) as (table & -> & Hlen).
  cbn [mbind result_bind]. unfold np_reshape. rewrite Hlen.
  rewrite decide_False by lia. rewrite decide_False by lia.
  rewrite decide_False by lia. rewrite decide_True by lia.
  cbn [mbind result_bind]. eexists _, _. split_and!; [done|done|done|].
  unfold well_formed. cbn [buffer shape0 shape1]. lia.
Qed.

Lemma generate_table_negative size_x size_y num_strats g :
  (size_x < 0)%Z ∨ (size_y < 0)%Z →
  generate_table size_x size_y num_strats g = Raise ValueError.
Proof.
  intros Hneg. unfold generate_table, np_zeros1.
  destruct (decide (size_x * size_y < 0)%Z) as [|Hn]; [done|].
  cbn [mbind result_bind].
  pose proof (permutation_perm (Z.to_nat (size_x * size_y)) (seed 0)) as Hperm.
  destruct (permutation _ (seed 0)) as [rnd_idxs g1]. cbn [fst] in Hperm.
  destruct (assignment_total _ num_strats rnd_idxs Hperm) as (table & -> & Hlen).
  cbn [mbind result_bind]. unfold np_reshape.
  destruct (decide (size_x < 0 ∧ size_y < 0)%Z) as [|Hboth]; [done|].
  destruct (decide (size_x < 0)%Z) as [HX|HX].
  - rewrite decide_False; [done|]. intros [HY _]. nia.
  - rewrite decide_True by lia. rewrite decide_False; [done|].
    intros [HX0 _]. nia.
Qed.

(** A matrix at least as large as the strategy count answers every lookup
    of two labels in range. *)
Lemma payoff_lookup_in_range (payoff_mat : ndarray float) s n :
  well_formed payoff_mat →
  (0 ≤ s < Z.of_nat (shape0 payoff_mat))%Z →
  (0 ≤ n < Z.of_nat (shape1 payoff_mat))%Z →
  ∃ p, getitem payoff_mat (s, n) = Ok p.
Proof.
  intros Hwf Hs Hn.
  rewrite <-(Z2Nat.id s), <-(Z2Nat.id n) by lia.
  rewrite getitem_nat by lia.
  destruct (lookup_lt_is_Some_2 (buffer payoff_mat)
              (Z.to_nat s * shape1 payoff_mat + Z.to_nat n)) as [p ->]; [|eauto].
  rewrite Hwf. nia.
Qed.

(** A label at or beyond the size of the matrix is an [IndexError] at the
    lookup. *)
Lemma payoff_lookup_out_of_range (payoff_mat : ndarray float) s n :
  (Z.of_nat (shape0 payoff_mat) ≤ s)%Z ∨ (Z.of_nat (shape1 payoff_mat) ≤ n)%Z →
  getitem payoff_mat (s, n) = Raise IndexError.
Proof.
  intros Hout. unfold getitem. cbn [fst snd].
  destruct (np_index (shape0 payoff_mat) s) as [r|[]] eqn:Hr; cbn [mbind result_bind].
  - destruct Hout as [Hs|Hn].
    + unfold np_index in Hr. repeat case_decide; (done || lia).
    + unfold np_index. rewrite decide_False by lia. by rewrite decide_False by lia.
  - done.
  - unfold np_index in Hr. repeat case_decide; done.
Qed.

Lemma rmapM_raise {A B} (f : A → result B) l k x e :
  l !! k = Some x → f x = Raise e → ∃ e', rmapM f l = Raise e'.
Proof.
  revert k. induction l as [|y l IH]; intros k Hk Hx; [done|].
  cbn [rmapM]. destruct k as [|k]; cbn in Hk.
  - injection Hk as ->. rewrite Hx. eauto.
  - destruct (f y) as [z|e1]; [|eauto]. cbn [mbind result_bind].
    destruct (IH k Hk Hx) as [e' ->]. eauto.
Qed.

(** A cell whose fitness cannot be computed fails the whole generation. *)
Lemma failing_cell_fails_iterate table payoff_mat nf g i j e :
  i < shape0 table → j < shape1 table →
  cell_fitness table payoff_mat nf i j = Raise e →
  ∃ e', iterate table payoff_mat nf g = Raise e'.
Proof.
  intros Hi Hj Hcell. rewrite iterate_run. unfold fitness_field.
  destruct (rmapM_raise (λ j, cell_fitness table payoff_mat nf i j)
              (seq 0 (shape1 table)) j j e) as [e1 Hrow]; [|done|].
  { by apply lookup_seq_lt. }
  destruct (rmapM_raise
              (λ i, rmapM (λ j, cell_fitness table payoff_mat nf i j)
                      (seq 0 (shape1 table)))
              (seq 0 (shape0 table)) i i e1) as [e2 ->]; [|done|].
  { by apply lookup_seq_lt. }
  eauto.
Qed.

(** A cell whose strategy lies beyond the payoff matrix, and that has a
    neighbour, fails with the [IndexError] of its first payoff lookup. *)
Lemma cell_fitness_out_of_range table payoff_mat nf i j current neighs c s n ns :
  nf (Z.of_nat i) (Z.of_nat j) (Z.of_nat (shape0 table)) (Z.of_nat (shape1 table))
    = (current, neighs) →
  getitem1 current 0 = Ok c →
  getitem table c = Ok s →
  take_coords table neighs = Ok (n :: ns) →
  (Z.of_nat (shape0 payoff_mat) ≤ s)%Z →
  cell_fitness table payoff_mat nf i j = Raise IndexError.
Proof.
  intros Hnf Hc Hs Hns Hout. unfold cell_fitness.
  rewrite Hnf, Hc. cbn [mbind result_bind]. rewrite Hs. cbn [mbind result_bind].
  rewrite Hns. cbn [mbind result_bind]. unfold payoffs. cbn [rmapM].
  by rewrite payoff_lookup_out_of_range by auto.
Qed.

Lemma run_no_generation payoff size_x size_y num_strats G nf mixed g :
  (G ≤ 0)%Z →
  run payoff size_x size_y num_strats G nf mixed g
  = ('(table, g1) ← generate_table size_x size_y num_strats g; Ok ([table], g1)).
Proof.
  intros HG. unfold run, range. replace (Z.to_nat G) with 0 by lia.
  by destruct (generate_table size_x size_y num_strats g) as [[table g1]|].
Qed.

End Configuration.

(** C10 (as amended): the engine has no configuration check of its own.
    [generate_table] fails exactly when a grid dimension is negative, with
    the [ValueError] numpy raises; a zero dimension and every strategy count
    are accepted. A payoff matrix at least as large as the strategy count
    answers every lookup, whatever its size; a cell whose strategy lies
    beyond the matrix fails with the [IndexError] of its payoff lookup, in
    the fitness pass, and with it the generation. An empty [beta] list gives
    an empty sweep and a generation count that is zero or negative gives a
    run holding only the initial table, both without error. *)
Theorem configuration_unchecked `{NumpyRandom} :
  (∀ X Y S g, (0 ≤ X)%Z → (0 ≤ Y)%Z →
     ∃ a g', generate_table X Y S g = Ok (a, g') ∧
             shape0 a = Z.to_nat X ∧ shape1 a = Z.to_nat Y ∧ well_formed a) ∧
  (∀ X Y S g, (X < 0)%Z ∨ (Y < 0)%Z →
     generate_table X Y S g = Raise ValueError) ∧
  (∀ (payoff_mat : ndarray float) s n,
     well_formed payoff_mat →
     (0 ≤ s < Z.of_nat (shape0 payoff_mat))%Z →
     (0 ≤ n < Z.of_nat (shape1 payoff_mat))%Z →
     ∃ p, getitem payoff_mat (s, n) = Ok p) ∧
  (∀ table payoff_mat nf g i j current neighs c s n ns,
     i < shape0 table → j < shape1 table →
     nf (Z.of_nat i) (Z.of_nat j)
        (Z.of_nat (shape0 table)) (Z.of_nat (shape1 table)) = (current, neighs) →
     getitem1 current 0 = Ok c →
     getitem table c = Ok s →
     take_coords table neighs = Ok (n :: ns) →
     (Z.of_nat (shape0 payoff_mat) ≤ s)%Z →
     cell_fitness table payoff_mat nf i j = Raise IndexError ∧
     ∃ e, iterate table payoff_mat nf g = Raise e) ∧
  (∀ payoff_of X Y S G nf mixed g,
     sweep payoff_of [] X Y S G nf mixed g = Ok ([], g)) ∧
  (∀ payoff X Y S G nf mixed g, (G ≤ 0)%Z →
     run payoff X Y S G nf mixed g
     = ('(table, g1) ← generate_table X Y S g; Ok ([table], g1))).
Proof.
  split_and!.
  - intros. by apply generate_table_total.
  - intros. by apply generate_table_negative.
  - intros. by apply payoff_lookup_in_range.
  - intros table payoff_mat nf g i j current neighs c s n ns Hi Hj Hnf Hc Hs Hns Hout.
    pose proof (cell_fitness_out_of_range _ _ _ _ _ _ _ _ _ _ _ Hnf Hc Hs Hns Hout)
      as Hcell.
    split; [done|]. by eapply failing_cell_fails_iterate.
  - done.
  - intros. by apply run_no_generation.
Qed.

Lemma configuration_unchecked_witness :
  @generate_table counter_random (-1) 3 2 0 = Raise ValueError.
Proof.
  destruct (@configuration_unchecked counter_random) as (_ & Hneg & _).
  apply Hneg. left. lia.
Defined.

(** C10 (as stated) fails: a grid with a side of zero, five strategies, a
    three by three payoff matrix on a two-strategy table, an empty [beta]
    list and a negative generation count all go through without an error. *)
Lemma configuration_accepted :
  @generate_table counter_random 0 3 2 0 = Ok (NdArray 0 3 [], 1) ∧
  @generate_table counter_random 3 3 5 0
    = Ok (NdArray 3 3 [0; 1; 2; 3; 4; 0; 1; 2; 3]%Z, 1) ∧
  @iterate counter_random sample_table (payoff_retaliator 1.5 0)
      moore_neighbourhood 0
    = Ok (NdArray 3 3 (replicate 9 0%Z), 9) ∧
  @sweep counter_random payoff_hawk_dove [] 3 3 2 175 moore_neighbourhood false 0
    = Ok ([], 0) ∧
  @run counter_random (payoff_hawk_dove 1.5) 3 3 2 (-5) moore_neighbourhood false 0
    = Ok ([NdArray 3 3 [0; 1; 0; 1; 0; 1; 0; 1; 0]%Z], 1).
Proof. split_and!; vm_compute; reflexivity. Qed.

(** ** The occupation fractions *)

(** C2 fails on the code in both aggregation cells. In the two-strategy
    cell, a final table without hawks is reported as all hawks, because
    [counts[0]] is the count of the smallest label present. In the
    three-strategy cell, with window 1, the table read is generation 1 and
    not the final generation. The specified value is 0 in both cases. *)
Theorem aggregation_divergence :
  TwoStrategy.hawk_fractions_row [sample_table; all_doves] 1 = Ok [1%float] ∧
  last_fractions 0 [sample_table; all_doves] 1 = [0%float] ∧
  ThreeStrategy.fractions_row 0 [sample_table; all_hawks; all_doves] 1
    = Ok [1%float] ∧
  last_fractions 0 [sample_table; all_hawks; all_doves] 1 = [0%float].
Proof. split_and!; vm_compute; reflexivity. Qed.

(** * Further properties of the code *)

(** ** The neighbourhood relation *)

Lemma np_mod_back_succ x X :
  (0 ≤ x < X)%Z → np_mod (np_mod (x - 1) X + 1) X = x.
Proof.
  intros Hx. unfold np_mod. rewrite !decide_False by lia.
  rewrite Zplus_mod_idemp_l. replace (x - 1 + 1)%Z with x by lia.
  by apply Z.mod_small.
Qed.

Lemma np_mod_back_pred x X :
  (0 ≤ x < X)%Z → np_mod (np_mod (x + 1) X - 1) X = x.
Proof.
  intros Hx. unfold np_mod. rewrite !decide_False by lia.
  rewrite Zminus_mod_idemp_l. replace (x + 1 - 1)%Z with x by lia.
  by apply Z.mod_small.
Qed.

Lemma np_mod_back x X : (0 ≤ x < X)%Z → np_mod (np_mod x X) X = x.
Proof. intros Hx. by rewrite !(np_mod_small x X) by done. Qed.

Ltac find_member :=
  rewrite ?elem_of_cons;
  repeat first [left; reflexivity | right].

(** X1: on the torus, being a neighbour is mutual: if [c] is a Moore
    (Von Neumann) neighbour of a cell of the grid, that cell is a Moore
    (Von Neumann) neighbour of [c]; and every Von Neumann neighbour is a
    Moore neighbour. *)
Theorem neighbours_mutual x y X Y c :
  in_grid X Y (x, y) →
  (c ∈ (moore_neighbourhood x y X Y).2 →
     (x, y) ∈ (moore_neighbourhood c.1 c.2 X Y).2) ∧
  (c ∈ (von_neumann_neighbourhood x y X Y).2 →
     (x, y) ∈ (von_neumann_neighbourhood c.1 c.2 X Y).2) ∧
  (c ∈ (von_neumann_neighbourhood x y X Y).2 →
     c ∈ (moore_neighbourhood x y X Y).2).
Proof.
  intros [Hx Hy]. cbn [fst snd] in Hx, Hy.
  unfold moore_neighbourhood, von_neumann_neighbourhood.
  cbn [snd fmap list_fmap]. split_and!.
  - rewrite !elem_of_cons, elem_of_nil.
    intros [->|[->|[->|[->|[->|[->|[->|[->|[]]]]]]]]];
      unfold wrap; cbn [fst snd];
      rewrite ?(np_mod_back_succ x X), ?(np_mod_back_succ y Y),
        ?(np_mod_back_pred x X), ?(np_mod_back_pred y Y),
        ?(np_mod_back x X), ?(np_mod_back y Y) by done;
      find_member.
  - rewrite !elem_of_cons, elem_of_nil.
    intros [->|[->|[->|[->|[]]]]];
      unfold wrap; cbn [fst snd];
      rewrite ?(np_mod_back_succ x X), ?(np_mod_back_succ y Y),
        ?(np_mod_back_pred x X), ?(np_mod_back_pred y Y),
        ?(np_mod_back x X), ?(np_mod_back y Y) by done;
      find_member.
  - rewrite !elem_of_cons, elem_of_nil.
    intros [->|[->|[->|[->|[]]]]]; find_member.
Qed.

Lemma neighbours_mutual_witness :
  (0, 0)%Z ∈ (moore_neighbourhood 9 9 10 10)%Z.2 ∧
  (9, 9)%Z ∈ (moore_neighbourhood 0 0 10 10)%Z.2.
Proof.
  assert (Hin : (0, 0)%Z ∈ (moore_neighbourhood 9 9 10 10)%Z.2).
  { unfold moore_neighbourhood. cbn [snd fmap list_fmap].
    rewrite !elem_of_cons. vm_compute. auto 10. }
  split; [exact Hin|].
  exact (proj1 (neighbours_mutual 9 9 10 10 (0, 0)%Z ltac:(split; cbn; lia)) Hin).
Defined.

(** ** When the fitness pass cannot fail *)

Lemma getitem_in_grid {A} (a : ndarray A) c :
  well_formed a →
  in_grid (Z.of_nat (shape0 a)) (Z.of_nat (shape1 a)) c →
  ∃ v, getitem a c = Ok v.
Proof.
  intros Hwf [Hr Hk]. destruct c as [r k]. cbn [fst snd] in Hr, Hk.
  rewrite <-(Z2Nat.id r), <-(Z2Nat.id k) by lia.
  rewrite getitem_nat by lia.
  destruct (lookup_lt_is_Some_2 (buffer a)
              (Z.to_nat r * shape1 a + Z.to_nat k)) as [v ->]; [|eauto].
  rewrite Hwf. nia.
Qed.

Lemma rmapM_total {A B} (f : A → result B) (P : B → Prop) l :
  Forall (λ x, ∃ y, f x = Ok y ∧ P y) l →
  ∃ ys, rmapM f l = Ok ys ∧ Forall P ys.
Proof.
  induction 1 as [|x l (y & Hy & HP) _ (ys & Hys & HPs)]; cbn [rmapM].
  - by exists [].
  - rewrite Hy. cbn [mbind result_bind]. rewrite Hys. cbn [mbind result_bind].
    exists (y :: ys). split; [done|]. by constructor.
Qed.

Lemma take_coords_total {A} (a : ndarray A) idxs :
  well_formed a →
  Forall (in_grid (Z.of_nat (shape0 a)) (Z.of_nat (shape1 a))) idxs →
  ∃ vs, take_coords a idxs = Ok vs ∧ Forall (λ v, v ∈ buffer a) vs.
Proof.
  intros Hwf Hin. apply rmapM_total.
  eapply Forall_impl; [exact Hin|]. intros c Hc. cbn.
  destruct (getitem_in_grid a c Hwf Hc) as [v Hv].
  exists v. split; [done|]. by eapply getitem_elem_of.
Qed.

(** What the two neighbourhood functions return at a cell of the grid. *)
Lemma standard_neighbourhood nf (i j X Y : nat) :
  nf = moore_neighbourhood ∨ nf = von_neumann_neighbourhood →
  i < X → j < Y →
  ∃ neighs,
    nf (Z.of_nat i) (Z.of_nat j) (Z.of_nat X) (Z.of_nat Y)
      = ([(Z.of_nat i, Z.of_nat j)], neighs) ∧
    Forall (in_grid (Z.of_nat X) (Z.of_nat Y)) neighs ∧
    in_grid (Z.of_nat X) (Z.of_nat Y) (Z.of_nat i, Z.of_nat j).
Proof.
  intros Hnf Hi Hj.
  assert (in_grid (Z.of_nat X) (Z.of_nat Y) (Z.of_nat i, Z.of_nat j))
    by (split; cbn; lia).
  destruct Hnf as [-> | ->]; eexists; (split; [reflexivity|]); split; try done.
  - apply (moore_in_grid (Z.of_nat i) (Z.of_nat j)); lia.
  - apply (von_neumann_in_grid (Z.of_nat i) (Z.of_nat j)); lia.
Qed.

Lemma getitem1_head {A} (x : A) l : getitem1 (x :: l) 0 = Ok x.
Proof. exact (getitem1_nat (x :: l) 0 x eq_refl). Qed.

Section FitnessTotal.
Context `{NumpyRandom}.
Variables (table : ndarray Z) (payoff_mat : ndarray float) (nf : neighbourhood_func).
Hypothesis standard : nf = moore_neighbourhood ∨ nf = von_neumann_neighbourhood.
Hypothesis table_wf : well_formed table.
Hypothesis payoff_wf : well_formed payoff_mat.
Hypothesis labels_in_matrix :
  Forall (λ v, 0 ≤ v < Z.of_nat (shape0 payoff_mat) ∧
               v < Z.of_nat (shape1 payoff_mat))%Z (buffer table).

Lemma cell_fitness_total i j :
  i < shape0 table → j < shape1 table →
  ∃ v, cell_fitness table payoff_mat nf i j = Ok v.
Proof.
  intros Hi Hj. unfold cell_fitness.
  destruct (standard_neighbourhood nf i j _ _ standard Hi Hj)
    as (neighs & -> & Hneighs & Hself).
  rewrite getitem1_head. cbn [mbind result_bind].
  destruct (getitem_in_grid table _ table_wf Hself) as [s Hs].
  rewrite Hs. cbn [mbind result_bind].
  destruct (take_coords_total table neighs table_wf Hneighs) as (ns & -> & Hns).
  cbn [mbind result_bind].
  rewrite Forall_forall in labels_in_matrix.
  pose proof (labels_in_matrix s (getitem_elem_of _ _ _ Hs)) as Hsr.
  destruct (rmapM_total (λ n, getitem payoff_mat (s, n)) (λ _, True) ns)
    as (ps & Hps & _).
  { eapply Forall_impl; [exact Hns|]. intros n Hn. cbn.
    pose proof (labels_in_matrix n Hn) as Hnr.
    destruct (payoff_lookup_in_range payoff_mat s n payoff_wf) as [p Hp];
      [lia|lia|]. eauto. }
  unfold payoffs. rewrite Hps. cbn [mbind result_bind]. eauto.
Qed.

Lemma fitness_field_total :
  ∃ fit, fitness_field table payoff_mat nf = Ok fit.
Proof.
  unfold fitness_field.
  destruct (rmapM_total
    (λ i, rmapM (λ j, cell_fitness table payoff_mat nf i j) (seq 0 (shape1 table)))
    (λ _, True) (seq 0 (shape0 table))) as (rows & -> & _); [|cbn; eauto].
  apply Forall_forall. intros i Hi%elem_of_seq.
  destruct (rmapM_total (λ j, cell_fitness table payoff_mat nf i j)
              (λ _, True) (seq 0 (shape1 table))) as (row & Hrow & _); [|eauto].
  apply Forall_forall. intros j Hj%elem_of_seq.
  destruct (cell_fitness_total i j) as [v Hv]; [lia|lia|]. eauto.
Qed.

End FitnessTotal.

(** ** Success and failure of a generation *)

Lemma getitem1_raise {A} (l : list A) k e : getitem1 l k = Raise e → e = IndexError.
Proof.
  unfold getitem1, np_index. repeat case_decide; cbn [mbind result_bind];
    try destruct (l !! _); congruence.
Qed.

Lemma getitem_raise {A} (a : ndarray A) c e : getitem a c = Raise e → e = IndexError.
Proof.
  unfold getitem, np_index.
  repeat case_decide; cbn [mbind result_bind];
    try destruct (buffer a !! _); congruence.
Qed.

Lemma rmapM_raise_only {A B} (f : A → result B) l E e :
  (∀ x e, f x = Raise e → e = E) → rmapM f l = Raise e → e = E.
Proof.
  intros Hf. induction l as [|x l IH]; cbn [rmapM]; [done|].
  destruct (f x) as [y|e1] eqn:Hx; cbn [mbind result_bind].
  - destruct (rmapM f l) as [ys|e2]; cbn [mbind result_bind]; [done|].
    intros [= <-]. by apply IH.
  - intros [= <-]. by eapply Hf.
Qed.

Lemma rmapS_total {St A B} (f : A → St → result (B * St)) l :
  (∀ x, x ∈ l → ∀ s, ∃ y s', f x s = Ok (y, s')) →
  ∀ s, ∃ ys s', rmapS f l s = Ok (ys, s').
Proof.
  induction l as [|x l IH]; intros Hf s; cbn [rmapS]; [eauto|].
  destruct (Hf x (list_elem_of_here _ _) s) as (y & s1 & ->).
  cbn [mbind result_bind].
  destruct (IH (λ x' Hx', Hf x' (list_elem_of_further _ _ _ Hx')) s1)
    as (ys & s2 & ->).
  cbn [mbind result_bind]. eauto.
Qed.

Lemma rmapS_raise_only {St A B} (f : A → St → result (B * St)) l E :
  (∀ x s e, x ∈ l → f x s = Raise e → e = E) →
  ∀ s e, rmapS f l s = Raise e → e = E.
Proof.
  induction l as [|x l IH]; intros Hf s e; cbn [rmapS]; [done|].
  destruct (f x s) as [[y s1]|e1] eqn:Hx; cbn [mbind result_bind].
  - destruct (rmapS f l s1) as [[ys s2]|e2] eqn:Hl; cbn [mbind result_bind]; [done|].
    intros [= <-]. eapply IH; [|exact Hl].
    intros x' s' e' Hx'. apply Hf. by apply list_elem_of_further.
  - intros [= <-]. eapply Hf; [apply list_elem_of_here|exact Hx].
Qed.

(** If one entry fails from every state, and failures are always [E], the
    whole traversal fails with [E]. *)
Lemma rmapS_raise {St A B} (f : A → St → result (B * St)) l E x :
  (∀ x s e, x ∈ l → f x s = Raise e → e = E) →
  x ∈ l → (∀ s, f x s = Raise E) →
  ∀ s, rmapS f l s = Raise E.
Proof.
  induction l as [|y l IH]; intros Hf Hin Hx s; [by apply elem_of_nil in Hin|].
  cbn [rmapS]. destruct (f y s) as [[z s1]|e1] eqn:Hy; cbn [mbind result_bind].
  - apply elem_of_cons in Hin as [->|Hin]; [by rewrite Hx in Hy|].
    rewrite IH; [done| |done|done].
    intros x' s' e' Hx'. apply Hf. by apply list_elem_of_further.
  - f_equal. eapply Hf; [apply list_elem_of_here|exact Hy].
Qed.

Section Generation.
Context `{NumpyRandom}.

Lemma pick_elem max_idx g k g' : pick max_idx g = Ok (k, g') → k ∈ max_idx.
Proof.
  unfold pick. destruct (permutation _ g) as [perm g1].
  destruct (getitem1 perm 0) as [rnd_idx|]; [|done]. cbn [mbind result_bind].
  destruct (getitem1 max_idx _) as [k'|] eqn:Hk; [|done]. cbn [mbind result_bind].
  intros [= <- <-]. by eapply getitem1_elem_of.
Qed.

Lemma pick_raise max_idx g e : pick max_idx g = Raise e → e = IndexError.
Proof.
  unfold pick. destruct (permutation _ g) as [perm g1].
  destruct (getitem1 perm 0) as [rnd_idx|] eqn:Hr; cbn [mbind result_bind].
  - destruct (getitem1 max_idx _) as [k'|] eqn:Hk; cbn [mbind result_bind]; [done|].
    intros [= <-]. by eapply getitem1_raise.
  - intros [= <-]. by eapply getitem1_raise.
Qed.

(** With a single tied position nothing is left to chance. *)
Lemma pick_singleton k g : pick [k] g = Ok (k, (permutation 1 g).2).
Proof.
  unfold pick. cbn [length].
  pose proof (permutation_perm 1 g) as Hperm.
  destruct (permutation 1 g) as [perm g1]. cbn [fst snd] in *.
  change (seq 0 1) with [0] in Hperm.
  apply Permutation_singleton_r in Hperm as ->. done.
Qed.

Lemma getitem1_lookup {A} (l : list A) k x :
  getitem1 l (Z.of_nat k) = Ok x → l !! k = Some x.
Proof.
  unfold getitem1, np_index. repeat case_decide; cbn [mbind result_bind]; try done.
  - rewrite Nat2Z.id. destruct (l !! k); congruence.
  - lia.
Qed.

(** The strategy chosen for a cell comes from a position whose fitness
    [np.isclose] reports equal to the maximum over the cell and its
    neighbours: one of the values read, that no value read exceeds. *)
Lemma cell_choice_best table fit nf i j g v g' :
  cell_choice table fit nf i j g = Ok (v, g') →
  let n := nf (Z.of_nat i) (Z.of_nat j)
              (Z.of_nat (shape0 table)) (Z.of_nat (shape1 table)) in
  ∃ neighs_s max_val k c s,
    take_coords fit (n.1 ++ n.2) = Ok neighs_s ∧
    np_max neighs_s = Ok max_val ∧
    max_val ∈ neighs_s ∧
    PrimFloat.is_nan max_val = false ∧
    Forall (λ s', PrimFloat.is_nan s' = false ∧ PrimFloat.leb s' max_val = true)
      neighs_s ∧
    (n.1 ++ n.2) !! k = Some c ∧
    neighs_s !! k = Some s ∧
    getitem fit c = Ok s ∧
    isclose s max_val = true ∧
    getitem table c = Ok v.
Proof.
  unfold cell_choice. destruct (nf _ _ _ _) as [current neighs]. cbv zeta.
  cbn [fst snd].
  destruct (take_coords fit _) as [neighs_s|] eqn:Hfit; [|done].
  cbn [mbind result_bind].
  destruct (np_max neighs_s) as [max_val|] eqn:Hmax; [|done].
  cbn [mbind result_bind].
  destruct (pick _ g) as [[k g1]|] eqn:Hpick; [|done]. cbn [mbind result_bind].
  destruct (getitem1 (current ++ neighs) _) as [c|] eqn:Hc; [|done].
  cbn [mbind result_bind].
  destruct (getitem table c) as [v'|] eqn:Hv; [|done]. cbn [mbind result_bind].
  intros [= <- <-].
  apply pick_elem, elem_of_tie_set in Hpick as (s & Hs & Hclose).
  apply getitem1_lookup in Hc.
  destruct (rmapM_lookup _ _ _ _ _ Hfit Hc) as (s' & Hs' & Hget).
  assert (s' = s) as -> by congruence.
  assert (PrimFloat.is_nan max_val = false) as Hnan.
  { destruct (PrimFloat.is_nan max_val) eqn:Hn; [|done].
    by rewrite isclose_nan_r in Hclose. }
  exists neighs_s, max_val, k, c, s. split_and!; try done.
  - by apply np_max_elem.
  - by apply np_max_upper.
Qed.

Lemma cell_choice_total table fit nf i j g current neighs neighs_s strategies :
  nf (Z.of_nat i) (Z.of_nat j) (Z.of_nat (shape0 table)) (Z.of_nat (shape1 table))
    = (current, neighs) →
  take_coords fit (current ++ neighs) = Ok neighs_s →
  take_coords table (current ++ neighs) = Ok strategies →
  current ++ neighs ≠ [] →
  Forall (λ s, PrimFloat.is_nan s = false) neighs_s →
  ∃ v g', cell_choice table fit nf i j g = Ok (v, g').
Proof.
  intros Hnf Hfit Htable Hne Hnan.
  assert (Hlen_s : length neighs_s = length (current ++ neighs))
    by by eapply rmapM_length.
  assert (neighs_s ≠ []) as Hne_s
    by (destruct neighs_s, (current ++ neighs); done).
  destruct (np_max_nonempty neighs_s Hne_s) as [max_val Hmax].
  unfold cell_choice. rewrite Hnf. cbv zeta.
  rewrite Hfit. cbn [mbind result_bind]. rewrite Hmax. cbn [mbind result_bind].
  pose proof (np_max_elem _ _ Hmax) as Hin.
  assert (Hmax_ok : PrimFloat.is_nan max_val = false)
    by by eapply (proj1 (Forall_forall _ _) Hnan).
  assert (Htie : tie_set neighs_s max_val ≠ []).
  { apply list_elem_of_lookup in Hin as [k0 Hk0].
    assert (k0 ∈ tie_set neighs_s max_val) as Hk0in.
    { apply elem_of_tie_set. exists max_val. split; [done|].
      by apply isclose_refl. }
    intros Hnil. rewrite Hnil in Hk0in. by apply elem_of_nil in Hk0in. }
  destruct (pick_nonempty _ g Htie) as (k & g' & -> & Hk).
  cbn [mbind result_bind].
  apply elem_of_tie_set in Hk as (s & Hs & _).
  assert (is_Some ((current ++ neighs) !! k)) as [c Hc].
  { apply lookup_lt_is_Some. rewrite <-Hlen_s. by eapply lookup_lt_Some. }
  destruct (rmapM_lookup _ _ _ _ _ Htable Hc) as (v & Hv & Hget).
  rewrite (getitem1_nat _ k c Hc). cbn [mbind result_bind].
  rewrite Hget. cbn [mbind result_bind]. eauto.
Qed.

Lemma cell_choice_nan table fit nf i j g current neighs neighs_s :
  nf (Z.of_nat i) (Z.of_nat j) (Z.of_nat (shape0 table)) (Z.of_nat (shape1 table))
    = (current, neighs) →
  take_coords fit (current ++ neighs) = Ok neighs_s →
  Exists (λ s, PrimFloat.is_nan s = true) neighs_s →
  cell_choice table fit nf i j g = Raise IndexError.
Proof.
  intros Hnf Hfit Hex.
  destruct neighs_s as [|s0 neighs_s']; [by apply Exists_nil in Hex|].
  unfold cell_choice. rewrite Hnf. cbv zeta. rewrite Hfit.
  cbn [mbind result_bind np_max].
  rewrite tie_set_nan by by apply foldl_np_maximum_nan.
  by rewrite pick_empty.
Qed.

Lemma cell_choice_raise table fit nf i j g e :
  (nf (Z.of_nat i) (Z.of_nat j) (Z.of_nat (shape0 table))
      (Z.of_nat (shape1 table))).1 ≠ [] →
  cell_choice table fit nf i j g = Raise e → e = IndexError.
Proof.
  unfold cell_choice. destruct (nf _ _ _ _) as [current neighs]. cbv zeta.
  cbn [fst]. intros Hcur.
  destruct (take_coords fit _) as [neighs_s|e1] eqn:Hfit; cbn [mbind result_bind].
  2:{ intros [= <-]. eapply rmapM_raise_only; [|exact Hfit].
      intros c e'. apply getitem_raise. }
  destruct (np_max neighs_s) as [max_val|e1] eqn:Hmax; cbn [mbind result_bind].
  2:{ apply rmapM_length in Hfit. destruct neighs_s; [|done].
      destruct current; done. }
  destruct (pick _ g) as [[k g1]|e1] eqn:Hpick; cbn [mbind result_bind].
  2:{ intros [= <-]. by eapply pick_raise. }
  destruct (getitem1 (current ++ neighs) _) as [c|e1] eqn:Hc; cbn [mbind result_bind].
  2:{ intros [= <-]. by eapply getitem1_raise. }
  destruct (getitem table c) as [v'|e1] eqn:Hv; cbn [mbind result_bind]; [done|].
  intros [= <-]. by eapply getitem_raise.
Qed.

End Generation.

Section GenerationTotal.
Context `{NumpyRandom}.
Variables (table : ndarray Z) (payoff_mat : ndarray float) (nf : neighbourhood_func).
Variable fit : ndarray float.
Hypothesis standard : nf = moore_neighbourhood ∨ nf = von_neumann_neighbourhood.
Hypothesis table_wf : well_formed table.
Hypothesis fit_ok : fitness_field table payoff_mat nf = Ok fit.

Lemma cell_reads i j :
  i < shape0 table → j < shape1 table →
  ∃ neighs s neighs_s strategies,
    nf (Z.of_nat i) (Z.of_nat j) (Z.of_nat (shape0 table)) (Z.of_nat (shape1 table))
      = ([(Z.of_nat i, Z.of_nat j)], neighs) ∧
    getitem fit (Z.of_nat i, Z.of_nat j) = Ok s ∧
    take_coords fit ((Z.of_nat i, Z.of_nat j) :: neighs) = Ok (s :: neighs_s) ∧
    Forall (λ v, v ∈ buffer fit) (s :: neighs_s) ∧
    take_coords table ((Z.of_nat i, Z.of_nat j) :: neighs) = Ok strategies.
Proof.
  intros Hi Hj.
  destruct (fitness_field_cells _ _ _ _ fit_ok) as (HX & HY & Hwf & _).
  destruct (standard_neighbourhood nf i j _ _ standard Hi Hj)
    as (neighs & Hnf & Hneighs & Hself).
  destruct (take_coords_total fit ((Z.of_nat i, Z.of_nat j) :: neighs) Hwf)
    as (all_s & Hall & Hin).
  { rewrite HX, HY. by constructor. }
  destruct (take_coords_total table ((Z.of_nat i, Z.of_nat j) :: neighs) table_wf)
    as (strategies & Hstrat & _).
  { by constructor. }
  unfold take_coords in Hall. cbn [rmapM] in Hall.
  destruct (getitem fit (Z.of_nat i, Z.of_nat j)) as [s|] eqn:Hs; [|done].
  cbn [mbind result_bind] in Hall.
  destruct (rmapM (getitem fit) neighs) as [neighs_s|] eqn:Hns; [|done].
  cbn [mbind result_bind] in Hall. injection Hall as <-.
  exists neighs, s, neighs_s, strategies. split_and!; try done.
  unfold take_coords. cbn [rmapM]. rewrite Hs. cbn [mbind result_bind].
  by rewrite Hns.
Qed.

Lemma update_rule_total :
  Forall (λ s, PrimFloat.is_nan s = false) (buffer fit) →
  ∀ g, ∃ table_new g', update_rule table fit nf g = Ok (table_new, g').
Proof.
  intros Hnan g. unfold update_rule.
  destruct (rmapS_total
    (λ i, rmapS (λ j, cell_choice table fit nf i j) (seq 0 (shape1 table)))
    (seq 0 (shape0 table))) with (s := g) as (rows & g' & ->); [|cbn; eauto].
  intros i Hi%elem_of_seq g1. apply rmapS_total.
  intros j Hj%elem_of_seq g2.
  destruct (cell_reads i j) as (neighs & s & neighs_s & strategies
    & Hnf & _ & Hfit & Hin & Hstrat); [lia|lia|].
  eapply (cell_choice_total _ _ _ _ _ _ _ _ _ _ Hnf Hfit Hstrat); [done|].
  eapply Forall_impl; [exact Hin|]. intros v Hv. cbn in Hv.
  by apply (proj1 (Forall_forall _ _) Hnan).
Qed.

Lemma cell_choice_only_IndexError i j g e :
  i < shape0 table → j < shape1 table →
  cell_choice table fit nf i j g = Raise e → e = IndexError.
Proof.
  intros Hi Hj. apply cell_choice_raise.
  destruct (standard_neighbourhood nf i j _ _ standard Hi Hj) as (neighs & -> & _).
  done.
Qed.

Lemma update_rule_nan :
  Exists (λ s, PrimFloat.is_nan s = true) (buffer fit) →
  ∀ g, update_rule table fit nf g = Raise IndexError.
Proof.
  intros Hex g.
  destruct (fitness_field_cells _ _ _ _ fit_ok) as (HX & HY & Hwf & _).
  apply Exists_exists in Hex as (s & Hin & Hs).
  apply list_elem_of_lookup in Hin as [p Hp].
  pose proof (lookup_lt_Some _ _ _ Hp) as Hlt. rewrite Hwf, HX, HY in Hlt.
  assert (0 < shape1 table) as HYpos by nia.
  pose proof (Nat.div_mod_eq p (shape1 table)) as Hdiv.
  pose proof (Nat.mod_upper_bound p (shape1 table) ltac:(lia)) as Hj.
  set (i := p / shape1 table) in *. set (j := p `mod` shape1 table) in *.
  assert (i < shape0 table) as Hi by nia.
  destruct (cell_reads i j Hi Hj) as (neighs & s' & neighs_s & strategies
    & Hnf & Hget & Hfit & _ & _).
  assert (s' = s) as ->.
  { rewrite getitem_nat in Hget by lia. rewrite HY in Hget.
    replace (i * shape1 table + j) with p in Hget by lia.
    rewrite Hp in Hget. congruence. }
  assert (Hcell : ∀ g1, cell_choice table fit nf i j g1 = Raise IndexError).
  { intros g1. eapply (cell_choice_nan _ _ _ _ _ _ _ _ _ Hnf Hfit).
    by apply Exists_cons_hd. }
  unfold update_rule.
  rewrite (rmapS_raise _ _ IndexError i); [done| | |].
  - intros i' g1 e Hi'%elem_of_seq. apply rmapS_raise_only.
    intros j' g2 e' Hj'%elem_of_seq. apply cell_choice_only_IndexError; lia.
  - apply elem_of_seq. lia.
  - intros g1. apply (rmapS_raise _ _ IndexError j); [| |done].
    + intros j' g2 e' Hj'%elem_of_seq. apply cell_choice_only_IndexError; lia.
    + apply elem_of_seq. lia.
Qed.

End GenerationTotal.

(** X2: on a well-formed table whose labels all index into a well-formed
    payoff matrix, with the Moore or the Von Neumann neighbourhood, the
    fitness pass never fails, and the generation fails exactly when the
    fitness field holds a NaN: without a NaN [iterate] returns a table
    whatever the state of the generator, and with one it raises
    [IndexError]. *)
Theorem generation_fails_only_on_nan `{NumpyRandom} table payoff_mat nf :
  nf = moore_neighbourhood ∨ nf = von_neumann_neighbourhood →
  well_formed table → well_formed payoff_mat →
  Forall (λ v, 0 ≤ v < Z.of_nat (shape0 payoff_mat) ∧
               v < Z.of_nat (shape1 payoff_mat))%Z (buffer table) →
  ∃ fit,
    fitness_field table payoff_mat nf = Ok fit ∧
    (Forall (λ s, PrimFloat.is_nan s = false) (buffer fit) →
       ∀ g, ∃ table_new g', iterate table payoff_mat nf g = Ok (table_new, g')) ∧
    (Exists (λ s, PrimFloat.is_nan s = true) (buffer fit) →
       ∀ g, iterate table payoff_mat nf g = Raise IndexError).
Proof.
  intros Hnf Hwf Hpwf Hlabels.
  destruct (fitness_field_total table payoff_mat nf Hnf Hwf Hpwf Hlabels)
    as [fit Hfit].
  exists fit. split_and!; [done| |].
  - intros Hnan g. rewrite iterate_run, Hfit. cbn [mbind result_bind].
    by eapply update_rule_total.
  - intros Hex g. rewrite iterate_run, Hfit. cbn [mbind result_bind].
    by eapply update_rule_nan.
Qed.

Lemma generation_fails_only_on_nan_witness :
  ∃ fit, fitness_field sample_table (payoff_hawk_dove 1.5) moore_neighbourhood
         = Ok fit.
Proof.
  destruct (@generation_fails_only_on_nan counter_random sample_table
              (payoff_hawk_dove 1.5) moore_neighbourhood)
    as (fit & Hfit & _).
  - by left.
  - reflexivity.
  - reflexivity.
  - repeat constructor; cbn; lia.
  - by exists fit.
Defined.

(** ** What a generation does to the table *)

Section Imitation.
Context `{NumpyRandom}.

Lemma iterate_labels_subset table payoff_mat nf g table_new g' :
  iterate table payoff_mat nf g = Ok (table_new, g') →
  shape0 table_new = shape0 table ∧ shape1 table_new = shape1 table ∧
  well_formed table_new ∧
  ∀ v, v ∈ buffer table_new → v ∈ buffer table.
Proof.
  rewrite iterate_run.
  destruct (fitness_field table payoff_mat nf) as [fit|]; [|done].
  cbn [mbind result_bind]. intros Hrule.
  apply update_rule_cells in Hrule as (HX & HY & Hwf & _ & Hall).
  split_and!; try done.
  intros v Hin. destruct (Hall v Hin) as (i & j & g1 & g2 & _ & _ & Hc).
  apply cell_choice_source in Hc as (c & _ & Hget).
  by eapply getitem_elem_of.
Qed.

Lemma count_eq_zero v l : count_eq v l = 0 ↔ v ∉ l.
Proof.
  unfold count_eq. rewrite length_zero_iff_nil. split.
  - intros Hnil Hin. eapply (filter_nil_not_elem_of _ _ v Hnil); done.
  - intros Hnin. induction l as [|x l IH]; [done|].
    rewrite not_elem_of_cons in Hnin. destruct Hnin as [Hne Hnin].
    rewrite filter_cons_False by congruence. auto.
Qed.

End Imitation.

(** X3: when [iterate] returns, every cell takes the strategy of a position,
    among itself and its neighbours, whose fitness [np.isclose] reports
    equal to the maximum of the fitness values over these positions: the
    maximum is one of these values, it is not NaN, none of the values is
    NaN and none exceeds it. *)
Theorem imitation_of_best `{NumpyRandom} table payoff_mat nf g table_new g' :
  iterate table payoff_mat nf g = Ok (table_new, g') →
  ∃ fit,
    fitness_field table payoff_mat nf = Ok fit ∧
    ∀ i j, i < shape0 table → j < shape1 table →
      let n := nf (Z.of_nat i) (Z.of_nat j)
                 (Z.of_nat (shape0 table)) (Z.of_nat (shape1 table)) in
      ∃ neighs_s max_val c s v,
        take_coords fit (n.1 ++ n.2) = Ok neighs_s ∧
        np_max neighs_s = Ok max_val ∧
        max_val ∈ neighs_s ∧
        PrimFloat.is_nan max_val = false ∧
        Forall (λ s', PrimFloat.is_nan s' = false ∧
                      PrimFloat.leb s' max_val = true) neighs_s ∧
        c ∈ n.1 ++ n.2 ∧
        getitem fit c = Ok s ∧
        isclose s max_val = true ∧
        getitem table c = Ok v ∧
        getitem table_new (Z.of_nat i, Z.of_nat j) = Ok v.
Proof.
  rewrite iterate_run.
  destruct (fitness_field table payoff_mat nf) as [fit|]; [|done].
  cbn [mbind result_bind]. intros Hrule. exists fit. split; [done|].
  apply update_rule_cells in Hrule as (_ & _ & _ & Hcell & _).
  intros i j Hi Hj. cbv zeta.
  destruct (Hcell i j Hi Hj) as (v & g1 & g2 & Hget & Hc).
  apply cell_choice_best in Hc
    as (neighs_s & max_val & k & c & s & ? & ? & ? & ? & ? & Hk & ? & ? & ? & ?).
  exists neighs_s, max_val, c, s, v. split_and!; try done.
  by eapply list_elem_of_lookup_2.
Qed.

Lemma imitation_of_best_witness :
  ∃ fit, fitness_field sample_table (payoff_hawk_dove 1.5) moore_neighbourhood
         = Ok fit.
Proof.
  assert (Hrun : @iterate counter_random sample_table (payoff_hawk_dove 1.5)
                   moore_neighbourhood 0
                 = Ok (NdArray 3 3 (replicate 9 0%Z), 9))
    by (vm_compute; reflexivity).
  destruct (@imitation_of_best counter_random _ _ _ _ _ _ Hrun) as (fit & Hfit & _).
  by exists fit.
Defined.

(** When exactly one position is tied for the maximum, the cell takes the
    strategy at that position whatever the state of the generator; the draw
    is still made, from a permutation of one element. *)
Lemma cell_choice_single_best `{NumpyRandom}
    table fit nf i j current neighs neighs_s max_val k c v :
  nf (Z.of_nat i) (Z.of_nat j) (Z.of_nat (shape0 table)) (Z.of_nat (shape1 table))
    = (current, neighs) →
  take_coords fit (current ++ neighs) = Ok neighs_s →
  np_max neighs_s = Ok max_val →
  tie_set neighs_s max_val = [k] →
  (current ++ neighs) !! k = Some c →
  getitem table c = Ok v →
  ∀ g, cell_choice table fit nf i j g = Ok (v, (permutation 1 g).2).
Proof.
  intros Hnf Hfit Hmax Htie Hc Hv g. unfold cell_choice.
  rewrite Hnf. cbv zeta. rewrite Hfit. cbn [mbind result_bind].
  rewrite Hmax. cbn [mbind result_bind]. rewrite Htie, pick_singleton.
  cbn [mbind result_bind]. rewrite (getitem1_nat _ k c Hc).
  cbn [mbind result_bind]. by rewrite Hv.
Qed.

(** Without a tie at a cell, the strategy chosen for it does not depend on
    the generator. *)
Lemma cell_choice_no_tie `{NumpyRandom} table fit nf i j ga gb va vb ga' gb' :
  (∀ neighs_s max_val,
     take_coords fit
       ((nf (Z.of_nat i) (Z.of_nat j) (Z.of_nat (shape0 table))
            (Z.of_nat (shape1 table))).1
        ++ (nf (Z.of_nat i) (Z.of_nat j) (Z.of_nat (shape0 table))
              (Z.of_nat (shape1 table))).2) = Ok neighs_s →
     np_max neighs_s = Ok max_val →
     ∃ k, tie_set neighs_s max_val = [k]) →
  cell_choice table fit nf i j ga = Ok (va, ga') →
  cell_choice table fit nf i j gb = Ok (vb, gb') →
  va = vb.
Proof.
  unfold cell_choice. destruct (nf _ _ _ _) as [current neighs]. cbv zeta.
  cbn [fst snd]. intros Hsingle.
  destruct (take_coords fit _) as [neighs_s|]; [|done].
  cbn [mbind result_bind].
  destruct (np_max neighs_s) as [max_val|] eqn:Hmax; [|done].
  cbn [mbind result_bind].
  destruct (Hsingle _ _ eq_refl Hmax) as [k ->].
  rewrite !pick_singleton. cbn [mbind result_bind].
  destruct (getitem1 (current ++ neighs) _) as [c|]; [|done].
  cbn [mbind result_bind].
  destruct (getitem table c) as [v|]; [|done]. cbn [mbind result_bind].
  by intros [= <- _] [= <- _].
Qed.

(** Two well-formed arrays of the same shape that agree at every coordinate
    are the same array. *)
Lemma ndarray_ext {A} (a b : ndarray A) :
  shape0 a = shape0 b → shape1 a = shape1 b →
  well_formed a → well_formed b →
  (∀ i j, i < shape0 a → j < shape1 a →
     getitem a (Z.of_nat i, Z.of_nat j) = getitem b (Z.of_nat i, Z.of_nat j)) →
  a = b.
Proof.
  destruct a as [X Y la], b as [X' Y' lb]. unfold well_formed.
  cbn [shape0 shape1 buffer]. intros <- <- Ha Hb Hcells. f_equal.
  apply (list_eq_same_length _ _ (X * Y)); [done|done|].
  intros p x y Hp Hx Hy.
  assert (0 < Y) as HY by nia.
  assert (p `div` Y < X) as Hi by (apply Nat.Div0.div_lt_upper_bound; lia).
  assert (p `mod` Y < Y) as Hj by (apply Nat.mod_upper_bound; lia).
  specialize (Hcells _ _ Hi Hj).
  rewrite !getitem_nat in Hcells by done. cbn [shape1 buffer] in Hcells.
  replace (p `div` Y * Y + p `mod` Y) with p in Hcells
    by (rewrite (Nat.div_mod_eq p Y) at 1; lia).
  rewrite Hx, Hy in Hcells. congruence.
Qed.

(** X4: the tie-break is the only use the generation makes of the
    generator: when at every cell exactly one position of the cell and its
    neighbours is tied for the maximum, [iterate] returns the same table from
    every state of the generator. *)
Theorem no_tie_no_randomness `{NumpyRandom} table payoff_mat nf fit :
  fitness_field table payoff_mat nf = Ok fit →
  (∀ i j, i < shape0 table → j < shape1 table →
     ∀ neighs_s max_val,
       take_coords fit
         ((nf (Z.of_nat i) (Z.of_nat j) (Z.of_nat (shape0 table))
              (Z.of_nat (shape1 table))).1
          ++ (nf (Z.of_nat i) (Z.of_nat j) (Z.of_nat (shape0 table))
                (Z.of_nat (shape1 table))).2) = Ok neighs_s →
       np_max neighs_s = Ok max_val →
       ∃ k, tie_set neighs_s max_val = [k]) →
  ∀ g1 g2 t1 t2 g1' g2',
    iterate table payoff_mat nf g1 = Ok (t1, g1') →
    iterate table payoff_mat nf g2 = Ok (t2, g2') →
    t1 = t2.
Proof.
  intros Hfit Hsingle g1 g2 t1 t2 g1' g2'. rewrite !iterate_run, Hfit.
  cbn [mbind result_bind].
  intros (HX1 & HY1 & Hwf1 & Hcell1 & _)%update_rule_cells
         (HX2 & HY2 & Hwf2 & Hcell2 & _)%update_rule_cells.
  apply ndarray_ext; [congruence|congruence|done|done|].
  intros i j Hi Hj. rewrite HX1 in Hi. rewrite HY1 in Hj.
  destruct (Hcell1 i j Hi Hj) as (va & ga & ga' & -> & Ha).
  destruct (Hcell2 i j Hi Hj) as (vb & gb & gb' & -> & Hb).
  f_equal. eapply cell_choice_no_tie; [|exact Ha|exact Hb].
  by apply Hsingle.
Qed.

Lemma no_tie_no_randomness_witness :
  ∃ t ga gb,
    @iterate counter_random (NdArray 3 3 [0; 1; 1; 1; 1; 1; 1; 1; 1]%Z)
      (payoff_hawk_dove 1.5) moore_neighbourhood 0 = Ok (t, ga) ∧
    @iterate counter_random (NdArray 3 3 [0; 1; 1; 1; 1; 1; 1; 1; 1]%Z)
      (payoff_hawk_dove 1.5) moore_neighbourhood 5 = Ok (t, gb).
Proof.
  destruct (@iterate counter_random (NdArray 3 3 [0; 1; 1; 1; 1; 1; 1; 1; 1]%Z)
              (payoff_hawk_dove 1.5) moore_neighbourhood 0)
    as [[t1 ga]|] eqn:H1; [|by vm_compute in H1].
  destruct (@iterate counter_random (NdArray 3 3 [0; 1; 1; 1; 1; 1; 1; 1; 1]%Z)
              (payoff_hawk_dove 1.5) moore_neighbourhood 5)
    as [[t2 gb]|] eqn:H2; [|by vm_compute in H2].
  exists t1, ga, gb. split; [done|]. do 2 f_equal. symmetry.
  refine (@no_tie_no_randomness counter_random
            (NdArray 3 3 [0; 1; 1; 1; 1; 1; 1; 1; 1]%Z)
            (payoff_hawk_dove 1.5) moore_neighbourhood
            (NdArray 3 3 [16; 7; 7; 7; 7; 7; 7; 7; 7]%float)
            _ _ 0 5 t1 t2 ga gb H1 H2).
  - vm_compute. reflexivity.
  - intros i j Hi Hj neighs_s max_val. cbn [shape0 shape1] in Hi, Hj.
    destruct i as [|[|[|i]]]; [..|lia];
      (destruct j as [|[|[|j]]]; [..|lia]);
      intros Hs; vm_compute in Hs; injection Hs as <-;
      intros Hm; vm_compute in Hm; injection Hm as <-;
      eexists; vm_compute; reflexivity.
Defined.

(** X5: a strategy that is absent from the table is absent from the table
    [iterate] returns, and a table in which every cell holds the same
    strategy is returned unchanged. *)
Theorem extinct_stays_extinct `{NumpyRandom} table payoff_mat nf g table_new g' :
  iterate table payoff_mat nf g = Ok (table_new, g') →
  (∀ v, count_eq v (buffer table) = 0 → count_eq v (buffer table_new) = 0) ∧
  (∀ s, well_formed table → Forall (λ v, v = s) (buffer table) →
        table_new = table).
Proof.
  intros (HX & HY & Hwf & Hsub)%iterate_labels_subset. split.
  - intros v. rewrite !count_eq_zero. auto.
  - intros s Hwft Hall.
    assert (buffer table_new = buffer table) as Hbuf.
    { transitivity (replicate (shape0 table * shape1 table) s).
      - symmetry. apply replicate_as_Forall. split; [by rewrite Hwf, HX, HY|].
        apply Forall_forall. intros v Hv%Hsub.
        symmetry. by apply (proj1 (Forall_forall _ _) Hall).
      - apply replicate_as_Forall. split; [done|].
        eapply Forall_impl; [exact Hall|]. by intros v ->. }
    destruct table_new, table. cbn in *. by subst.
Qed.

Lemma extinct_stays_extinct_witness :
  count_eq 2 (replicate 9 0%Z) = 0.
Proof.
  assert (Hrun : @iterate counter_random sample_table (payoff_hawk_dove 1.5)
                   moore_neighbourhood 0
                 = Ok (NdArray 3 3 (replicate 9 0%Z), 9))
    by (vm_compute; reflexivity).
  exact (proj1 (@extinct_stays_extinct counter_random _ _ _ _ _ _ Hrun) 2%Z eq_refl).
Defined.

(** ** The shuffle *)

Lemma lookup_all (l : list Z) :
  (λ k, default 0%Z (l !! k)) <$> seq 0 (length l) = l.
Proof.
  apply list_eq. intros k. rewrite list_lookup_fmap.
  destruct (decide (k < length l)) as [Hk|Hk].
  - rewrite lookup_seq_lt by done. cbn.
    by destruct (lookup_lt_is_Some_2 l k Hk) as [v ->].
  - rewrite lookup_seq_ge by lia. cbn. symmetry. apply lookup_ge_None. lia.
Qed.

Lemma take1_in_range (l : list Z) idxs :
  Forall (λ k, k < length l) idxs →
  take1 l idxs = Ok ((λ k, default 0%Z (l !! k)) <$> idxs).
Proof.
  unfold take1. induction 1 as [|k idxs Hk _ IH]; [done|].
  cbn [rmapM fmap list_fmap].
  destruct (lookup_lt_is_Some_2 l k Hk) as [v Hv].
  rewrite (getitem1_nat l k v Hv). cbn [mbind result_bind].
  fold (take1 l idxs) in *. unfold take1 in *. rewrite IH. cbn [mbind result_bind].
  by rewrite Hv.
Qed.

Lemma np_reshape_same {A} (l : list A) (X Y : nat) :
  length l = X * Y →
  np_reshape l (Z.of_nat X) (Z.of_nat Y) = Ok (NdArray X Y l).
Proof.
  intros Hlen. unfold np_reshape.
  rewrite decide_False by lia. rewrite decide_False by lia.
  rewrite decide_False by lia. rewrite decide_True by lia.
  by rewrite !Nat2Z.id.
Qed.

Lemma np_reshape_mismatch {A} (l : list A) (X Y : nat) :
  length l ≠ X * Y →
  np_reshape l (Z.of_nat X) (Z.of_nat Y) = Raise ValueError.
Proof.
  intros Hlen. unfold np_reshape.
  rewrite decide_False by lia. rewrite decide_False by lia.
  rewrite decide_False by lia. by rewrite decide_False by lia.
Qed.

Section Shuffle.
Context `{NumpyRandom}.

Lemma shuffle_flat table n :
  let p := permutation (length (buffer table)) (seed (Z.of_nat n)) in
  take1 (buffer table) p.1
    = Ok ((λ k, default 0%Z (buffer table !! k)) <$> p.1) ∧
  (λ k, default 0%Z (buffer table !! k)) <$> p.1 ≡ₚ buffer table.
Proof.
  intros p.
  pose proof (permutation_perm (length (buffer table)) (seed (Z.of_nat n)))
    as Hperm.
  fold p in Hperm. split.
  - apply take1_in_range, Forall_forall. intros k Hk.
    rewrite Hperm in Hk. apply elem_of_seq in Hk. lia.
  - rewrite Hperm. by rewrite lookup_all.
Qed.

End Shuffle.

(** X6: the shuffle of generation [n] of a well-formed table returns a table
    of the same shape holding the same strategies with the same
    multiplicities, so every strategy count is unchanged; it leaves the
    generator where the permutation drawn after [seed(n)] leaves it. On a
    table whose buffer does not match its shape the final [reshape] raises
    [ValueError]. *)
Theorem shuffle_permutes `{NumpyRandom} table n :
  (well_formed table →
     ∃ a,
       shuffle table n
         = Ok (a, (permutation (length (buffer table)) (seed (Z.of_nat n))).2) ∧
       shape0 a = shape0 table ∧ shape1 a = shape1 table ∧ well_formed a ∧
       buffer a ≡ₚ buffer table ∧
       ∀ v, count_eq v (buffer a) = count_eq v (buffer table)) ∧
  (¬ well_formed table → shuffle table n = Raise ValueError).
Proof.
  destruct (shuffle_flat table n) as [Htake Hperm]. cbv zeta in *.
  unfold shuffle.
  destruct (permutation _ (seed (Z.of_nat n))) as [shuffle_idx g].
  cbn [fst snd] in *. rewrite Htake. cbn [mbind result_bind].
  assert (Hlen : length ((λ k, default 0%Z (buffer table !! k)) <$> shuffle_idx)
                 = length (buffer table)) by by rewrite Hperm.
  split.
  - intros Hwf. rewrite np_reshape_same by by rewrite Hlen.
    cbn [mbind result_bind]. eexists. split_and!; try done.
    + unfold well_formed. cbn [buffer shape0 shape1]. by rewrite Hlen.
    + intros v. by apply count_eq_Permutation.
  - intros Hwf. rewrite np_reshape_mismatch; [done|].
    rewrite Hlen. exact Hwf.
Qed.

Lemma shuffle_permutes_witness :
  ∃ a, @shuffle counter_random sample_table 3 = Ok (a, 4) ∧
       count_eq 0 (buffer a) = 5.
Proof.
  destruct (proj1 (@shuffle_permutes counter_random sample_table 3) eq_refl)
    as (a & Hrun & _ & _ & _ & _ & Hcount).
  exists a. split; [exact Hrun | exact (Hcount 0%Z)].
Defined.

(** ** Runs and sweeps *)

Section Runs.
Context `{NumpyRandom}.

(** One generation, shuffled or not, keeps the shape and brings in no
    strategy that the table did not hold. *)
Lemma generation_step payoff nf mixed n table g table' g' :
  generation payoff nf mixed n table g = Ok (table', g') →
  shape0 table' = shape0 table ∧ shape1 table' = shape1 table ∧
  well_formed table' ∧
  ∀ v, v ∈ buffer table' → v ∈ buffer table.
Proof.
  unfold generation.
  destruct (iterate table payoff nf g) as [[table1 g1]|] eqn:Hit; [|done].
  cbn [mbind result_bind].
  apply iterate_labels_subset in Hit as (HX & HY & Hwf & Hsub).
  destruct mixed.
  - unfold shuffle.
    destruct (shuffle_flat table1 n) as [Htake Hperm]. cbv zeta in *.
    destruct (permutation _ (seed (Z.of_nat n))) as [shuffle_idx g2].
    cbn [fst snd] in *. rewrite Htake. cbn [mbind result_bind].
    rewrite np_reshape_same by (rewrite Hperm; exact Hwf).
    cbn [mbind result_bind]. intros [= <- <-]. cbn [shape0 shape1 buffer].
    split_and!; try done.
    + unfold well_formed. cbn [shape0 shape1 buffer]. by rewrite Hperm.
    + intros v. rewrite Hperm. auto.
  - by intros [= <- <-].
Qed.

(** The inner loop links each table of the history to the next by one
    generation, numbered as the loop counts. *)
Lemma generations_chain payoff nf mixed m :
  ∀ a table g table_all history g',
    generations payoff nf mixed (seq a m) table g table_all = Ok (history, g') →
    ∃ rest,
      history = table_all ++ rest ∧ length rest = m ∧
      ∀ k t t', (table :: rest) !! k = Some t → (table :: rest) !! S k = Some t' →
        ∃ g1 g2, generation payoff nf mixed (a + k) t g1 = Ok (t', g2).
Proof.
  induction m as [|m IH]; intros a table g table_all history g' Hrun;
    cbn [seq generations] in Hrun.
  - injection Hrun as <- <-. exists []. rewrite app_nil_r.
    split_and!; [done|done|]. by intros [|k] t t' ? ?.
  - destruct (generation payoff nf mixed a table g) as [[table1 g1]|] eqn:Hgen;
      [|done].
    cbn [mbind result_bind] in Hrun.
    apply IH in Hrun as (rest & -> & Hlen & Hchain).
    exists (table1 :: rest). rewrite <-app_assoc. split_and!; [done|by cbn; rewrite Hlen|].
    intros [|k] t t' Ht Ht'; cbn in Ht, Ht'.
    + injection Ht as <-. injection Ht' as <-. rewrite Nat.add_0_r. eauto.
    + replace (a + S k) with (S a + k) by lia. by eapply Hchain.
Qed.

Lemma run_chain payoff size_x size_y num_strats G nf mixed g history g' :
  run payoff size_x size_y num_strats G nf mixed g = Ok (history, g') →
  ∃ table g1 rest,
    generate_table size_x size_y num_strats g = Ok (table, g1) ∧
    history = table :: rest ∧ length rest = Z.to_nat G ∧
    ∀ k t t', history !! k = Some t → history !! S k = Some t' →
      ∃ g1 g2, generation payoff nf mixed k t g1 = Ok (t', g2).
Proof.
  unfold run, range.
  destruct (generate_table size_x size_y num_strats g) as [[table g1]|]; [|done].
  cbn [mbind result_bind]. intros (rest & -> & Hlen & Hchain)%generations_chain.
  exists table, g1, rest. split_and!; try done.
Qed.

Lemma chain_Forall {A} (P : A → Prop) (l : list A) x :
  head l = Some x → P x →
  (∀ k t t', l !! k = Some t → l !! S k = Some t' → P t → P t') →
  Forall P l.
Proof.
  intros Hhead Hx Hstep. apply Forall_lookup. intros k.
  induction k as [|k IH]; intros t Ht.
  - rewrite head_lookup in Hhead. congruence.
  - destruct (lookup_lt_is_Some_2 l k) as [t0 Ht0].
    { apply lookup_lt_Some in Ht. lia. }
    eapply Hstep; eauto.
Qed.

Lemma generate_table_facts size_x size_y num_strats g table g1 :
  generate_table size_x size_y num_strats g = Ok (table, g1) →
  shape0 table = Z.to_nat size_x ∧ shape1 table = Z.to_nat size_y ∧
  well_formed table ∧
  ((1 ≤ num_strats)%Z → Forall (λ v, 0 ≤ v < num_strats)%Z (buffer table)).
Proof.
  intros Hgen.
  destruct (decide (size_x < 0 ∨ size_y < 0)%Z) as [Hneg|Hpos].
  { by rewrite generate_table_negative in Hgen. }
  destruct (generate_table_total size_x size_y num_strats g)
    as (a & g2 & Ha & HX & HY & Hwf); [lia|lia|].
  rewrite Hgen in Ha. injection Ha as <- <-. split_and!; try done.
  intros HS.
  destruct (generate_table_run size_x size_y num_strats g)
    as (a & Ha & _ & _ & Hperm); [lia|lia|done|].
  rewrite Hgen in Ha. injection Ha as <- _.
  rewrite Hperm. eapply Forall_impl; [apply labels_range; lia|].
  intros v Hv. cbn in Hv. lia.
Qed.

Lemma run_reseeds payoff size_x size_y num_strats G nf mixed g1 g2 :
  run payoff size_x size_y num_strats G nf mixed g1
  = run payoff size_x size_y num_strats G nf mixed g2.
Proof. done. Qed.

End Runs.

(** X7: the history of a run holds the table of [generate_table] followed by
    one table per generation ([G] of them, none when [G ≤ 0]), and each table
    is obtained from the one before it by one generation ([iterate], then
    the shuffle in a mixed run) whose number is its position in the
    history. *)
Theorem run_is_chain `{NumpyRandom} payoff X Y S G nf mixed g history g' :
  run payoff X Y S G nf mixed g = Ok (history, g') →
  ∃ table g1 rest,
    generate_table X Y S g = Ok (table, g1) ∧
    history = table :: rest ∧ length rest = Z.to_nat G ∧
    ∀ k t t', history !! k = Some t → history !! Datatypes.S k = Some t' →
      ∃ g1 g2, generation payoff nf mixed k t g1 = Ok (t', g2).
Proof. apply run_chain. Qed.

Lemma run_is_chain_witness :
  ∃ history g', @run counter_random (payoff_hawk_dove 1.5) 3 3 2 2
                  moore_neighbourhood true 0 = Ok (history, g') ∧
                length history = 3.
Proof.
  destruct (@run counter_random (payoff_hawk_dove 1.5) 3 3 2 2
              moore_neighbourhood true 0) as [[history g']|] eqn:Hrun;
    [|by vm_compute in Hrun].
  exists history, g'. split; [done|].
  destruct (@run_is_chain counter_random _ _ _ _ _ _ _ _ _ _ Hrun)
    as (table & g1 & rest & _ & -> & Hlen & _).
  cbn. by rewrite Hlen.
Defined.

Lemma run_tables `{NumpyRandom} payoff X Y S G nf mixed g history g' :
  run payoff X Y S G nf mixed g = Ok (history, g') →
  Forall (λ t, shape0 t = Z.to_nat X ∧ shape1 t = Z.to_nat Y ∧ well_formed t)
    history ∧
  (∀ k t t', history !! k = Some t → history !! Datatypes.S k = Some t' →
     ∀ v, v ∈ buffer t' → v ∈ buffer t) ∧
  ((1 ≤ S)%Z → Forall (λ t, Forall (λ v, 0 ≤ v < S)%Z (buffer t)) history).
Proof.
  intros (table & g1 & rest & Hgen & -> & _ & Hchain)%run_chain.
  apply generate_table_facts in Hgen as (HX & HY & Hwf & Hrange).
  split_and!.
  - apply (chain_Forall _ _ table); [done|done|].
    intros k t t' Ht Ht' (HXt & HYt & _).
    destruct (Hchain k t t' Ht Ht') as (g2 & g3 & Hstep).
    apply generation_step in Hstep as (? & ? & ? & _).
    split_and!; congruence.
  - intros k t t' Ht Ht'.
    destruct (Hchain k t t' Ht Ht') as (g2 & g3 & Hstep).
    by apply generation_step in Hstep as (_ & _ & _ & ?).
  - intros HS. apply (chain_Forall _ _ table); [done|by apply Hrange|].
    intros k t t' Ht Ht' Hin.
    destruct (Hchain k t t' Ht Ht') as (g2 & g3 & Hstep).
    apply generation_step in Hstep as (_ & _ & _ & Hsub).
    apply Forall_forall. intros v Hv%Hsub.
    by apply (proj1 (Forall_forall _ _) Hin).
Qed.

(** X8: every table in the history of a run has the shape [(X, Y)] and a
    buffer of that size; from one generation to the next no strategy
    appears that was not there, in plain and in mixed runs alike, so an
    extinct strategy never returns; and with at least one strategy all
    labels of all generations lie in [[0, S)]. *)
Theorem run_invariant `{NumpyRandom} payoff X Y S G nf mixed g history g' :
  run payoff X Y S G nf mixed g = Ok (history, g') →
  Forall (λ t, shape0 t = Z.to_nat X ∧ shape1 t = Z.to_nat Y ∧ well_formed t)
    history ∧
  (∀ k t t', history !! k = Some t → history !! Datatypes.S k = Some t' →
     ∀ v, v ∈ buffer t' → v ∈ buffer t) ∧
  ((1 ≤ S)%Z → Forall (λ t, Forall (λ v, 0 ≤ v < S)%Z (buffer t)) history).
Proof. apply run_tables. Qed.

Lemma run_invariant_witness :
  ∃ history g', @run counter_random (payoff_hawk_dove 1.5) 3 3 2 2
                  moore_neighbourhood true 0 = Ok (history, g') ∧
                Forall (λ t, shape0 t = 3 ∧ shape1 t = 3 ∧ well_formed t) history.
Proof.
  destruct (@run counter_random (payoff_hawk_dove 1.5) 3 3 2 2
              moore_neighbourhood true 0) as [[history g']|] eqn:Hrun;
    [|by vm_compute in Hrun].
  exists history, g'. split; [done|].
  exact (proj1 (@run_invariant counter_random _ _ _ _ _ _ _ _ _ _ Hrun)).
Defined.

(** X9: a sweep returns one history per [beta], in the order of the list,
    and each history is the one a run for that [beta] gives from any state
    of the generator: a run does not depend on the runs before it. *)
Theorem sweep_runs_independent `{NumpyRandom}
    payoff_of beta_list X Y S G nf mixed g table_m g' :
  sweep payoff_of beta_list X Y S G nf mixed g = Ok (table_m, g') →
  Forall2 (λ beta history,
      ∀ g0, ∃ g1, run (payoff_of beta) X Y S G nf mixed g0 = Ok (history, g1))
    beta_list table_m.
Proof.
  revert g table_m g'.
  induction beta_list as [|beta betas IH]; intros g table_m g' Hsweep;
    cbn [sweep] in Hsweep.
  - injection Hsweep as <- <-. constructor.
  - destruct (run _ _ _ _ _ _ _ g) as [[table_all g2]|] eqn:Hrun; [|done].
    cbn [mbind result_bind] in Hsweep.
    destruct (sweep _ betas _ _ _ _ _ _ g2) as [[table_m' g3]|] eqn:Hrest; [|done].
    cbn [mbind result_bind] in Hsweep. injection Hsweep as <- <-.
    constructor; [|by eapply IH].
    intros g0. exists g2. by rewrite (run_reseeds _ _ _ _ _ _ _ g0 g).
Qed.

Lemma sweep_runs_independent_witness :
  ∃ table_m g',
    @sweep counter_random payoff_hawk_dove [0.9; 2]%float 3 3 2 1
      von_neumann_neighbourhood false 7 = Ok (table_m, g') ∧
    length table_m = 2.
Proof.
  destruct (@sweep counter_random payoff_hawk_dove [0.9; 2]%float 3 3 2 1
              von_neumann_neighbourhood false 7) as [[table_m g']|] eqn:Hsweep;
    [|by vm_compute in Hsweep].
  exists table_m, g'. split; [done|].
  pose proof (@sweep_runs_independent counter_random _ _ _ _ _ _ _ _ _ _ _ Hsweep)
    as Hall.
  by apply Forall2_length in Hall.
Defined.

(** ** The occupation-fraction cells, in general *)

Lemma rmapM_Forall2_2 {A B} (f : A → result B) l ys :
  Forall2 (λ x y, f x = Ok y) l ys → rmapM f l = Ok ys.
Proof.
  induction 1 as [|x y l ys Hx _ IH]; [done|].
  cbn [rmapM]. rewrite Hx. cbn [mbind result_bind]. by rewrite IH.
Qed.

Lemma count_eq_cons v x l :
  count_eq v (x :: l) = (if decide (x = v) then 1 else 0) + count_eq v l.
Proof. unfold count_eq. rewrite filter_cons. by case_decide. Qed.

Lemma sum_list_fmap_add {A} (f g : A → nat) l :
  sum_list ((λ u, f u + g u) <$> l) = sum_list (f <$> l) + sum_list (g <$> l).
Proof. induction l as [|x l IH]; [done|]. cbn. rewrite IH. lia. Qed.

Lemma sum_list_indicator (x : Z) us :
  NoDup us → x ∈ us →
  sum_list ((λ u, if decide (x = u) then 1 else 0) <$> us) = 1.
Proof.
  induction 1 as [|u us Hnin Hnd IH]; [by intros ?%elem_of_nil|].
  intros Hin. cbn. apply elem_of_cons in Hin as [->|Hin].
  - rewrite decide_True by done.
    rewrite (list_fmap_ext _ (λ _, 0) us).
    + clear. induction us; [done|]. cbn. lia.
    + intros k u' Hk. apply list_elem_of_lookup_2 in Hk.
      rewrite decide_False; [done|]. by intros ->.
  - rewrite decide_False by (intros ->; done). rewrite IH by done. lia.
Qed.

(** Counting each value of a duplicate-free list of values that covers [l]
    counts every entry of [l] once. *)
Lemma count_eq_partition l us :
  NoDup us → (∀ x, x ∈ l → x ∈ us) →
  sum_list ((λ u, count_eq u l) <$> us) = length l.
Proof.
  intros Hnd. induction l as [|x l IH]; intros Hcover.
  - cbn. clear. induction us; [done|]. cbn. lia.
  - rewrite (list_fmap_ext _
      (λ u, (if decide (x = u) then 1 else 0) + count_eq u l) us)
      by (intros; apply count_eq_cons).
    rewrite sum_list_fmap_add, sum_list_indicator, IH; [done| |done|].
    + intros y Hy. apply Hcover. by apply list_elem_of_further.
    + apply Hcover, list_elem_of_here.
Qed.

(** The first of the sorted distinct values is the least value. *)
Lemma remove_dups_head_least (s : list Z) :
  StronglySorted Z.le s →
  ∀ m, head (remove_dups s) = Some m → ∀ x, x ∈ s → (m ≤ x)%Z.
Proof.
  induction 1 as [|x s Hs IH Hx]; intros m Hm y Hy; [by apply elem_of_nil in Hy|].
  cbn [remove_dups] in Hm. rewrite Forall_forall in Hx.
  destruct (decide_rel elem_of x s) as [Hin|Hnin].
  - apply elem_of_cons in Hy as [->|Hy]; eauto.
  - injection Hm as <-. apply elem_of_cons in Hy as [->|Hy]; [lia|auto].
Qed.

Lemma np_unique_spec l :
  let '(uniq, counts) := np_unique l in
  NoDup uniq ∧ (∀ x, x ∈ uniq ↔ x ∈ l) ∧
  counts = (λ u, count_eq u l) <$> uniq ∧
  sum_list counts = length l ∧
  ∀ m, head uniq = Some m → ∀ x, x ∈ l → (m ≤ x)%Z.
Proof.
  unfold np_unique. cbv zeta.
  assert (Hmem : ∀ x, x ∈ remove_dups (merge_sort Z.le l) ↔ x ∈ l).
  { intros x. by rewrite elem_of_remove_dups, merge_sort_Permutation. }
  split_and!; [apply NoDup_remove_dups|done|done| |].
  - apply count_eq_partition; [apply NoDup_remove_dups|]. intros x. apply Hmem.
  - intros m Hm x Hx.
    eapply (remove_dups_head_least (merge_sort Z.le l)); [|done|].
    + apply StronglySorted_merge_sort; apply _.
    + by rewrite merge_sort_Permutation.
Qed.

(** The value the two-strategy cell computes for one table: the count of the
    least label present over the number of entries. *)
Lemma hawk_fraction_of_table (t : ndarray Z) :
  well_formed t → 0%Z ∈ buffer t → Forall (λ v, 0 ≤ v)%Z (buffer t) →
  (let '(uniq, counts) := np_unique (buffer t) in
   c ← getitem1 counts 0;
   Ok (float_of_nat c / float_of_nat (sum_list counts))%float)
  = Ok (fraction_of 0 t).
Proof.
  intros Hwf H0 Hpos. pose proof (np_unique_spec (buffer t)) as Hspec.
  destruct (np_unique (buffer t)) as [uniq counts].
  destruct Hspec as (Hnd & Hmem & -> & Hsum & Hleast).
  destruct uniq as [|m uniq].
  { apply Hmem in H0. by apply elem_of_nil in H0. }
  cbn [fmap list_fmap]. rewrite getitem1_head. cbn [mbind result_bind].
  assert (m = 0%Z) as ->.
  { pose proof (Hleast m eq_refl 0%Z H0).
    assert (m ∈ buffer t) as Hm by (apply Hmem, list_elem_of_here).
    rewrite Forall_forall in Hpos. specialize (Hpos m Hm). lia. }
  cbn [fmap list_fmap] in Hsum. rewrite Hsum. unfold fraction_of.
  by rewrite Hwf.
Qed.

Lemma getitem1_from_end {A} (l : list A) i x :
  reverse l !! i = Some x → getitem1 l (- Z.of_nat (S i)) = Ok x.
Proof.
  intros Hi. pose proof (lookup_lt_Some _ _ _ Hi) as Hlt.
  rewrite length_reverse in Hlt.
  rewrite reverse_lookup in Hi by done.
  unfold getitem1, np_index.
  rewrite decide_False by lia. rewrite decide_True by lia.
  cbn [mbind result_bind].
  replace (Z.to_nat (- Z.of_nat (S i) + Z.of_nat (length l)))
    with (length l - S i) by lia.
  by rewrite Hi.
Qed.

Lemma getitem1_before_start {A} (l : list A) k :
  length l < k → getitem1 l (- Z.of_nat k) = Raise IndexError.
Proof.
  intros Hk. unfold getitem1, np_index.
  rewrite decide_False by lia. by rewrite decide_False by lia.
Qed.

Lemma getitem1_past_end {A} (l : list A) k :
  length l ≤ k → getitem1 l (Z.of_nat k) = Raise IndexError.
Proof.
  intros Hk. unfold getitem1, np_index.
  rewrite decide_False by lia. by rewrite decide_False by lia.
Qed.

Lemma rmapM_raise_E {A B} (f : A → result B) l E k x :
  (∀ x e, f x = Raise e → e = E) →
  l !! k = Some x → f x = Raise E → rmapM f l = Raise E.
Proof.
  intros Honly Hk Hx. destruct (rmapM_raise f l k x E Hk Hx) as [e He].
  rewrite He. f_equal. by eapply rmapM_raise_only.
Qed.

(** The two-strategy cell on one table, whatever its shape: an empty table
    has no [counts[0]], and otherwise the numerator is the count of the
    least label present. *)
Lemma two_strategy_cell (t : ndarray Z) :
  (buffer t = [] →
     (let '(uniq, counts) := np_unique (buffer t) in
      c ← getitem1 counts 0;
      Ok (float_of_nat c / float_of_nat (sum_list counts))%float)
     = Raise IndexError) ∧
  (buffer t ≠ [] →
     ∃ m, m ∈ buffer t ∧ (∀ x, x ∈ buffer t → (m ≤ x)%Z) ∧
       (let '(uniq, counts) := np_unique (buffer t) in
        c ← getitem1 counts 0;
        Ok (float_of_nat c / float_of_nat (sum_list counts))%float)
       = Ok (float_of_nat (count_eq m (buffer t))
             / float_of_nat (length (buffer t)))%float).
Proof.
  split.
  - intros ->. reflexivity.
  - intros Hne. pose proof (np_unique_spec (buffer t)) as Hspec.
    destruct (np_unique (buffer t)) as [uniq counts].
    destruct Hspec as (Hnd & Hmem & -> & Hsum & Hleast).
    destruct uniq as [|m uniq].
    { destruct (buffer t) as [|x l]; [done|].
      pose proof (proj2 (Hmem x) (list_elem_of_here _ _)) as Hx.
      by apply elem_of_nil in Hx. }
    exists m. split_and!.
    + apply Hmem, list_elem_of_here.
    + by apply Hleast.
    + cbn [fmap list_fmap]. rewrite getitem1_head. cbn [mbind result_bind].
      cbn [fmap list_fmap] in Hsum. by rewrite Hsum.
Qed.

Lemma two_strategy_raise_only (table_all : list (ndarray Z)) l e :
  (t ← getitem1 table_all (- Z.of_nat l);
   let '(uniq, counts) := np_unique (buffer t) in
   c ← getitem1 counts 0;
   Ok (float_of_nat c / float_of_nat (sum_list counts))%float) = Raise e →
  e = IndexError.
Proof.
  destruct (getitem1 table_all _) as [t|e1] eqn:Ht; cbn [mbind result_bind].
  - destruct (np_unique (buffer t)) as [uniq counts].
    destruct (getitem1 counts 0) as [c|e2] eqn:Hc; cbn [mbind result_bind];
      [done|].
    intros [= <-]. by eapply getitem1_raise.
  - intros [= <-]. by eapply getitem1_raise.
Qed.

Lemma three_strategy_raise_only s (table_all : list (ndarray Z)) l e :
  (t ← getitem1 table_all (Z.of_nat l);
   Ok (float_of_nat (count_eq s (buffer t))
       / float_of_nat (shape0 t * shape1 t))%float) = Raise e →
  e = IndexError.
Proof.
  destruct (getitem1 table_all _) as [t|e1] eqn:Ht; cbn [mbind result_bind];
    [done|].
  intros [= <-]. by eapply getitem1_raise.
Qed.

(** Within the history the two-strategy cell reads the tables from the last
    one backwards. *)
Lemma two_strategy_row_Ok table_all L ys :
  Forall2 (λ t y,
      (let '(uniq, counts) := np_unique (buffer t) in
       c ← getitem1 counts 0;
       Ok (float_of_nat c / float_of_nat (sum_list counts))%float) = Ok y)
    (take L (reverse table_all)) ys →
  L ≤ length table_all →
  TwoStrategy.hawk_fractions_row table_all L = Ok ys.
Proof.
  intros Hcells HL. unfold TwoStrategy.hawk_fractions_row.
  apply rmapM_Forall2_2, Forall2_same_length_lookup_2.
  - rewrite length_seq, <-(Forall2_length _ _ _ Hcells), length_take_le; [done|].
    by rewrite length_reverse.
  - intros i l y [-> Hi]%lookup_seq Hy.
    destruct (Forall2_lookup_r _ _ _ _ _ Hcells Hy) as (t & Ht & Hcell).
    apply lookup_take_Some in Ht as [Ht _].
    change (1 + i) with (S i). rewrite (getitem1_from_end _ _ _ Ht).
    cbn [mbind result_bind]. exact Hcell.
Qed.

Lemma two_strategy_row_total table_all L :
  L ≤ length table_all →
  Forall (λ t, buffer t ≠ []) (take L (reverse table_all)) →
  ∃ ys, TwoStrategy.hawk_fractions_row table_all L = Ok ys ∧ length ys = L ∧
    ∀ i t, i < L → reverse table_all !! i = Some t →
      ∃ m, m ∈ buffer t ∧ (∀ x, x ∈ buffer t → (m ≤ x)%Z) ∧
        ys !! i = Some (float_of_nat (count_eq m (buffer t))
                        / float_of_nat (length (buffer t)))%float.
Proof.
  intros HL Hne.
  assert (Hlen : length (take L (reverse table_all)) = L)
    by (rewrite length_take_le; [done|by rewrite length_reverse]).
  assert (∃ ys, Forall2 (λ t y,
      ∃ m, m ∈ buffer t ∧ (∀ x, x ∈ buffer t → (m ≤ x)%Z) ∧
        (let '(uniq, counts) := np_unique (buffer t) in
         c ← getitem1 counts 0;
         Ok (float_of_nat c / float_of_nat (sum_list counts))%float) = Ok y ∧
        y = (float_of_nat (count_eq m (buffer t))
             / float_of_nat (length (buffer t)))%float)
    (take L (reverse table_all)) ys) as [ys Hys].
  { clear Hlen. induction Hne as [|t ts Ht _ [ys IH]]; [exists []; constructor|].
    destruct (proj2 (two_strategy_cell t) Ht) as (m & ? & ? & ?).
    eexists (_ :: ys). constructor; [|exact IH]. exists m. eauto. }
  exists ys. split_and!.
  - apply two_strategy_row_Ok; [|done].
    eapply Forall2_impl; [exact Hys|]. by intros t y (m & _ & _ & ? & _).
  - by rewrite <-(Forall2_length _ _ _ Hys).
  - intros i t Hi Ht.
    assert (take L (reverse table_all) !! i = Some t) as Ht'
      by by apply lookup_take_Some.
    destruct (Forall2_lookup_l _ _ _ _ _ Hys Ht') as (y & Hy & m & ? & ? & _ & ->).
    eauto.
Qed.

Lemma three_strategy_row_Ok s table_all L :
  L < length table_all →
  ThreeStrategy.fractions_row s table_all L
  = Ok (fraction_of s <$> take L (drop 1 table_all)).
Proof.
  intros HL. unfold ThreeStrategy.fractions_row.
  apply rmapM_Forall2_2, Forall2_same_length_lookup_2.
  - rewrite length_seq, length_fmap, length_take_le; [done|].
    rewrite length_drop. lia.
  - intros i l y [-> Hi]%lookup_seq (t & -> & Ht)%list_lookup_fmap_Some.
    apply lookup_take_Some in Ht as [Ht _]. rewrite lookup_drop in Ht.
    rewrite (getitem1_nat _ _ _ Ht). reflexivity.
Qed.

(** X10: when the window fits in the history and the tables read hold at
    least one cell, the two-strategy cell returns, for the [i]-th table from
    the end, the number of cells holding the least label present in that
    table over the number of cells: the fraction of hawks only if a hawk is
    left. *)
Theorem two_strategy_fraction_of_least_label table_all L :
  L ≤ length table_all →
  Forall (λ t, well_formed t ∧ buffer t ≠ []) (take L (reverse table_all)) →
  ∃ ys, TwoStrategy.hawk_fractions_row table_all L = Ok ys ∧ length ys = L ∧
    ∀ i t, i < L → reverse table_all !! i = Some t →
      ∃ m, m ∈ buffer t ∧ (∀ x, x ∈ buffer t → (m ≤ x)%Z) ∧
        ys !! i = Some (fraction_of m t).
Proof.
  intros HL Hwin.
  destruct (two_strategy_row_total table_all L HL) as (ys & Hrun & Hlen & Hys).
  { eapply Forall_impl; [exact Hwin|]. by intros t [_ ?]. }
  exists ys. split_and!; [done|done|].
  intros i t Hi Ht. destruct (Hys i t Hi Ht) as (m & ? & ? & Hy).
  exists m. split_and!; [done|done|].
  assert (well_formed t) as Hwf.
  { rewrite Forall_lookup in Hwin. apply (Hwin i t). by apply lookup_take_Some. }
  unfold fraction_of. by rewrite <-Hwf.
Qed.

Lemma two_strategy_fraction_of_least_label_witness :
  ∃ ys, TwoStrategy.hawk_fractions_row [sample_table; all_doves] 2 = Ok ys ∧
        length ys = 2.
Proof.
  destruct (two_strategy_fraction_of_least_label [sample_table; all_doves] 2)
    as (ys & Hrun & Hlen & _).
  - cbn. lia.
  - repeat constructor; by vm_compute.
  - by exists ys.
Defined.

(** X11: over runs whose last [L] tables are well formed, hold a hawk and
    hold no negative label, the two-strategy cell returns for each run the
    fractions of hawks of its last [L] generations, the most recent first. *)
Theorem two_strategy_fractions_with_hawks table_m L :
  Forall (λ table_all,
      L ≤ length table_all ∧
      Forall (λ t, well_formed t ∧ 0%Z ∈ buffer t ∧
                   Forall (λ v, 0 ≤ v)%Z (buffer t))
        (take L (reverse table_all))) table_m →
  TwoStrategy.hawk_fractions table_m L
  = Ok ((λ table_all, last_fractions 0 table_all L) <$> table_m).
Proof.
  intros Hruns. unfold TwoStrategy.hawk_fractions.
  apply rmapM_Forall2_2, Forall2_fmap_r, Forall_Forall2_diag.
  eapply Forall_impl; [exact Hruns|].
  intros table_all [HL Hwin]. cbn.
  apply two_strategy_row_Ok; [|done].
  unfold last_fractions. apply Forall2_fmap_r, Forall_Forall2_diag.
  eapply Forall_impl; [exact Hwin|].
  intros t (? & ? & ?). cbn. by apply hawk_fraction_of_table.
Qed.

Lemma two_strategy_fractions_with_hawks_witness :
  TwoStrategy.hawk_fractions [[all_doves; sample_table]; [sample_table; all_hawks]] 1
  = Ok [[fraction_of 0 sample_table]; [fraction_of 0 all_hawks]].
Proof.
  apply (two_strategy_fractions_with_hawks
           [[all_doves; sample_table]; [sample_table; all_hawks]] 1).
  repeat constructor; cbn; try lia; try reflexivity;
    rewrite ?elem_of_cons; auto 10.
Defined.

(** X12: the fraction cells raise nothing but [IndexError]. The two-strategy
    cell raises exactly when the window is longer than the history or a
    table read has no cell; the three-strategy cells raise exactly when the
    window is not empty and not shorter than the history. *)
Theorem fraction_cells_errors table_all L :
  (TwoStrategy.hawk_fractions_row table_all L = Raise IndexError ↔
     length table_all < L ∨
     Exists (λ t, buffer t = []) (take L (reverse table_all))) ∧
  (∀ e, TwoStrategy.hawk_fractions_row table_all L = Raise e → e = IndexError) ∧
  (∀ s, ThreeStrategy.fractions_row s table_all L = Raise IndexError ↔
     0 < L ∧ length table_all ≤ L) ∧
  (∀ s e, ThreeStrategy.fractions_row s table_all L = Raise e → e = IndexError).
Proof.
  split_and!.
  - split.
    + intros Hraise.
      destruct (decide (length table_all < L)) as [|Hlen]; [by left|].
      destruct (decide (Exists (λ t : ndarray Z, buffer t = [])
                          (take L (reverse table_all)))) as [|Hne]; [by right|].
      apply not_Exists_Forall in Hne; [|apply _].
      destruct (two_strategy_row_total table_all L) as (ys & Hrun & _);
        [lia|exact Hne|congruence].
    + intros Hcase.
      destruct (decide (length table_all < L)) as [Hlen|Hlen].
      * unfold TwoStrategy.hawk_fractions_row.
        eapply (rmapM_raise_E _ _ _ (L - 1) L).
        -- intros l e. apply two_strategy_raise_only.
        -- rewrite lookup_seq. lia.
        -- by rewrite getitem1_before_start.
      * destruct Hcase as [|Hex]; [done|].
        apply Exists_exists in Hex as (t & Ht & Hbuf).
        apply list_elem_of_lookup in Ht as [i Hi].
        apply lookup_take_Some in Hi as [Hi HiL].
        unfold TwoStrategy.hawk_fractions_row.
        eapply (rmapM_raise_E _ _ _ i (S i)).
        -- intros l e. apply two_strategy_raise_only.
        -- rewrite lookup_seq. lia.
        -- rewrite (getitem1_from_end _ _ _ Hi). cbn [mbind result_bind].
           by apply two_strategy_cell.
  - intros e. unfold TwoStrategy.hawk_fractions_row.
    apply rmapM_raise_only. intros l e'. apply two_strategy_raise_only.
  - intros s. split.
    + intros Hraise. destruct (decide (L < length table_all)) as [Hlen|Hlen].
      { by rewrite three_strategy_row_Ok in Hraise. }
      split; [|lia]. destruct L; [done|lia].
    + intros [HL Hlen]. unfold ThreeStrategy.fractions_row.
      eapply (rmapM_raise_E _ _ _ (L - 1) L).
      * intros l e. apply three_strategy_raise_only.
      * rewrite lookup_seq. lia.
      * by rewrite getitem1_past_end.
  - intros s e. unfold ThreeStrategy.fractions_row.
    apply rmapM_raise_only. intros l e'. apply three_strategy_raise_only.
Qed.

(** X13: when the window is shorter than each history, the three-strategy
    cells return, for each run, the fractions of the strategy in generations
    [1] to [L] in that order: the first [L] generations after the initial
    table, whatever the length of the run. *)
Theorem three_strategy_fractions_window table_m L :
  Forall (λ table_all, L < length table_all) table_m →
  ThreeStrategy.hawk_fractions table_m L
    = Ok ((λ table_all, fraction_of 0 <$> take L (drop 1 table_all)) <$> table_m) ∧
  ThreeStrategy.dove_fractions table_m L
    = Ok ((λ table_all, fraction_of 1 <$> take L (drop 1 table_all)) <$> table_m) ∧
  ThreeStrategy.revenge_fractions table_m L
    = Ok ((λ table_all, fraction_of 2 <$> take L (drop 1 table_all)) <$> table_m).
Proof.
  intros Hruns.
  unfold ThreeStrategy.hawk_fractions, ThreeStrategy.dove_fractions,
    ThreeStrategy.revenge_fractions.
  split_and!; apply rmapM_Forall2_2, Forall2_fmap_r, Forall_Forall2_diag;
    (eapply Forall_impl; [exact Hruns|]);
    intros table_all HL; cbn; by apply three_strategy_row_Ok.
Qed.

Lemma three_strategy_fractions_window_witness :
  ThreeStrategy.dove_fractions [[sample_table; all_hawks; all_doves]] 1
  = Ok [[fraction_of 1 all_hawks]].
Proof.
  apply (three_strategy_fractions_window [[sample_table; all_hawks; all_doves]] 1).
  repeat constructor.
Defined.

(** ** Counts over all strategies *)

Lemma count_eq_labels (l : list Z) n :
  Forall (λ v, 0 ≤ v < Z.of_nat n)%Z l →
  sum_list ((λ s, count_eq (Z.of_nat s) l) <$> seq 0 n) = length l.
Proof.
  intros Hl.
  rewrite <-(count_eq_partition l (Z.of_nat <$> seq 0 n)).
  - by rewrite <-list_fmap_compose.
  - apply NoDup_fmap_2; [apply _|apply NoDup_seq].
  - intros x Hx. rewrite Forall_forall in Hl. specialize (Hl x Hx).
    apply list_elem_of_fmap. exists (Z.to_nat x). split; [lia|].
    apply elem_of_seq. lia.
Qed.

(** X14: in every generation of a run with at least one strategy, the
    numbers of cells holding the strategies [0] to [S-1], as the
    three-strategy cells count them, add up to the [X*Y] cells of the grid:
    every cell holds one of the strategies of the run. *)
Theorem run_counts_partition `{NumpyRandom} payoff X Y S G nf mixed g history g' :
  run payoff X Y S G nf mixed g = Ok (history, g') →
  (1 ≤ S)%Z →
  Forall (λ t,
      sum_list ((λ s, count_eq (Z.of_nat s) (buffer t)) <$> seq 0 (Z.to_nat S))
      = Z.to_nat X * Z.to_nat Y) history.
Proof.
  intros (Hshape & _ & Hlabels)%run_tables HS. specialize (Hlabels HS).
  apply Forall_lookup. intros k t Ht.
  rewrite Forall_lookup in Hshape. destruct (Hshape k t Ht) as (HX & HY & Hwf).
  rewrite Forall_lookup in Hlabels. specialize (Hlabels k t Ht).
  rewrite count_eq_labels.
  - by rewrite Hwf, HX, HY.
  - eapply Forall_impl; [exact Hlabels|]. intros v. cbn. lia.
Qed.

Lemma run_counts_partition_witness :
  ∃ history g', @run counter_random (payoff_retaliator 1.5 0.1) 3 3 3 2
                  moore_neighbourhood false 0 = Ok (history, g') ∧
    Forall (λ t, count_eq 0 (buffer t) + (count_eq 1 (buffer t)
                 + (count_eq 2 (buffer t) + 0)) = 9) history.
Proof.
  destruct (@run counter_random (payoff_retaliator 1.5 0.1) 3 3 3 2
              moore_neighbourhood false 0) as [[history g']|] eqn:Hrun;
    [|by vm_compute in Hrun].
  exists history, g'. split; [done|].
  exact (@run_counts_partition counter_random _ _ _ _ _ _ _ _ _ _ Hrun
           ltac:(lia)).
Defined.

(** ** Where [generate_table] puts the strategies *)

(** X15: on a grid without a negative dimension, [generate_table] deals the
    strategies out along the permutation drawn after [seed(0)]: the cell at
    the flat index [rnd_idxs[k]] holds the strategy [k mod num_strats]. With
    a strategy count of zero or less the loop does not run and every cell
    keeps the initial [0]. The generator is left where that permutation
    leaves it. *)
Theorem generate_table_placement `{NumpyRandom} size_x size_y num_strats g :
  (0 ≤ size_x)%Z → (0 ≤ size_y)%Z →
  let n := Z.to_nat (size_x * size_y) in
  let rnd := permutation n (seed 0) in
  ∃ a,
    generate_table size_x size_y num_strats g = Ok (a, rnd.2) ∧
    ((1 ≤ num_strats)%Z →
       ∀ k p, rnd.1 !! k = Some p →
         buffer a !! p = Some (Z.of_nat (k `mod` Z.to_nat num_strats))) ∧
    ((num_strats ≤ 0)%Z → buffer a = replicate n 0%Z).
Proof.
  intros HX HY n rnd. unfold generate_table, np_zeros1.
  assert (0 ≤ size_x * size_y)%Z as Hn by lia.
  rewrite decide_False by lia. cbn [mbind result_bind].
  pose proof (permutation_perm n (seed 0)) as Hperm.
  fold n. fold rnd. fold rnd in Hperm.
  destruct rnd as [rnd_idxs g1]. cbn [fst snd] in *.
  assert (Hshape : ∀ table : list Z, length table = n →
            np_reshape table size_x size_y
            = Ok (NdArray (Z.to_nat size_x) (Z.to_nat size_y) table)).
  { intros table Hlen. unfold np_reshape. rewrite Hlen.
    rewrite decide_False by lia. rewrite decide_False by lia.
    rewrite decide_False by lia. by rewrite decide_True by lia. }
  destruct (decide (1 ≤ num_strats)%Z) as [HS|HS].
  - assert (0 < Z.to_nat num_strats) as Hnum by lia.
    unfold range.
    destruct (assigned_loop n (Z.to_nat num_strats) rnd_idxs Hperm Hnum
                (Z.to_nat num_strats) 0 (replicate n 0%Z))
      as (table & -> & Hlen & Hcells).
    { lia. }
    { by apply assigned_init. }
    cbn [mbind result_bind]. rewrite (Hshape table Hlen).
    cbn [mbind result_bind]. eexists. split_and!; [done| |lia].
    intros _ k p Hk. cbn [buffer]. rewrite (Hcells k p Hk).
    cbn [Nat.add]. rewrite decide_True; [done|].
    apply Nat.mod_upper_bound. lia.
  - unfold range. replace (Z.to_nat num_strats) with 0 by lia.
    cbn [seq fmap list_fmap rfoldl mbind result_bind].
    rewrite (Hshape _ (length_replicate _ _)).
    cbn [mbind result_bind]. eexists. split_and!; [done|lia|done].
Qed.

Lemma generate_table_placement_witness :
  ∃ a, @generate_table counter_random 3 3 2 4 = Ok (a, 1) ∧
       buffer a !! 3 = Some 1%Z ∧ buffer a !! 4 = Some 0%Z.
Proof.
  destruct (@generate_table_placement counter_random 3 3 2 4
              ltac:(lia) ltac:(lia)) as (a & Hrun & Hcells & _).
  exists a. split; [exact Hrun|].
  split; [exact (Hcells ltac:(lia) 3 3 eq_refl)
         |exact (Hcells ltac:(lia) 4 4 eq_refl)].
Defined.
